(** * The agent-sdk bridge: replay, command parsing, permissions, usage

    A shallow embedding of [src/agent-sdk/src/bridge]:
    - [history.ts]     session titles and previews, the session index and
                       the replay of a persisted log,
    - [commands.ts]    the command envelope parser and the permission modes,
    - [usage.ts]       usage accounting (the second part of [commands.ts]),
    - [permissions.ts] permission options, permission results and the
                       rendering of permission updates.

    JavaScript strings are sequences of UTF-16 code units, numbers are
    IEEE-754 doubles, objects parsed from JSON are ordered key/value lists.
    Mutable locals become explicit state; thrown errors become a sum type. *)

From Stdlib Require Import ZArith NArith Ascii String.
From Stdlib Require Import Floats.PrimFloat.
From Stdlib Require Floats.SpecFloat Floats.FloatOps Floats.FloatAxioms.
From stdpp Require Import base option list gmap strings pretty sorting.

Set Warnings "-register-all,-inexact-float,-clear-no-such-hyp".

Local Open Scope N_scope.

(** ** JavaScript strings *)

(** A string value: its UTF-16 code units. *)
Definition jsstring := list N.

(** An ASCII literal of the source as a [jsstring]. *)
Definition js (s : string) : jsstring :=
  (λ a, N_of_ascii a) <$> list_ascii_of_string s.

(** [WhiteSpace] and [LineTerminator] of ECMAScript: what [\s] matches and
    what [String.prototype.trim] strips. *)
Definition isWhiteSpace (c : N) : bool :=
  (9 <=? c) && (c <=? 13)
  || (c =? 32) || (c =? 160) || (c =? 5760)
  || (8192 <=? c) && (c <=? 8202)
  || (c =? 8232) || (c =? 8233) || (c =? 8239) || (c =? 8287)
  || (c =? 12288) || (c =? 65279).

Fixpoint trimStart (s : jsstring) : jsstring :=
  match s with
  | c :: rest => if isWhiteSpace c then trimStart rest else s
  | [] => []
  end.

Definition trimEnd (s : jsstring) : jsstring := reverse (trimStart (reverse s)).

(** [s.trim()] *)
Definition trim (s : jsstring) : jsstring := trimEnd (trimStart s).

(** [parts.join(sep)] *)
Fixpoint join (sep : jsstring) (parts : list jsstring) : jsstring :=
  match parts with
  | [] => []
  | [p] => p
  | p :: rest => p ++ sep ++ join sep rest
  end.

Definition isHighSurrogate (c : N) : bool := (55296 <=? c) && (c <=? 56319).
Definition isLowSurrogate (c : N) : bool := (56320 <=? c) && (c <=? 57343).

(** [Array.from(text)]: the string iterator yields one element per code
    point; a high surrogate followed by a low surrogate is one element of two
    units, any other unit (a lone surrogate too) is an element of its own. *)
Fixpoint arrayFromString (s : jsstring) : list jsstring :=
  match s with
  | [] => []
  | c :: rest =>
      match rest with
      | d :: rest' =>
          if isHighSurrogate c && isLowSurrogate d
          then [c; d] :: arrayFromString rest'
          else [c] :: arrayFromString rest
      | [] => [[c]]
      end
  end.

(** [text.split(/\r?\n/)]: a line ends at a line feed, and a carriage return
    right before that line feed belongs to the separator. The result is never
    empty: the empty text has one empty line. *)
Fixpoint splitLines (s : jsstring) : list jsstring :=
  match s with
  | [] => [[]]
  | c :: rest =>
      if c =? 10 then [] :: splitLines rest
      else
        match rest with
        | d :: rest' =>
            if (c =? 13) && (d =? 10) then [] :: splitLines rest'
            else match splitLines rest with
                 | l :: ls => (c :: l) :: ls
                 | [] => [[c]]
                 end
        | [] => [[c]]
        end
  end.

(** The default comparison of [Array.prototype.sort] on strings: code units,
    lexicographically. *)
Fixpoint jsstring_ltb (a b : jsstring) : bool :=
  match a, b with
  | [], [] => false
  | [], _ :: _ => true
  | _ :: _, [] => false
  | x :: a', y :: b' => (x <? y) || (x =? y) && jsstring_ltb a' b'
  end.

Fixpoint insertSorted (k : jsstring) (l : list jsstring) : list jsstring :=
  match l with
  | [] => [k]
  | x :: l' => if jsstring_ltb k x then k :: l else x :: insertSorted k l'
  end.

(** [keys.sort()] *)
Definition sortStrings (l : list jsstring) : list jsstring :=
  foldr insertSorted [] l.

(** [String(index)] for an array index. *)
Definition stringOfNat (n : nat) : jsstring := js (pretty n).

(** ** JavaScript values *)

(** The values [JSON.parse] produces, and what the bridge receives as
    [unknown]. [undefined] is the absence of a value: [option Json]. *)
Inductive Json : Type :=
  | JNull
  | JBool (b : bool)
  | JNum (x : float)
  | JStr (s : jsstring)
  | JArr (items : list Json)
  | JObj (fields : list (jsstring * Json)).

(** [Record<string, unknown>] *)
Definition JsObject := list (jsstring * Json).

(** [record[key]] for an own property; [None] is [undefined]. The properties
    that every object inherits are left out: no key that the bridge names is
    one of them. *)
Fixpoint getField (record : JsObject) (key : jsstring) : option Json :=
  match record with
  | [] => None
  | (k, v) :: rest => if bool_decide (k = key) then Some v else getField rest key
  end.

(** [Object.keys(record)] *)
Definition objectKeys (record : JsObject) : list jsstring := record.*1.

(** [Array.isArray(value) ? value : fallback] and friends read a value by
    its type; [None] stands for "not of that type". *)
Definition asString (value : option Json) : option jsstring :=
  match value with Some (JStr s) => Some s | _ => None end.

Definition asArray (value : option Json) : option (list Json) :=
  match value with Some (JArr items) => Some items | _ => None end.

(** [value === literal] for a string literal. *)
Definition isStringLiteral (value : option Json) (literal : jsstring) : bool :=
  bool_decide (asString value = Some literal).

(** [ToBoolean]: what [if (value)] and [Boolean(value)] test. *)
Definition truthy (value : option Json) : bool :=
  match value with
  | None | Some JNull => false
  | Some (JBool b) => b
  | Some (JNum x) => negb (is_nan x || is_zero x)
  | Some (JStr s) => negb (bool_decide (s = []))
  | Some (JArr _) | Some (JObj _) => true
  end.

(** Modelled from the spec: [asRecordOrNull] of [shared.js], which is not
    among the sources. The spec's replay skips a parsed line that is not a
    non-array object, and [asRecord] of [commands.ts] is the throwing twin:
    the value itself when it is an object and no array, [null] otherwise. *)
Definition asRecordOrNull (value : option Json) : option JsObject :=
  match value with Some (JObj fields) => Some fields | _ => None end.

(** [Math.max(...values)]: NaN when a value is NaN; else the running highest
    from [-Infinity], replaced by a greater value or by [+0] over [-0]. *)
Definition Math_max (values : list float) : float :=
  if existsb is_nan values then nan
  else
    foldl (λ highest number,
             if (highest <? number)%float
                || (is_zero number && negb (get_sign number)
                    && is_zero highest && get_sign highest)
             then number else highest)
          neg_infinity values.

(** ** Session updates (types.ts, modelled from their use and from the spec) *)

(** Modelled from the spec: [ToolCall] of [types.js], which is not among the
    sources: id, name, input, status, and the optional raw output and
    content. *)
Record ToolCall : Type := mkToolCall {
  tc_id : jsstring;
  tc_name : jsstring;
  tc_input : JsObject;
  tc_status : jsstring;
  tc_raw_output : option Json;
  tc_content : option Json;
}.

(** Modelled from the spec: the fields of a [tool_call_update], of which
    [pushResumeToolResult] reads the status, the raw output and the content. *)
Record ToolCallUpdateFields : Type := mkFields {
  f_status : option jsstring;
  f_raw_output : option Json;
  f_content : option Json;
}.

(** The [usage] object of a [usage_update]: every key is optional. *)
Record UsageFields : Type := mkUsage {
  input_tokens : option float;
  output_tokens : option float;
  cache_read_tokens : option float;
  cache_write_tokens : option float;
  total_cost_usd : option float;
  turn_cost_usd : option float;
  context_window : option float;
  max_output_tokens : option float;
}.

(** [SessionUpdate], over what a [tool_call] update holds: in the [updates]
    array of the replay it is a reference to the [ToolCall] object that the
    lookup table holds too ([T := nat], an address); once read, the object's
    fields ([T := ToolCall]). *)
Inductive SessionUpdateOf (T : Type) : Type :=
  | user_message_chunk (text : jsstring)
  | agent_message_chunk (text : jsstring)
  | tool_call (tool : T)
  | tool_call_update (tool_call_id : jsstring) (fields : ToolCallUpdateFields)
  | usage_update (usage : UsageFields).

Arguments user_message_chunk {T} text.
Arguments agent_message_chunk {T} text.
Arguments tool_call {T} tool.
Arguments tool_call_update {T} tool_call_id fields.
Arguments usage_update {T} usage.

Definition SessionUpdate := SessionUpdateOf ToolCall.

(** ** Usage accounting (usage.ts) *)

Record UsageSessionContext : Type := mkSession {
  model : option jsstring;
  lastTotalCostUsd : option float;
}.

(** [numberField(record, ...keys)]: the first key that holds a finite
    number. *)
Fixpoint numberField (record : JsObject) (keys : list jsstring) : option float :=
  match keys with
  | [] => None
  | key :: keys' =>
      match getField record key with
      | Some (JNum value) =>
          if is_finite value then Some value else numberField record keys'
      | _ => numberField record keys'
      end
  end.

(** [asRecordOrNull(modelUsageRaw[key])] for a key that the data supplies:
    a model name, or a key of the object itself. An own property is read as
    [getField] reads it. A key that is no own property is looked up in
    [Object.prototype]: under [__proto__] that is [Object.prototype] itself, an
    object that is no array and that holds nothing but functions, so that it
    reads as the empty record; every other property of [Object.prototype] is a
    function, which is no object for [asRecordOrNull]. *)
Definition recordUnder (modelUsageRaw : JsObject) (key : jsstring)
  : option JsObject :=
  match getField modelUsageRaw key with
  | Some value => asRecordOrNull (Some value)
  | None => if bool_decide (key = js "__proto__") then Some [] else None
  end.

(** The first key of [keys] that holds a record in [modelUsageRaw]. *)
Fixpoint firstRecordAt (modelUsageRaw : JsObject) (keys : list jsstring)
  : option JsObject :=
  match keys with
  | [] => None
  | key :: keys' =>
      match recordUnder modelUsageRaw key with
      | Some value => Some value
      | None => firstRecordAt modelUsageRaw keys'
      end
  end.

(** The [preferredKeys] set in insertion order: the session's model when it
    is a non-empty string, then the message's model when it is a string and
    not yet in the set. *)
Definition preferredKeys (session : option UsageSessionContext)
    (message : JsObject) : list jsstring :=
  let fromSession :=
    match session with
    | Some s => match model s with
                | Some m => if bool_decide (m = []) then [] else [m]
                | None => []
                end
    | None => []
    end in
  match asString (getField message (js "model")) with
  | Some m => if bool_decide (m ∈ fromSession) then fromSession
              else fromSession ++ [m]
  | None => fromSession
  end.

Definition selectModelUsageRecord (session : option UsageSessionContext)
    (message : JsObject) : option JsObject :=
  match asRecordOrNull (getField message (js "modelUsage")) with
  | None => None
  | Some modelUsageRaw =>
      let sortedKeys := sortStrings (objectKeys modelUsageRaw) in
      if bool_decide (sortedKeys = []) then None
      else
        match firstRecordAt modelUsageRaw (preferredKeys session message) with
        | Some value => Some value
        | None => firstRecordAt modelUsageRaw sortedKeys
        end
  end.

(** The [turnCostUsd] of one observation and the session after it: lines
    275-284. Without a session or without a total nothing is recorded. *)
Definition observeTotalCost (session : option UsageSessionContext)
    (totalCostUsd : option float)
  : option UsageSessionContext * option float :=
  match totalCostUsd, session with
  | Some total, Some s =>
      let turnCostUsd :=
        match lastTotalCostUsd s with
        | None => total
        | Some last => Math_max [0%float; (total - last)%float]
        end in
      (Some {| model := model s; lastTotalCostUsd := Some total |},
       Some turnCostUsd)
  | _, _ => (session, None)
  end.

(** [a === undefined && b === undefined && ...] *)
Definition allUndefined (values : list (option float)) : bool :=
  forallb (λ value, match value with None => true | Some _ => false end) values.

(** [buildUsageUpdateFromResultForSession(session, message)]: the update, or
    [None] for [null], together with the session context as the call leaves
    it (the source mutates [session] in place). *)
Definition buildUsageUpdateFromResultForSession {T : Type}
    (session : option UsageSessionContext) (message : JsObject)
  : option UsageSessionContext * option (SessionUpdateOf T) :=
  let usage := asRecordOrNull (getField message (js "usage")) in
  let usageNumber keys := usage ≫= λ u, numberField u keys in
  let inputTokens := usageNumber [js "inputTokens"; js "input_tokens"] in
  let outputTokens := usageNumber [js "outputTokens"; js "output_tokens"] in
  let cacheReadTokens :=
    usageNumber [js "cacheReadInputTokens"; js "cache_read_input_tokens";
                 js "cache_read_tokens"] in
  let cacheWriteTokens :=
    usageNumber [js "cacheCreationInputTokens";
                 js "cache_creation_input_tokens"; js "cache_write_tokens"] in
  let totalCostUsd :=
    numberField message [js "total_cost_usd"; js "totalCostUsd"] in
  let '(session', turnCostUsd) := observeTotalCost session totalCostUsd in
  let modelUsage := selectModelUsageRecord session' message in
  let contextWindow :=
    modelUsage ≫= λ m, numberField m [js "contextWindow"; js "context_window"] in
  let maxOutputTokens :=
    modelUsage ≫= λ m,
      numberField m [js "maxOutputTokens"; js "max_output_tokens"] in
  if allUndefined [inputTokens; outputTokens; cacheReadTokens; cacheWriteTokens;
                   totalCostUsd; turnCostUsd; contextWindow; maxOutputTokens]
  then (session', None)
  else
    (session',
     Some (usage_update
             {| input_tokens := inputTokens;
                output_tokens := outputTokens;
                cache_read_tokens := cacheReadTokens;
                cache_write_tokens := cacheWriteTokens;
                total_cost_usd := totalCostUsd;
                turn_cost_usd := turnCostUsd;
                context_window := contextWindow;
                max_output_tokens := maxOutputTokens |})).

(** [buildUsageUpdateFromResult(message)]: no session. *)
Definition buildUsageUpdateFromResult {T : Type} (message : JsObject)
  : option (SessionUpdateOf T) :=
  (buildUsageUpdateFromResultForSession None message).2.

(** ** Session titles (history.ts) *)

(** The upper-case form of an ASCII letter. Under the [i] flag a pattern
    character below 128 only ever matches its two ASCII cases: the
    canonicalisation of a regular expression never maps a unit of 128 or more
    below 128. *)
Definition asciiUpper (c : N) : N :=
  if (97 <=? c) && (c <=? 122) then c - 32 else c.

(** [pattern] matches at the start of [s], ignoring ASCII case. *)
Fixpoint startsWithIgnoreCase (pattern s : jsstring) : bool :=
  match pattern, s with
  | [], _ => true
  | _ :: _, [] => false
  | p :: pattern', c :: s' =>
      (asciiUpper p =? asciiUpper c) && startsWithIgnoreCase pattern' s'
  end.

(** [raw.replace(/<context[\s\S]*/gi, " ")]: the first [<context] and all
    that follows become one space. *)
Fixpoint replaceContextTag (s : jsstring) : jsstring :=
  match s with
  | [] => []
  | c :: rest =>
      if startsWithIgnoreCase (js "<context") s then js " "
      else c :: replaceContextTag rest
  end.

(** The longest prefix of units other than [stop], and what follows it. *)
Fixpoint spanUntil (stop : N) (s : jsstring) : jsstring * jsstring :=
  match s with
  | [] => ([], [])
  | c :: rest =>
      if c =? stop then ([], s)
      else let '(run, after) := spanUntil stop rest in (c :: run, after)
  end.

(** A match of [/\[([^\]]+)\]\([^)]+\)/] at the start of [s]: the captured
    label and the length of the match. Both classes take their longest run,
    nothing shorter can be followed by the bracket the pattern asks for. *)
Definition matchLinkAt (s : jsstring) : option (jsstring * nat) :=
  match s with
  | 91 :: afterOpen =>
      let '(label, afterLabel) := spanUntil 93 afterOpen in
      match label, afterLabel with
      | _ :: _, 93 :: 40 :: afterParen =>
          let '(url, afterUrl) := spanUntil 41 afterParen in
          match url, afterUrl with
          | _ :: _, 41 :: _ =>
              Some (label, (4 + length label + length url)%nat)
          | _, _ => None
          end
      | _, _ => None
      end
  | _ => None
  end.

(** [text.replace(/\[([^\]]+)\]\([^)]+\)/g, "$1")], scanning left to right:
    [skip] counts the units of the current match still to pass over. *)
Fixpoint replaceLinks (skip : nat) (s : jsstring) : jsstring :=
  match s with
  | [] => []
  | c :: rest =>
      match skip with
      | S skip' => replaceLinks skip' rest
      | O =>
          match matchLinkAt s with
          | Some (label, len) => label ++ replaceLinks (pred len) rest
          | None => c :: replaceLinks O rest
          end
      end
  end.

(** [text.replace(/\s+/g, " ")]: [inRun] says that the previous unit was
    white space, already replaced. *)
Fixpoint collapseWhiteSpace (inRun : bool) (s : jsstring) : jsstring :=
  match s with
  | [] => []
  | c :: rest =>
      if isWhiteSpace c
      then (if inRun then [] else js " ") ++ collapseWhiteSpace true rest
      else c :: collapseWhiteSpace false rest
  end.

Definition normalizeUserPromptText (raw : jsstring) : jsstring :=
  let text := replaceContextTag raw in
  let text := replaceLinks O text in
  trim (collapseWhiteSpace false text).

Definition truncateTextByChars (text : jsstring) (maxChars : nat) : jsstring :=
  let chars := arrayFromString text in
  if bool_decide (length chars ≤ maxChars)%nat then text
  else join [] (take maxChars chars).

(** The cleaned text of a content item: [None] where the loop of
    [firstUserMessageTitleFromRecord] continues without pushing. *)
Definition cleanedTextOf (item : Json) : option jsstring :=
  match asRecordOrNull (Some item) with
  | None => None
  | Some block =>
      if isStringLiteral (getField block (js "type")) (js "text")
      then match asString (getField block (js "text")) with
           | Some text =>
               let cleaned := normalizeUserPromptText text in
               if bool_decide (cleaned = []) then None else Some cleaned
           | None => None
           end
      else None
  end.

(** The loop over [message.content] and the code after it, from the [parts]
    collected so far. *)
Fixpoint titleFromContent (parts : list jsstring) (content : list Json)
  : option jsstring :=
  match content with
  | [] =>
      if bool_decide (length parts = 0%nat) then None
      else Some (truncateTextByChars (join (js " ") parts) 180)
  | item :: content' =>
      match cleanedTextOf item with
      | None => titleFromContent parts content'
      | Some cleaned =>
          let parts' := parts ++ [cleaned] in
          let combined := join (js " ") parts' in
          if bool_decide (180 ≤ length (arrayFromString combined))%nat
          then Some (truncateTextByChars combined 180)
          else titleFromContent parts' content'
      end
  end.

Definition firstUserMessageTitleFromRecord (record : JsObject) : option jsstring :=
  if isStringLiteral (getField record (js "type")) (js "user")
  then
    match asRecordOrNull (getField record (js "message")) with
    | None => None
    | Some message =>
        if isStringLiteral (getField message (js "role")) (js "user")
        then match asArray (getField message (js "content")) with
             | Some content => titleFromContent [] content
             | None => None
             end
        else None
    end
  else None.

(** ** Replay of a persisted log (history.ts) *)

(** The imports from [tooling.js], which is not among the sources. The
    replay is modelled over any four of them. *)
Class Tooling : Type := {
  createToolCall : jsstring → jsstring → JsObject → ToolCall;
  buildToolResultFields :
    bool → option Json → option ToolCall → ToolCallUpdateFields;
  isToolUseBlockType : jsstring → bool;
  TOOL_RESULT_TYPES : gset jsstring;
}.

(** [JSON.parse] of the runtime; [None] when it throws a [SyntaxError]. *)
Class Runtime : Type := {
  JSON_parse : jsstring → option Json;
}.

Inductive Role : Type := RoleUser | RoleAssistant.

#[global] Instance Role_eq_dec : EqDecision Role.
Proof. solve_decision. Defined.

(** The locals of [extractSessionHistoryUpdatesFromJsonl]. A [ToolCall] object
    is shared by the [updates] array and the [toolCalls] map, and
    [pushResumeToolResult] writes to it through the map: the objects live in
    [objects], a store that address [i] reads at index [i]. *)
Record ReplayState : Type := mkReplay {
  updates : list (SessionUpdateOf nat);
  objects : list ToolCall;
  toolCalls : gmap jsstring nat;
  emittedUsageMessageIds : gset jsstring;
}.

Definition initialReplayState : ReplayState :=
  {| updates := []; objects := []; toolCalls := ∅;
     emittedUsageMessageIds := ∅ |}.

#[global] Instance ToolCall_inhabited : Inhabited ToolCall :=
  populate (mkToolCall [] [] [] [] None None).

(** An update as the caller reads it from the returned array: a [tool_call]
    shows the object as the replay left it. *)
Definition readUpdate (objects : list ToolCall) (u : SessionUpdateOf nat)
  : SessionUpdate :=
  match u with
  | user_message_chunk text => user_message_chunk text
  | agent_message_chunk text => agent_message_chunk text
  | tool_call address => tool_call (objects !!! address)
  | tool_call_update id fields => tool_call_update id fields
  | usage_update usage => usage_update usage
  end.

Definition readUpdates (st : ReplayState) : list SessionUpdate :=
  readUpdate (objects st) <$> updates st.

Definition persistedMessageCandidates (record : JsObject) : list JsObject :=
  let topLevel := asRecordOrNull (getField record (js "message")) in
  let nested :=
    asRecordOrNull (getField record (js "data")) ≫= λ data,
    asRecordOrNull (getField data (js "message")) ≫= λ inner,
    asRecordOrNull (getField inner (js "message")) in
  option_list topLevel ++ option_list nested.

Definition pushResumeTextChunk {T : Type} (updates : list (SessionUpdateOf T))
    (role : Role) (text : jsstring) : list (SessionUpdateOf T) :=
  if bool_decide (trim text = []) then updates
  else
    match role with
    | RoleAssistant => updates ++ [agent_message_chunk text]
    | RoleUser => updates ++ [user_message_chunk text]
    end.

Section Replay.
Context `{tooling : Tooling} `{runtime : Runtime}.

Definition pushResumeToolUse (st : ReplayState) (block : JsObject) : ReplayState :=
  let toolUseId := default [] (asString (getField block (js "id"))) in
  if bool_decide (toolUseId = []) then st
  else
    let name := default (js "Tool") (asString (getField block (js "name"))) in
    let input := default [] (asRecordOrNull (getField block (js "input"))) in
    let created := createToolCall toolUseId name input in
    let toolCall :=
      {| tc_id := tc_id created; tc_name := tc_name created;
         tc_input := tc_input created; tc_status := js "in_progress";
         tc_raw_output := tc_raw_output created;
         tc_content := tc_content created |} in
    let address := length (objects st) in
    {| updates := updates st ++ [tool_call address];
       objects := objects st ++ [toolCall];
       toolCalls := <[toolUseId := address]> (toolCalls st);
       emittedUsageMessageIds := emittedUsageMessageIds st |}.

(** The three assignments to [base] at the end of [pushResumeToolResult]. *)
Definition mergeToolResult (base : ToolCall) (fields : ToolCallUpdateFields)
  : ToolCall :=
  {| tc_id := tc_id base; tc_name := tc_name base; tc_input := tc_input base;
     tc_status := default (tc_status base) (f_status fields);
     tc_raw_output :=
       if truthy (f_raw_output fields) then f_raw_output fields
       else tc_raw_output base;
     tc_content :=
       if truthy (f_content fields) then f_content fields
       else tc_content base |}.

Definition pushResumeToolResult (st : ReplayState) (block : JsObject) : ReplayState :=
  let toolUseId := default [] (asString (getField block (js "tool_use_id"))) in
  if bool_decide (toolUseId = []) then st
  else
    let isError := truthy (getField block (js "is_error")) in
    let baseAddress := toolCalls st !! toolUseId in
    let base := baseAddress ≫= λ address, objects st !! address in
    let fields := buildToolResultFields isError (getField block (js "content")) base in
    let updates' := updates st ++ [tool_call_update toolUseId fields] in
    match baseAddress, base with
    | Some address, Some base =>
        {| updates := updates';
           objects := <[address := mergeToolResult base fields]> (objects st);
           toolCalls := toolCalls st;
           emittedUsageMessageIds := emittedUsageMessageIds st |}
    | _, _ =>
        {| updates := updates'; objects := objects st;
           toolCalls := toolCalls st;
           emittedUsageMessageIds := emittedUsageMessageIds st |}
    end.

Definition pushResumeUsageUpdate (st : ReplayState) (message : JsObject) : ReplayState :=
  let messageId := default [] (asString (getField message (js "id"))) in
  if negb (bool_decide (messageId = []))
     && bool_decide (messageId ∈ emittedUsageMessageIds st)
  then st
  else
    match buildUsageUpdateFromResult message with
    | None => st
    | Some usageUpdate =>
        {| updates := updates st ++ [usageUpdate];
           objects := objects st;
           toolCalls := toolCalls st;
           emittedUsageMessageIds :=
             if bool_decide (messageId = []) then emittedUsageMessageIds st
             else {[messageId]} ∪ emittedUsageMessageIds st |}
    end.

(** One turn of the loop over [content]. *)
Definition replayBlock (role : Role) (st : ReplayState) (item : Json) : ReplayState :=
  match asRecordOrNull (Some item) with
  | None => st
  | Some block =>
      let blockType := default [] (asString (getField block (js "type"))) in
      let withUpdates updates' :=
        {| updates := updates'; objects := objects st;
           toolCalls := toolCalls st;
           emittedUsageMessageIds := emittedUsageMessageIds st |} in
      if bool_decide (blockType = js "thinking") then st
      else
        match (if bool_decide (blockType = js "text")
               then asString (getField block (js "text")) else None) with
        | Some text =>
            withUpdates (pushResumeTextChunk (updates st) role text)
        | None =>
            if isToolUseBlockType blockType
               && bool_decide (role = RoleAssistant)
            then pushResumeToolUse st block
            else if bool_decide (blockType ∈ TOOL_RESULT_TYPES)
            then pushResumeToolResult st block
            else if bool_decide (blockType = js "image")
            then withUpdates (pushResumeTextChunk (updates st) role (js "[image]"))
            else st
        end
  end.

(** One turn of the loop over the message candidates of a record. *)
Definition replayMessage (st : ReplayState) (message : JsObject) : ReplayState :=
  let role :=
    match asString (getField message (js "role")) with
    | Some r => if bool_decide (r = js "user") then Some RoleUser
                else if bool_decide (r = js "assistant") then Some RoleAssistant
                else None
    | None => None
    end in
  match role with
  | None => st
  | Some role =>
      let content := default [] (asArray (getField message (js "content"))) in
      pushResumeUsageUpdate (foldl (replayBlock role) st content) message
  end.

(** One turn of the loop over the lines of the log. *)
Definition replayLine (st : ReplayState) (rawLine : jsstring) : ReplayState :=
  let line := trim rawLine in
  if bool_decide (length line = 0%nat) then st
  else
    match JSON_parse line with
    | None => st
    | Some parsed =>
        match asRecordOrNull (Some parsed) with
        | None => st
        | Some record => foldl replayMessage st (persistedMessageCandidates record)
        end
    end.

(** [extractSessionHistoryUpdatesFromJsonl(filePath)], over what
    [fs.readFileSync(filePath, "utf8")] gives: the text, or [None] when it
    throws. *)
Definition extractSessionHistoryUpdatesFromJsonl (fileText : option jsstring)
  : list SessionUpdate :=
  match fileText with
  | None => []
  | Some text => readUpdates (foldl replayLine initialReplayState (splitLines text))
  end.

End Replay.

(** ** The command envelope parser (commands.ts) *)

(** What a call throws: the [SyntaxError] of [JSON.parse], whose message is
    the runtime's, or an [Error] made by the parser with its message. *)
Inductive JsError : Type :=
  | SyntaxError
  | Error (message : jsstring).

(** A computation that returns or throws. *)
Inductive Throws (A : Type) : Type :=
  | Thrown (e : JsError)
  | Returned (a : A).

Arguments Thrown {A} e.
Arguments Returned {A} a.

#[global] Instance Throws_ret : MRet Throws := λ A a, Returned a.
#[global] Instance Throws_bind : MBind Throws := λ A B k m,
  match m with
  | Thrown e => Thrown e
  | Returned a => k a
  end.

Definition throw {A : Type} (message : jsstring) : Throws A :=
  Thrown (Error message).

Inductive PermissionOutcome : Type :=
  | Selected (option_id : jsstring)
  | Cancelled.

Record PromptChunk : Type := mkChunk {
  chunk_kind : jsstring;
  chunk_value : Json;
}.

(** [BridgeCommand]: one constructor per command tag, with the fields the
    parser puts in the returned object. *)
Inductive BridgeCommand : Type :=
  | Initialize (cwd : jsstring) (metadata : JsObject)
  | CreateSession (cwd : jsstring) (yolo : bool)
      (model resume : option jsstring) (metadata : JsObject)
  | LoadSession (session_id : jsstring) (metadata : JsObject)
  | NewSession (cwd : jsstring) (yolo : bool) (model : option jsstring)
  | Prompt (session_id : jsstring) (chunks : list PromptChunk)
  | CancelTurn (session_id : jsstring)
  | SetModel (session_id : jsstring) (model : jsstring)
  | SetMode (session_id : jsstring) (mode : jsstring)
  | PermissionResponse (session_id tool_call_id : jsstring)
      (outcome : PermissionOutcome)
  | Shutdown.

Definition asRecord (value : option Json) (context : jsstring) : Throws JsObject :=
  match value with
  | Some (JObj fields) => mret fields
  | _ => throw (context ++ js " must be an object")
  end.

Definition expectString (record : JsObject) (key context : jsstring)
  : Throws jsstring :=
  match getField record key with
  | Some (JStr value) => mret value
  | _ => throw (context ++ js "." ++ key ++ js " must be a string")
  end.

Definition expectBoolean (record : JsObject) (key context : jsstring)
  : Throws bool :=
  match getField record key with
  | Some (JBool value) => mret value
  | _ => throw (context ++ js "." ++ key ++ js " must be a boolean")
  end.

Definition optionalString (record : JsObject) (key context : jsstring)
  : Throws (option jsstring) :=
  match getField record key with
  | None | Some JNull => mret None
  | Some (JStr value) => mret (Some value)
  | Some _ =>
      throw (context ++ js "." ++ key ++ js " must be a string when provided")
  end.

Definition optionalMetadata (record : JsObject) (key : jsstring)
  : Throws JsObject :=
  match getField record key with
  | None | Some JNull => mret []
  | value => asRecord value (key ++ js " metadata")
  end.

(** The callback of [rawChunks.map] at [index]. *)
Definition parsePromptChunk (context : jsstring) (index : nat) (chunk : Json)
  : Throws PromptChunk :=
  let chunkContext :=
    context ++ js ".chunks[" ++ stringOfNat index ++ js "]" in
  parsed ← asRecord (Some chunk) chunkContext;
  kind ← expectString parsed (js "kind") chunkContext;
  mret {| chunk_kind := kind;
          chunk_value := default JNull (getField parsed (js "value")) |}.

(** [rawChunks.map(...)] from [index] on: the first throw ends the map. *)
Fixpoint parsePromptChunksFrom (context : jsstring) (index : nat)
    (rawChunks : list Json) : Throws (list PromptChunk) :=
  match rawChunks with
  | [] => mret []
  | chunk :: rest =>
      parsed ← parsePromptChunk context index chunk;
      others ← parsePromptChunksFrom context (S index) rest;
      mret (parsed :: others)
  end.

Definition parsePromptChunks (record : JsObject) (context : jsstring)
  : Throws (list PromptChunk) :=
  match getField record (js "chunks") with
  | Some (JArr rawChunks) => parsePromptChunksFrom context 0 rawChunks
  | _ => throw (context ++ js ".chunks must be an array")
  end.

(** The [switch] of [parseCommandEnvelope] on the command tag. *)
Definition parseCommand (raw : JsObject) (commandName : jsstring)
  : Throws BridgeCommand :=
  if bool_decide (commandName = js "initialize") then
    cwd ← expectString raw (js "cwd") (js "initialize");
    metadata ← optionalMetadata raw (js "metadata");
    mret (Initialize cwd metadata)
  else if bool_decide (commandName = js "create_session") then
    cwd ← expectString raw (js "cwd") (js "create_session");
    yolo ← expectBoolean raw (js "yolo") (js "create_session");
    model ← optionalString raw (js "model") (js "create_session");
    resume ← optionalString raw (js "resume") (js "create_session");
    metadata ← optionalMetadata raw (js "metadata");
    mret (CreateSession cwd yolo model resume metadata)
  else if bool_decide (commandName = js "load_session") then
    session_id ← expectString raw (js "session_id") (js "load_session");
    metadata ← optionalMetadata raw (js "metadata");
    mret (LoadSession session_id metadata)
  else if bool_decide (commandName = js "new_session") then
    cwd ← expectString raw (js "cwd") (js "new_session");
    yolo ← expectBoolean raw (js "yolo") (js "new_session");
    model ← optionalString raw (js "model") (js "new_session");
    mret (NewSession cwd yolo model)
  else if bool_decide (commandName = js "prompt") then
    session_id ← expectString raw (js "session_id") (js "prompt");
    chunks ← parsePromptChunks raw (js "prompt");
    mret (Prompt session_id chunks)
  else if bool_decide (commandName = js "cancel_turn") then
    session_id ← expectString raw (js "session_id") (js "cancel_turn");
    mret (CancelTurn session_id)
  else if bool_decide (commandName = js "set_model") then
    session_id ← expectString raw (js "session_id") (js "set_model");
    model ← expectString raw (js "model") (js "set_model");
    mret (SetModel session_id model)
  else if bool_decide (commandName = js "set_mode") then
    session_id ← expectString raw (js "session_id") (js "set_mode");
    mode ← expectString raw (js "mode") (js "set_mode");
    mret (SetMode session_id mode)
  else if bool_decide (commandName = js "permission_response") then
    outcome ← asRecord (getField raw (js "outcome"))
                       (js "permission_response.outcome");
    outcomeType ← expectString outcome (js "outcome")
                               (js "permission_response.outcome");
    parsedOutcome ←
      (if bool_decide (outcomeType = js "selected") then
         option_id ← expectString outcome (js "option_id")
                                  (js "permission_response.outcome");
         mret (Selected option_id)
       else if bool_decide (outcomeType = js "cancelled") then mret Cancelled
       else throw (js "permission_response.outcome.outcome must be 'selected' or 'cancelled'"));
    session_id ← expectString raw (js "session_id") (js "permission_response");
    tool_call_id ← expectString raw (js "tool_call_id") (js "permission_response");
    mret (PermissionResponse session_id tool_call_id parsedOutcome)
  else if bool_decide (commandName = js "shutdown") then mret Shutdown
  else throw (js "unsupported command: " ++ commandName).

Section Commands.
Context `{runtime : Runtime}.

(** [parseCommandEnvelope(line)]: the request id, when there is one, and the
    command; or what the call throws. *)
Definition parseCommandEnvelope (line : jsstring)
  : Throws (option jsstring * BridgeCommand) :=
  match JSON_parse line with
  | None => Thrown SyntaxError
  | Some parsed =>
      raw ← asRecord (Some parsed) (js "command envelope");
      let requestId := asString (getField raw (js "request_id")) in
      commandName ← expectString raw (js "command") (js "command envelope");
      command ← parseCommand raw commandName;
      mret (requestId, command)
  end.

End Commands.

(** ** Permissions (permissions.ts) *)

(** [PermissionRuleValue] of the agent SDK. *)
Record PermissionRuleValue : Type := mkRule {
  toolName : jsstring;
  ruleContent : option jsstring;
}.

(** [PermissionUpdate] of the agent SDK: a rule list ([addRules],
    [replaceRules], [removeRules]), a mode setting ([setMode]) or a directory
    list ([addDirectories], [removeDirectories]), each with a [destination],
    which the bridge reads as a string of any value. *)
Inductive PermissionUpdate : Type :=
  | RulesUpdate (type : jsstring) (rules : list PermissionRuleValue)
      (behavior : jsstring) (destination : jsstring)
  | ModeUpdate (mode : jsstring) (destination : jsstring)
  | DirectoriesUpdate (type : jsstring) (directories : list jsstring)
      (destination : jsstring).

(** [update.destination] *)
Definition destination (update : PermissionUpdate) : jsstring :=
  match update with
  | RulesUpdate _ _ _ d | ModeUpdate _ d | DirectoriesUpdate _ _ d => d
  end.

Record PermissionOption : Type := mkOption {
  option_id : jsstring;
  name : jsstring;
  kind : jsstring;
}.

(** [PermissionResult] of the agent SDK, as far as the bridge builds it. *)
Inductive PermissionResult : Type :=
  | Allow (updatedInput : JsObject)
      (updatedPermissions : option (list PermissionUpdate))
      (toolUseID : jsstring)
  | Deny (message : jsstring) (toolUseID : jsstring).

Record PermissionSuggestionsByScope : Type := mkScoped {
  session : list PermissionUpdate;
  persistent : list PermissionUpdate;
}.

Definition SESSION_PERMISSION_DESTINATIONS : list jsstring :=
  [js "session"; js "cliArg"].
Definition PERSISTENT_PERMISSION_DESTINATIONS : list jsstring :=
  [js "userSettings"; js "projectSettings"; js "localSettings"].

(** The loop of [splitPermissionSuggestionsByScope]. *)
Fixpoint splitLoop (session persistent suggestions : list PermissionUpdate)
  : PermissionSuggestionsByScope :=
  match suggestions with
  | [] => {| session := session; persistent := persistent |}
  | suggestion :: rest =>
      if bool_decide (destination suggestion ∈ SESSION_PERMISSION_DESTINATIONS)
      then splitLoop (session ++ [suggestion]) persistent rest
      else if bool_decide
                (destination suggestion ∈ PERSISTENT_PERMISSION_DESTINATIONS)
      then splitLoop session (persistent ++ [suggestion]) rest
      else splitLoop (session ++ [suggestion]) persistent rest
  end.

Definition splitPermissionSuggestionsByScope
    (suggestions : option (list PermissionUpdate))
  : PermissionSuggestionsByScope :=
  match suggestions with
  | None | Some [] => {| session := []; persistent := [] |}
  | Some suggestions => splitLoop [] [] suggestions
  end.

Definition permissionOptionsFromSuggestions
    (suggestions : option (list PermissionUpdate)) : list PermissionOption :=
  let scoped := splitPermissionSuggestionsByScope suggestions in
  let hasSessionScoped := bool_decide (0 < length (session scoped))%nat in
  let hasPersistentScoped := bool_decide (0 < length (persistent scoped))%nat in
  let sessionOnly := hasSessionScoped && negb hasPersistentScoped in
  let options :=
    [ {| option_id := js "allow_once"; name := js "Allow once";
         kind := js "allow_once" |} ] in
  let options :=
    options ++
    [ {| option_id := if sessionOnly then js "allow_session" else js "allow_always";
         name := if sessionOnly then js "Allow for session" else js "Always allow";
         kind := if sessionOnly then js "allow_session" else js "allow_always" |} ] in
  options ++
  [ {| option_id := js "reject_once"; name := js "Deny";
       kind := js "reject_once" |} ].

(** The rule that [allow_session] makes up for a tool without suggestions. *)
Definition sessionRuleFor (tool : jsstring) : PermissionUpdate :=
  RulesUpdate (js "addRules") [ {| toolName := tool; ruleContent := None |} ]
              (js "allow") (js "session").

(** [... && list.length > 0 ? { updatedPermissions: list } : {}] *)
Definition attachWhenNonEmpty (updates : option (list PermissionUpdate))
  : option (list PermissionUpdate) :=
  match updates with
  | Some (u :: us) => Some (u :: us)
  | _ => None
  end.

Definition permissionResultFromOutcome (outcome : PermissionOutcome)
    (toolCallId : jsstring) (inputData : JsObject)
    (suggestions : option (list PermissionUpdate))
    (toolName : option jsstring) : PermissionResult :=
  let scopedSuggestions := splitPermissionSuggestionsByScope suggestions in
  match outcome with
  | Selected option_id =>
      if bool_decide (option_id = js "allow_once") then
        Allow inputData None toolCallId
      else if bool_decide (option_id = js "allow_session") then
        let sessionSuggestions := session scopedSuggestions in
        let fallbackSuggestions :=
          if bool_decide (0 < length sessionSuggestions)%nat
          then Some sessionSuggestions
          else if truthy (JStr <$> toolName)
          then Some [sessionRuleFor (default [] toolName)]
          else None in
        Allow inputData (attachWhenNonEmpty fallbackSuggestions) toolCallId
      else if bool_decide (option_id = js "allow_always") then
        let suggestionsForAlways := persistent scopedSuggestions in
        Allow inputData (attachWhenNonEmpty (Some suggestionsForAlways)) toolCallId
      else Deny (js "Permission denied") toolCallId
  | Cancelled => Deny (js "Permission cancelled") toolCallId
  end.

(** ** A model of [JSON.parse] *)

(** The grammar of ECMA-404 over the code units of the text, as [JSON.parse]
    reads it; [None] is its [SyntaxError]. The properties below hold for any
    [Runtime]; this one evaluates them on concrete lines. A repeated key keeps
    its place and takes the later value. *)
Module JsonText.

Definition isSpace (c : N) : bool :=
  (c =? 32) || (c =? 9) || (c =? 10) || (c =? 13).

Fixpoint skipSpace (s : jsstring) : jsstring :=
  match s with
  | c :: rest => if isSpace c then skipSpace rest else s
  | [] => []
  end.

Definition isDigit (c : N) : bool := (48 <=? c) && (c <=? 57).

Definition hexDigit (c : N) : option N :=
  if isDigit c then Some (c - 48)
  else if (97 <=? c) && (c <=? 102) then Some (c - 87)
  else if (65 <=? c) && (c <=? 70) then Some (c - 55)
  else None.

(** The unit that a one-letter escape stands for. *)
Definition escaped (c : N) : option N :=
  if (c =? 34) || (c =? 92) || (c =? 47) then Some c
  else if c =? 98 then Some 8
  else if c =? 102 then Some 12
  else if c =? 110 then Some 10
  else if c =? 114 then Some 13
  else if c =? 116 then Some 9
  else None.

(** A string after its opening quote: its units, and the text after the
    closing quote. *)
Fixpoint stringBody (s : jsstring) : option (jsstring * jsstring) :=
  match s with
  | [] => None
  | c :: rest =>
      if c =? 34 then Some ([], rest)
      else if c <? 32 then None
      else if c =? 92 then
        match rest with
        | e :: rest1 =>
            if e =? 117 then
              match rest1 with
              | h1 :: h2 :: h3 :: h4 :: rest2 =>
                  a ← hexDigit h1; b ← hexDigit h2;
                  c ← hexDigit h3; d ← hexDigit h4;
                  '(units, after) ← stringBody rest2;
                  Some ((((a * 16 + b) * 16 + c) * 16 + d) :: units, after)
              | _ => None
              end
            else
              u ← escaped e;
              '(units, after) ← stringBody rest1;
              Some (u :: units, after)
        | [] => None
        end
      else
        '(units, after) ← stringBody rest;
        Some (c :: units, after)
  end.

Fixpoint spanDigits (s : jsstring) : jsstring * jsstring :=
  match s with
  | c :: rest =>
      if isDigit c
      then let '(digits, after) := spanDigits rest in (c :: digits, after)
      else ([], s)
  | [] => ([], [])
  end.

Definition digitsValue (digits : jsstring) : Z :=
  foldl (λ acc d, acc * 10 + Z.of_N (d - 48))%Z 0%Z digits.

(** The double nearest to [m * 10 ^ e10], ties to even, signed. *)
Definition decimalToDouble (negative : bool) (m e10 : Z) : float :=
  FloatOps.SF2Prim
    match m with
    | Zpos p =>
        if (0 <=? e10)%Z
        then SpecFloat.binary_round FloatOps.prec FloatOps.emax negative
               (p * Z.to_pos (10 ^ e10)) 0
        else
          let '(q, e, location) :=
            SpecFloat.SFdiv_core_binary FloatOps.prec FloatOps.emax
              (Zpos p) 0 (10 ^ (- e10)) 0 in
          SpecFloat.binary_round_aux FloatOps.prec FloatOps.emax negative
            q e location
    | _ => SpecFloat.S754_zero negative
    end.

(** An optional exponent part: its value and the text after it. *)
Definition exponentPart (s : jsstring) : option (Z * jsstring) :=
  match s with
  | c :: rest =>
      if (c =? 101) || (c =? 69) then
        let '(negative, rest) :=
          match rest with
          | sign :: rest' =>
              if sign =? 45 then (true, rest')
              else if sign =? 43 then (false, rest')
              else (false, rest)
          | [] => (false, rest)
          end in
        let '(digits, after) := spanDigits rest in
        if bool_decide (digits = []) then None
        else Some (if negative then (- digitsValue digits)%Z
                   else digitsValue digits, after)
      else Some (0%Z, s)
  | [] => Some (0%Z, s)
  end.

(** An optional fraction part: its digits and the text after it. *)
Definition fractionPart (s : jsstring) : option (jsstring * jsstring) :=
  match s with
  | c :: rest =>
      if c =? 46 then
        let '(digits, after) := spanDigits rest in
        if bool_decide (digits = []) then None else Some (digits, after)
      else Some ([], s)
  | [] => Some ([], s)
  end.

Definition number (s : jsstring) : option (float * jsstring) :=
  let '(negative, s) :=
    match s with
    | c :: rest => if c =? 45 then (true, rest) else (false, s)
    | [] => (false, s)
    end in
  match s with
  | c :: rest =>
      if isDigit c then
        let '(whole, afterWhole) :=
          if c =? 48 then ([c], rest) else spanDigits s in
        '(fraction, afterFraction) ← fractionPart afterWhole;
        '(exponent, after) ← exponentPart afterFraction;
        Some (decimalToDouble negative (digitsValue (whole ++ fraction))
                (exponent - Z.of_nat (length fraction)), after)
      else None
  | [] => None
  end.

(** [word] at the start of [s]: the text after it. *)
Fixpoint afterWord (word s : jsstring) : option jsstring :=
  match word, s with
  | [], _ => Some s
  | w :: word', c :: s' => if w =? c then afterWord word' s' else None
  | _ :: _, [] => None
  end.

(** [record[key] = value] while the object is built. *)
Fixpoint setField (record : JsObject) (key : jsstring) (value : Json) : JsObject :=
  match record with
  | [] => [(key, value)]
  | (k, v) :: rest =>
      if bool_decide (k = key) then (k, value) :: rest
      else (k, v) :: setField rest key value
  end.

(** A value, the elements of an array after its first bracket, the members
    of an object after its brace. [fuel] bounds the nesting and the number of
    elements; twice the length of the text is enough. *)
Fixpoint value (fuel : nat) (s : jsstring) : option (Json * jsstring) :=
  match fuel with
  | O => None
  | S fuel' =>
      match skipSpace s with
      | [] => None
      | c :: rest =>
          if c =? 34 then
            '(units, after) ← stringBody rest; Some (JStr units, after)
          else if c =? 91 then
            match skipSpace rest with
            | d :: after =>
                if d =? 93 then Some (JArr [], after)
                else elements fuel' [] rest
            | [] => None
            end
          else if c =? 123 then
            match skipSpace rest with
            | d :: after =>
                if d =? 125 then Some (JObj [], after)
                else members fuel' [] rest
            | [] => None
            end
          else
            match afterWord (js "null") (c :: rest),
                  afterWord (js "true") (c :: rest),
                  afterWord (js "false") (c :: rest) with
            | Some after, _, _ => Some (JNull, after)
            | _, Some after, _ => Some (JBool true, after)
            | _, _, Some after => Some (JBool false, after)
            | None, None, None =>
                '(x, after) ← number (c :: rest); Some (JNum x, after)
            end
      end
  end
with elements (fuel : nat) (done : list Json) (s : jsstring)
  : option (Json * jsstring) :=
  match fuel with
  | O => None
  | S fuel' =>
      '(item, after) ← value fuel' s;
      match skipSpace after with
      | c :: after' =>
          if c =? 44 then elements fuel' (done ++ [item]) after'
          else if c =? 93 then Some (JArr (done ++ [item]), after')
          else None
      | [] => None
      end
  end
with members (fuel : nat) (done : JsObject) (s : jsstring)
  : option (Json * jsstring) :=
  match fuel with
  | O => None
  | S fuel' =>
      match skipSpace s with
      | quote :: afterQuote =>
          if quote =? 34 then
            '(key, afterKey) ← stringBody afterQuote;
            match skipSpace afterKey with
            | colon :: afterColon =>
                if colon =? 58 then
                  '(item, after) ← value fuel' afterColon;
                  match skipSpace after with
                  | c :: after' =>
                      if c =? 44
                      then members fuel' (setField done key item) after'
                      else if c =? 125
                      then Some (JObj (setField done key item), after')
                      else None
                  | [] => None
                  end
                else None
            | [] => None
            end
          else None
      | [] => None
      end
  end.

(** [JSON.parse(text)] *)
Definition parse (text : jsstring) : option Json :=
  '(parsed, after) ← value (2 * length text + 2) text;
  if bool_decide (skipSpace after = []) then Some parsed else None.

End JsonText.

(** The runtime of the examples. *)
Definition jsonRuntime : Runtime := {| JSON_parse := JsonText.parse |}.

(** A JSON text written with single quotes where it has double quotes. *)
Definition jsonText (s : string) : jsstring :=
  (λ c, if c =? 39 then 34 else c) <$> js s.

(** ** Vocabulary of the specification *)

(** The two scopes of a suggestion as the specification words them: session
    scope is a destination [session] or [cliArg], or one that is not
    recognised; persistent scope is one of the three settings files. *)
Definition isPersistentScoped (u : PermissionUpdate) : bool :=
  bool_decide (destination u ∈
    [js "userSettings"; js "projectSettings"; js "localSettings"]).

Definition isSessionScoped (u : PermissionUpdate) : bool :=
  let named := bool_decide (destination u ∈ [js "session"; js "cliArg"]) in
  named || (negb named && negb (isPersistentScoped u)).

(** The three options of a permission prompt. *)
Definition allowOnceOption : PermissionOption :=
  {| option_id := js "allow_once"; name := js "Allow once"; kind := js "allow_once" |}.
Definition allowSessionOption : PermissionOption :=
  {| option_id := js "allow_session"; name := js "Allow for session";
     kind := js "allow_session" |}.
Definition allowAlwaysOption : PermissionOption :=
  {| option_id := js "allow_always"; name := js "Always allow";
     kind := js "allow_always" |}.
Definition denyOnceOption : PermissionOption :=
  {| option_id := js "reject_once"; name := js "Deny"; kind := js "reject_once" |}.

(** What the command table of the specification asks of a field. *)
Definition holdsString (record : JsObject) (key value : jsstring) : Prop :=
  getField record key = Some (JStr value).

Definition holdsBoolean (record : JsObject) (key : jsstring) (value : bool) : Prop :=
  getField record key = Some (JBool value).

Definition isAbsent (record : JsObject) (key : jsstring) : Prop :=
  getField record key = None ∨ getField record key = Some JNull.

Definition holdsOptionalString (record : JsObject) (key : jsstring)
    (value : option jsstring) : Prop :=
  match value with
  | Some s => holdsString record key s
  | None => isAbsent record key
  end.

Definition holdsMetadata (record metadata : JsObject) : Prop :=
  getField record (js "metadata") = Some (JObj metadata)
  ∨ (isAbsent record (js "metadata") ∧ metadata = []).

Definition holdsChunk (item : Json) (chunk : PromptChunk) : Prop :=
  ∃ fields, item = JObj fields
    ∧ holdsString fields (js "kind") (chunk_kind chunk)
    ∧ chunk_value chunk = default JNull (getField fields (js "value")).

Definition holdsChunks (record : JsObject) (chunks : list PromptChunk) : Prop :=
  ∃ items, getField record (js "chunks") = Some (JArr items)
    ∧ Forall2 holdsChunk items chunks.

Definition holdsOutcome (record : JsObject) (outcome : PermissionOutcome) : Prop :=
  ∃ fields, getField record (js "outcome") = Some (JObj fields)
    ∧ match outcome with
      | Selected id =>
          holdsString fields (js "outcome") (js "selected")
          ∧ holdsString fields (js "option_id") id
      | Cancelled => holdsString fields (js "outcome") (js "cancelled")
      end.

(** The ten command tags. *)
Definition commandTags : list jsstring :=
  [js "initialize"; js "create_session"; js "load_session"; js "new_session";
   js "prompt"; js "cancel_turn"; js "set_model"; js "set_mode";
   js "permission_response"; js "shutdown"].

(** A command is fully populated from the envelope [raw]: the tag is the
    envelope's, every required field is there with its type, every optional
    field has its type when it is there. One line per row of the table. *)
Definition Populated (raw : JsObject) (command : BridgeCommand) : Prop :=
  match command with
  | Initialize cwd metadata =>
      holdsString raw (js "command") (js "initialize")
      ∧ holdsString raw (js "cwd") cwd ∧ holdsMetadata raw metadata
  | CreateSession cwd yolo model resume metadata =>
      holdsString raw (js "command") (js "create_session")
      ∧ holdsString raw (js "cwd") cwd ∧ holdsBoolean raw (js "yolo") yolo
      ∧ holdsOptionalString raw (js "model") model
      ∧ holdsOptionalString raw (js "resume") resume
      ∧ holdsMetadata raw metadata
  | LoadSession session_id metadata =>
      holdsString raw (js "command") (js "load_session")
      ∧ holdsString raw (js "session_id") session_id
      ∧ holdsMetadata raw metadata
  | NewSession cwd yolo model =>
      holdsString raw (js "command") (js "new_session")
      ∧ holdsString raw (js "cwd") cwd ∧ holdsBoolean raw (js "yolo") yolo
      ∧ holdsOptionalString raw (js "model") model
  | Prompt session_id chunks =>
      holdsString raw (js "command") (js "prompt")
      ∧ holdsString raw (js "session_id") session_id
      ∧ holdsChunks raw chunks
  | CancelTurn session_id =>
      holdsString raw (js "command") (js "cancel_turn")
      ∧ holdsString raw (js "session_id") session_id
  | SetModel session_id model =>
      holdsString raw (js "command") (js "set_model")
      ∧ holdsString raw (js "session_id") session_id
      ∧ holdsString raw (js "model") model
  | SetMode session_id mode =>
      holdsString raw (js "command") (js "set_mode")
      ∧ holdsString raw (js "session_id") session_id
      ∧ holdsString raw (js "mode") mode
  | PermissionResponse session_id tool_call_id outcome =>
      holdsString raw (js "command") (js "permission_response")
      ∧ holdsString raw (js "session_id") session_id
      ∧ holdsString raw (js "tool_call_id") tool_call_id
      ∧ holdsOutcome raw outcome
  | Shutdown => holdsString raw (js "command") (js "shutdown")
  end.

(** What a validation error says of the value it names. *)
Definition expectations : list jsstring :=
  [js "an object"; js "a string"; js "a boolean"; js "a string when provided";
   js "an array"; js "'selected' or 'cancelled'"].

(** The message names an offending path: ["<path> must be <expectation>"]. *)
Definition NamesFieldPath (message : jsstring) : Prop :=
  ∃ path expectation,
    path ≠ [] ∧ expectation ∈ expectations
    ∧ message = path ++ js " must be " ++ expectation.

(** All-or-nothing as the claim words it: the call returns a populated
    command, or it fails with an error that names a path or an unsupported
    command. *)
Definition ReturnsOrNamesPath `{runtime : Runtime} (line : jsstring) : Prop :=
  match parseCommandEnvelope line with
  | Returned (_, command) =>
      ∃ raw, JSON_parse line = Some (JObj raw) ∧ Populated raw command
  | Thrown SyntaxError => False
  | Thrown (Error message) =>
      NamesFieldPath message
      ∨ (∃ commandName, message = (js "unsupported command: " ++ commandName))
  end.

(** Result messages processed one after the other against one session
    context: the context after the last call, and what each call returned. *)
Fixpoint resultsForSession (session : option UsageSessionContext)
    (messages : list JsObject)
  : option UsageSessionContext * list (option SessionUpdate) :=
  match messages with
  | [] => (session, [])
  | message :: rest =>
      let '(session1, update) :=
        buildUsageUpdateFromResultForSession session message in
      let '(session2, updates) := resultsForSession session1 rest in
      (session2, update :: updates)
  end.

(** The total cost that a result message carries. *)
Definition totalCostOf (message : JsObject) : option float :=
  numberField message [js "total_cost_usd"; js "totalCostUsd"].

(** The [turn_cost_usd] of a returned update. *)
Definition turnCostOf (update : option SessionUpdate) : option float :=
  match update with
  | Some (usage_update usage) => turn_cost_usd usage
  | _ => None
  end.

(** The deltas as the specification words them: the first observed total
    itself, then [max(0, newTotal - lastObservedTotal)], the last observed
    total being replaced by the new one each time. *)
Fixpoint expectedDeltas (lastObserved : option float) (totals : list float)
  : list float :=
  match totals with
  | [] => []
  | newTotal :: rest =>
      match lastObserved with
      | None => newTotal
      | Some lastTotal => Math_max [0%float; (newTotal - lastTotal)%float]
      end :: expectedDeltas (Some newTotal) rest
  end.

(** A result message that carries [total] and nothing else. *)
Definition totalMessage (total : float) : JsObject :=
  [(js "total_cost_usd", JNum total)].

(** A session context before its first result. *)
Definition newSession : UsageSessionContext :=
  {| model := None; lastTotalCostUsd := None |}.

Section ReplayVocabulary.
Context `{tooling : Tooling} `{runtime : Runtime}.

(** The line is neither blank nor malformed: trimmed, it is not empty and it
    parses to an object that is no array. *)
Definition isRecordLine (rawLine : jsstring) : bool :=
  negb (bool_decide (trim rawLine = []))
  && match JSON_parse (trim rawLine) with
     | Some (JObj _) => true
     | _ => false
     end.

(** The log with every blank and every malformed line removed. *)
Definition withoutSkippedLines (text : jsstring) : jsstring :=
  join [10] (List.filter isRecordLine (splitLines text)).

(** The message candidates of a line, none for a line that is skipped. *)
Definition candidatesOfLine (rawLine : jsstring) : list JsObject :=
  if isRecordLine rawLine then
    match JSON_parse (trim rawLine) with
    | Some (JObj record) => persistedMessageCandidates record
    | _ => []
    end
  else [].

(** The message candidates of a log in the order the replay meets them. *)
Definition messagesOfLog (text : jsstring) : list JsObject :=
  mjoin (candidatesOfLine <$> splitLines text).

(** The updates that a step from [st] to [st'] pushed. *)
Definition pushedBetween (st st' : ReplayState) : list (SessionUpdateOf nat) :=
  drop (length (updates st)) (updates st').

Definition isUsageUpdate {T : Type} (u : SessionUpdateOf T) : bool :=
  match u with usage_update _ => true | _ => false end.

(** The number of [usage_update]s among the updates. *)
Definition usageCount {T : Type} (us : list (SessionUpdateOf T)) : nat :=
  length (List.filter isUsageUpdate us).

(** The number of [usage_update]s that the replay of [messages] from [st]
    pushes while it is at a message whose [id] is the string [id]: the usage
    updates attributed to that identifier. *)
Fixpoint usageUpdatesFor (id : jsstring) (st : ReplayState)
    (messages : list JsObject) : nat :=
  match messages with
  | [] => 0
  | message :: rest =>
      let st' := replayMessage st message in
      ((if bool_decide (asString (getField message (js "id")) = Some id)
        then usageCount (pushedBetween st st') else 0)
       + usageUpdatesFor id st' rest)%nat
  end.

(** The states that a replay goes through: the initial one, and from a
    state, the one after a block and the one after the usage of a message. *)
Inductive Reachable : ReplayState → Prop :=
  | reach_initial : Reachable initialReplayState
  | reach_block (role : Role) (st : ReplayState) (item : Json) :
      Reachable st → Reachable (replayBlock role st item)
  | reach_usage (st : ReplayState) (message : JsObject) :
      Reachable st → Reachable (pushResumeUsageUpdate st message).

(** Every entry of the lookup table is the address of an object. *)
Definition AddressesValid (st : ReplayState) : Prop :=
  ∀ id address, toolCalls st !! id = Some address →
                (address < length (objects st))%nat.

End ReplayVocabulary.

(** ** Examples *)

(** Modelled from the spec: an instance of the imports from [tooling.js] for
    the examples. The specification names the four statuses of a tool call and
    speaks of tool-use and tool-result blocks; the block types [tool_use] and
    [tool_result] and the shape of the result fields are this instance's. A
    created call is pending; a result is an error or completed and carries the
    block's content as its raw output. *)
Definition exampleTooling : Tooling :=
  {| createToolCall id name input :=
       {| tc_id := id; tc_name := name; tc_input := input;
          tc_status := js "pending"; tc_raw_output := None; tc_content := None |};
     buildToolResultFields isError content base :=
       {| f_status := Some (if isError then js "error" else js "completed");
          f_raw_output := content; f_content := None |};
     isToolUseBlockType blockType := bool_decide (blockType = js "tool_use");
     TOOL_RESULT_TYPES := {[ js "tool_result" ]} |}.

(** A user message with the blocks [content] and the usage of one input
    token, as one line of a log. *)
Definition exampleLine (id content : string) : string :=
  ("{'message':{'role':'user','id':'" ++ id ++ "','content':[" ++ content
   ++ "],'usage':{'input_tokens':1}}}")%string.

(** The text of the title example: 179 letters, a code point of two units,
    and a letter more. *)
Definition longText : jsstring := replicate 179 97 ++ [55357; 56832; 98].

Definition longTitle : jsstring := replicate 179 97 ++ [55357; 56832].

Definition longRecord : JsObject :=
  [ (js "type", JStr (js "user"));
    (js "message",
     JObj [ (js "role", JStr (js "user"));
            (js "content",
             JArr [ JObj [ (js "type", JStr (js "text"));
                           (js "text", JStr longText) ] ]) ]) ].

(** A log of five lines: a message, a line that is no JSON, a blank line, a
    line that is an array, and a message with the identifier of the first. *)
Definition exampleLog : jsstring :=
  jsonText (exampleLine "m1" "{'type':'text','text':'hello'}") ++ [13; 10]
  ++ js "not json" ++ [10]
  ++ js "  " ++ [10]
  ++ js "[1,2]" ++ [10]
  ++ jsonText (exampleLine "m1" "{'type':'text','text':'again'}").

(** Two messages whose identifier is the empty string. *)
Definition emptyIdLog : jsstring :=
  jsonText (exampleLine "" "") ++ [10] ++ jsonText (exampleLine "" "").

(** A tool-result block without a [tool_use_id], in a message of its own. *)
Definition unreferencedResultLog : jsstring :=
  jsonText "{'message':{'role':'user','content':[{'type':'tool_result','content':'done'}]}}".

(** A tool-result block for a call that the log never opened. *)
Definition orphanResultBlock : JsObject :=
  [ (js "type", JStr (js "tool_result"));
    (js "tool_use_id", JStr (js "t9"));
    (js "content", JStr (js "done")) ].

(** A tool call and its result, in two messages. *)
Definition toolLog : jsstring :=
  jsonText "{'message':{'role':'assistant','content':[{'type':'tool_use','id':'t1','name':'Read','input':{}}]}}"
  ++ [10]
  ++ jsonText "{'message':{'role':'user','content':[{'type':'tool_result','tool_use_id':'t1','content':'done'}]}}".

(** The usage of one input token. *)
Definition oneInputToken : UsageFields :=
  {| input_tokens := Some 1%float; output_tokens := None;
     cache_read_tokens := None; cache_write_tokens := None;
     total_cost_usd := None; turn_cost_usd := None;
     context_window := None; max_output_tokens := None |}.

(** ** Vocabulary of the proofs *)

(** A validation step either returns a value that [ok] accepts or throws an
    error that names a path. *)
Definition Checked {A : Type} (m : Throws A) (ok : A → Prop) : Prop :=
  match m with
  | Returned a => ok a
  | Thrown e => ∃ message, e = Error message ∧ NamesFieldPath message
  end.

(** The next element starts with a low surrogate. *)
Definition startsLow (chunks : list jsstring) : bool :=
  match chunks with
  | (d :: _) :: _ => isLowSurrogate d
  | _ => false
  end.

(** The elements are code points of their concatenation: surrogate pairs,
    and single units that pair with nothing after them. *)
Fixpoint codePoints (chunks : list jsstring) : bool :=
  match chunks with
  | [] => true
  | chunk :: rest =>
      match chunk with
      | [c] => negb (isHighSurrogate c && startsLow rest)
      | [c; d] => isHighSurrogate c && isLowSurrogate d
      | _ => false
      end && codePoints rest
  end.

(** [line] without one carriage return at its end. *)
Fixpoint dropCarriageReturn (line : jsstring) : jsstring :=
  match line with
  | [] => []
  | c :: rest =>
      match rest with
      | [] => if c =? 13 then [] else [c]
      | _ :: _ => c :: dropCarriageReturn rest
      end
  end.

(** A step that pushes no [usage_update] and leaves the set of seen
    identifiers as it is. *)
Definition Quiet (st st' : ReplayState) : Prop :=
  ∃ pushed,
    updates st' = updates st ++ pushed
    ∧ usageCount pushed = 0%nat
    ∧ emittedUsageMessageIds st' = emittedUsageMessageIds st.

(** The identifier of a message as [pushResumeUsageUpdate] reads it. *)
Definition messageIdOf (message : JsObject) : jsstring :=
  default [] (asString (getField message (js "id"))).

(** * More of the bridge *)

(** ** Permission modes (commands.ts) *)

(** [PermissionMode] of the agent SDK: five strings. *)
Inductive PermissionMode : Type :=
  | ModeDefault | ModeAcceptEdits | ModeBypassPermissions | ModePlan | ModeDontAsk.

(** The string that a mode is. *)
Definition modeString (mode : PermissionMode) : jsstring :=
  match mode with
  | ModeDefault => js "default"
  | ModeAcceptEdits => js "acceptEdits"
  | ModeBypassPermissions => js "bypassPermissions"
  | ModePlan => js "plan"
  | ModeDontAsk => js "dontAsk"
  end.

Definition MODE_NAMES (mode : PermissionMode) : jsstring :=
  match mode with
  | ModeDefault => js "Default"
  | ModeAcceptEdits => js "Accept Edits"
  | ModeBypassPermissions => js "Bypass Permissions"
  | ModePlan => js "Plan"
  | ModeDontAsk => js "Don't Ask"
  end.

Record ModeInfo : Type := mkModeInfo {
  mode_id : jsstring;
  mode_name : jsstring;
  mode_description : jsstring;
}.

Definition MODE_OPTIONS : list ModeInfo :=
  [ mkModeInfo (js "default") (js "Default") (js "Standard permission flow");
    mkModeInfo (js "acceptEdits") (js "Accept Edits")
      (js "Auto-approve edit operations");
    mkModeInfo (js "plan") (js "Plan") (js "No tool execution");
    mkModeInfo (js "dontAsk") (js "Don't Ask") (js "Reject non-approved tools");
    mkModeInfo (js "bypassPermissions") (js "Bypass Permissions")
      (js "Auto-approve all tools") ].

Definition toPermissionMode (mode : jsstring) : option PermissionMode :=
  if bool_decide (mode = js "default") then Some ModeDefault
  else if bool_decide (mode = js "acceptEdits") then Some ModeAcceptEdits
  else if bool_decide (mode = js "bypassPermissions") then Some ModeBypassPermissions
  else if bool_decide (mode = js "plan") then Some ModePlan
  else if bool_decide (mode = js "dontAsk") then Some ModeDontAsk
  else None.

Record ModeState : Type := mkModeState {
  current_mode_id : jsstring;
  current_mode_name : jsstring;
  available_modes : list ModeInfo;
}.

Definition buildModeState (mode : PermissionMode) : ModeState :=
  {| current_mode_id := modeString mode;
     current_mode_name := MODE_NAMES mode;
     available_modes := MODE_OPTIONS |}.

(** ** Rendering permission updates (permissions.ts) *)

Definition formatPermissionRule (rule : PermissionRuleValue) : jsstring :=
  match ruleContent rule with
  | None => toolName rule
  | Some content => toolName rule ++ js "(" ++ content ++ js ")"
  end.

(** The callback of [updates.map]. The source takes its branch by
    [update.type]; in a value of the SDK's union the type says which fields
    there are, which is what the constructor records. *)
Definition formatPermissionUpdate (update : PermissionUpdate) : jsstring :=
  match update with
  | RulesUpdate type rules behavior destination =>
      type ++ js ":" ++ behavior ++ js ":" ++ destination ++ js "=["
      ++ join (js ", ") (formatPermissionRule <$> rules) ++ js "]"
  | ModeUpdate mode destination =>
      js "setMode" ++ js ":" ++ mode ++ js ":" ++ destination
  | DirectoriesUpdate type directories destination =>
      type ++ js ":" ++ destination ++ js "=["
      ++ join (js ", ") directories ++ js "]"
  end.

Definition formatPermissionUpdates (updates : option (list PermissionUpdate))
  : jsstring :=
  match updates with
  | None | Some [] => js "<none>"
  | Some updates => join (js " | ") (formatPermissionUpdate <$> updates)
  end.

(** ** Session previews and the session index (history.ts) *)

(** [if (value)] for an optional string. *)
Definition truthyString (value : option jsstring) : bool :=
  match value with
  | Some (_ :: _) => true
  | _ => false
  end.

(** What [extractSessionPreviewFromJsonl] returns: an object with the keys it
    found. *)
Record SessionPreview : Type := mkPreview {
  preview_cwd : option jsstring;
  preview_title : option jsstring;
}.

(** [str.includes(needle)] *)
Fixpoint includes (s needle : jsstring) : bool :=
  match s with
  | [] => bool_decide (needle = [])
  | _ :: rest => bool_decide (needle `prefix_of` s) || includes rest needle
  end.

(** [name.endsWith(suffix)] *)
Definition endsWith (s suffix : jsstring) : bool :=
  bool_decide (suffix `suffix_of` s).

Record PersistedSessionEntry : Type := mkEntry {
  session_id : jsstring;
  cwd : jsstring;
  file_path : jsstring;
  title : option jsstring;
  updated_at : option jsstring;
  sort_ms : float;
}.

(** [fs.Dirent] as the index reads it. *)
Record Dirent : Type := mkDirent {
  dirent_name : jsstring;
  isDirectory : bool;
  isFile : bool;
}.

(** The file system, the paths and the clock of the runtime, as one call of
    the index sees them. [None] is a call that throws. The modification times
    of a file system are time values that [Date] can render. *)
Class FileSystem : Type := {
  homedir : jsstring;
  path_join : list jsstring → jsstring;
  existsSync : jsstring → bool;
  readdirSync : jsstring → option (list Dirent);
  statSync_mtimeMs : jsstring → option float;
  readFileSync : jsstring → option jsstring;
  toISOString : float → jsstring;
}.

Section Preview.
Context `{runtime : Runtime}.

(** The loop of [extractSessionPreviewFromJsonl] from the [cwd] and [title]
    found so far; it ends with the lines or at the [break]. *)
Fixpoint previewLoop (cwd title : option jsstring) (lines : list jsstring)
  : option jsstring * option jsstring :=
  match lines with
  | [] => (cwd, title)
  | rawLine :: rest =>
      let line := trim rawLine in
      if bool_decide (length line = 0%nat) then previewLoop cwd title rest
      else
        match JSON_parse line with
        | None => previewLoop cwd title rest
        | Some parsed =>
            match asRecordOrNull (Some parsed) with
            | None => previewLoop cwd title rest
            | Some record =>
                let cwd' :=
                  if truthyString cwd then cwd
                  else
                    match asString (getField record (js "cwd")) with
                    | Some value =>
                        if bool_decide (0 < length (trim value))%nat
                        then Some value else cwd
                    | None => cwd
                    end in
                let title' :=
                  if truthyString title then title
                  else firstUserMessageTitleFromRecord record in
                if truthyString cwd' && truthyString title' then (cwd', title')
                else previewLoop cwd' title' rest
            end
        end
  end.

(** [extractSessionPreviewFromJsonl(filePath)], over what
    [fs.readFileSync(filePath, "utf8")] gives. *)
Definition extractSessionPreviewFromJsonl (fileText : option jsstring)
  : SessionPreview :=
  match fileText with
  | None => {| preview_cwd := None; preview_title := None |}
  | Some text =>
      let '(cwd, title) := previewLoop None None (splitLines text) in
      {| preview_cwd := if truthyString cwd then cwd else None;
         preview_title := if truthyString title then title else None |}
  end.

End Preview.

Section Index.
Context `{runtime : Runtime} `{fs : FileSystem}.

(** [path.join(os.homedir(), ".claude", "projects")] *)
Definition projectsRoot : jsstring :=
  path_join [homedir; js ".claude"; js "projects"].

(** The body of the loop over the session files of one project directory. *)
Definition candidateOfFile (projectDir : jsstring) (sessionFile : Dirent)
  : option PersistedSessionEntry :=
  let sessionId :=
    take (length (dirent_name sessionFile) - length (js ".jsonl"))
         (dirent_name sessionFile) in
  if bool_decide (sessionId = []) then None
  else
    match statSync_mtimeMs (path_join [projectDir; dirent_name sessionFile]) with
    | None => None
    | Some mtimeMs =>
        if negb (is_finite mtimeMs) || (mtimeMs <=? 0)%float then None
        else
          Some {| session_id := sessionId;
                  cwd := [];
                  file_path := path_join [projectDir; dirent_name sessionFile];
                  title := None;
                  updated_at := Some (toISOString mtimeMs);
                  sort_ms := mtimeMs |}
    end.

(** The body of the loop over the project directories. *)
Definition candidatesOfProject (root : jsstring) (dirent : Dirent)
  : list PersistedSessionEntry :=
  let projectDir := path_join [root; dirent_name dirent] in
  let sessionFiles :=
    match readdirSync projectDir with
    | Some entries =>
        List.filter (λ entry, isFile entry
                              && endsWith (dirent_name entry) (js ".jsonl"))
                    entries
    | None => []
    end in
  omap (candidateOfFile projectDir) sessionFiles.

(** [candidates.sort((a, b) => b.sort_ms - a.sort_ms)]: the sort is stable,
    and between finite times the difference is negative, zero or positive as
    the times compare. [a] goes before the first candidate that is not newer. *)
Fixpoint insertByTime (a : PersistedSessionEntry)
    (sorted : list PersistedSessionEntry) : list PersistedSessionEntry :=
  match sorted with
  | [] => [a]
  | b :: rest =>
      if (sort_ms b <=? sort_ms a)%float then a :: sorted
      else b :: insertByTime a rest
  end.

Definition sortByTime (candidates : list PersistedSessionEntry)
  : list PersistedSessionEntry :=
  foldr insertByTime [] candidates.

(** What the second loop of [listRecentPersistedSessions] pushes for a
    candidate: nothing when the preview of its file has no [cwd] or a blank
    one. *)
Definition entryOfCandidate (candidate : PersistedSessionEntry)
  : option PersistedSessionEntry :=
  let preview :=
    extractSessionPreviewFromJsonl (readFileSync (file_path candidate)) in
  let cwd := trim <$> preview_cwd preview in
  match cwd with
  | Some (c :: cwd') =>
      Some {| session_id := session_id candidate;
              cwd := c :: cwd';
              file_path := file_path candidate;
              title := if truthyString (preview_title preview)
                       then preview_title preview else None;
              updated_at := if truthyString (updated_at candidate)
                            then updated_at candidate else None;
              sort_ms := sort_ms candidate |}
  | _ => None
  end.

(** The second loop of [listRecentPersistedSessions], from the [seen] set
    and the [deduped] entries so far. The [limit] is a whole number. *)
Fixpoint dedupeLoop (limit : Z) (seen : gset jsstring)
    (deduped candidates : list PersistedSessionEntry)
  : list PersistedSessionEntry :=
  match candidates with
  | [] => deduped
  | candidate :: rest =>
      if bool_decide (session_id candidate ∈ seen)
      then dedupeLoop limit seen deduped rest
      else
        let seen' := {[session_id candidate]} ∪ seen in
        match entryOfCandidate candidate with
        | Some entry =>
            let deduped' := deduped ++ [entry] in
            if bool_decide (limit ≤ Z.of_nat (length deduped'))%Z then deduped'
            else dedupeLoop limit seen' deduped' rest
        | None => dedupeLoop limit seen' deduped rest
        end
  end.

(** The candidates of the whole tree, in the order of the scan; [None] where
    the function returns [[]] before it. *)
Definition scanCandidates : option (list PersistedSessionEntry) :=
  let root := projectsRoot in
  if negb (existsSync root) then None
  else
    match readdirSync root with
    | None => None
    | Some dirents =>
        let projectDirs := List.filter isDirectory dirents in
        Some (mjoin (candidatesOfProject root <$> projectDirs))
    end.

(** [listRecentPersistedSessions(limit = 8)]: [None] is a call without the
    argument. *)
Definition listRecentPersistedSessions (limit : option Z)
  : list PersistedSessionEntry :=
  let limit := default 8%Z limit in
  match scanCandidates with
  | None => []
  | Some candidates => dedupeLoop limit ∅ [] (sortByTime candidates)
  end.

(** The loop of [resolvePersistedSessionEntry] from the [best] so far. *)
Fixpoint resolveLoop (root sessionId : jsstring)
    (best : option PersistedSessionEntry) (projectDirs : list Dirent)
  : option PersistedSessionEntry :=
  match projectDirs with
  | [] => best
  | dirent :: rest =>
      let filePath :=
        path_join [root; dirent_name dirent; sessionId ++ js ".jsonl"] in
      if negb (existsSync filePath) then resolveLoop root sessionId best rest
      else
        let preview := extractSessionPreviewFromJsonl (readFileSync filePath) in
        match trim <$> preview_cwd preview with
        | Some (c :: cwd') =>
            let mtimeMs := default 0%float (statSync_mtimeMs filePath) in
            let replace :=
              match best with
              | None => true
              | Some found => (sort_ms found <=? mtimeMs)%float
              end in
            resolveLoop root sessionId
              (if replace
               then Some {| session_id := sessionId; cwd := c :: cwd';
                            file_path := filePath; title := None;
                            updated_at := None; sort_ms := mtimeMs |}
               else best)
              rest
        | _ => resolveLoop root sessionId best rest
        end
  end.

Definition resolvePersistedSessionEntry (sessionId : jsstring)
  : option PersistedSessionEntry :=
  if bool_decide (length (trim sessionId) = 0%nat)
     || includes sessionId (js "/")
     || includes sessionId [92]
     || includes sessionId (js "..")
  then None
  else
    let root := projectsRoot in
    if negb (existsSync root) then None
    else
      match readdirSync root with
      | None => None
      | Some dirents => resolveLoop root sessionId None (List.filter isDirectory dirents)
      end.

End Index.

(** ** Vocabulary and examples of the further properties *)

(** No finite number under [key]. *)
Definition noNumberAt (record : JsObject) (key : jsstring) : Prop :=
  ∀ x, getField record key = Some (JNum x) → is_finite x = false.

(** No string after the first is smaller than one before it. *)
Definition Ascending (l : list jsstring) : Prop :=
  ∀ before k after, l = before ++ k :: after →
                    Forall (λ later, jsstring_ltb later k = false) after.

(** The usage records of two models. *)
Definition twoModelUsage : JsObject :=
  [ (js "b", JObj [(js "contextWindow", JNum 2%float)]);
    (js "a", JObj [(js "contextWindow", JNum 1%float)]) ].

(** A result message for the model [b] with the records of two models. *)
Definition twoModelMessage : JsObject :=
  [ (js "model", JStr (js "b")); (js "modelUsage", JObj twoModelUsage) ].

(** A result message whose model is the string [__proto__], with the record
    of one model. *)
Definition inheritedModelMessage : JsObject :=
  [ (js "model", JStr (js "__proto__"));
    (js "modelUsage",
     JObj [(js "a", JObj [(js "contextWindow", JNum 5%float)])]) ].

(** A session that has seen a total of five cents. *)
Definition fiveCentSession : UsageSessionContext :=
  {| model := None; lastTotalCostUsd := Some 0.05%float |}.

(** A result message with a total of two cents. *)
Definition twoCentMessage : JsObject := [ (js "total_cost_usd", JNum 0.02%float) ].

(** The [cwd] of a record when it is a string that is not blank. *)
Definition usableCwd (record : JsObject) : option jsstring :=
  match asString (getField record (js "cwd")) with
  | Some value => if bool_decide (trim value = []) then None else Some value
  | None => None
  end.

Section PreviewVocabulary.
Context `{runtime : Runtime}.

(** The record of a line, none for a line that is blank or malformed. *)
Definition recordOfLine (rawLine : jsstring) : option JsObject :=
  if isRecordLine rawLine then asRecordOrNull (JSON_parse (trim rawLine))
  else None.

(** The records of a log, in the order of its lines. *)
Definition recordsOfLog (text : jsstring) : list JsObject :=
  omap recordOfLine (splitLines text).

End PreviewVocabulary.

(** The candidates without those whose session id an earlier one has. *)
Fixpoint firstOfEachId (candidates : list PersistedSessionEntry)
  : list PersistedSessionEntry :=
  match candidates with
  | [] => []
  | candidate :: rest =>
      candidate
      :: filter (λ other, session_id other ≠ session_id candidate)
                (firstOfEachId rest)
  end.

(** [later] is not newer than [earlier]. *)
Definition notNewer (earlier later : PersistedSessionEntry) : Prop :=
  (sort_ms later <=? sort_ms earlier)%float = true.

(** [max(1, limit)] as a count. *)
Definition atLeastOne (limit : Z) : nat := Z.to_nat (Z.max 1 limit).

Section IndexVocabulary.
Context `{fs : FileSystem}.

(** The entry is of a session file that the scan of the projects root meets:
    a file named by the session id in a directory of the root, with its
    modification time. *)
Definition IsSessionFile (entry : PersistedSessionEntry) : Prop :=
  ∃ dirents dirent files file,
    readdirSync projectsRoot = Some dirents
    ∧ dirent ∈ dirents ∧ isDirectory dirent = true
    ∧ readdirSync (path_join [projectsRoot; dirent_name dirent]) = Some files
    ∧ file ∈ files ∧ isFile file = true
    ∧ dirent_name file = session_id entry ++ js ".jsonl"
    ∧ file_path entry
      = path_join [path_join [projectsRoot; dirent_name dirent]; dirent_name file]
    ∧ statSync_mtimeMs (file_path entry) = Some (sort_ms entry).

End IndexVocabulary.

Section ResolveVocabulary.
Context `{runtime : Runtime} `{fs : FileSystem}.

(** What [resolvePersistedSessionEntry] finds for [sessionId] in one
    directory of the projects root: nothing when the session file is not
    there or its preview has no usable [cwd]. *)
Definition resolvedIn (sessionId : jsstring) (dirent : Dirent)
  : option PersistedSessionEntry :=
  let filePath :=
    path_join [projectsRoot; dirent_name dirent; sessionId ++ js ".jsonl"] in
  if existsSync filePath then
    match trim <$> preview_cwd
                     (extractSessionPreviewFromJsonl (readFileSync filePath)) with
    | Some (c :: cwd') =>
        Some {| session_id := sessionId; cwd := c :: cwd';
                file_path := filePath; title := None; updated_at := None;
                sort_ms := default 0%float (statSync_mtimeMs filePath) |}
    | _ => None
    end
  else None.

(** The better of the best so far and what was found: what was found,
    unless the best so far is newer. *)
Definition laterOf (best : option PersistedSessionEntry)
    (found : PersistedSessionEntry) : option PersistedSessionEntry :=
  match best with
  | None => Some found
  | Some entry =>
      if (sort_ms entry <=? sort_ms found)%float then Some found else best
  end.

End ResolveVocabulary.

(** [needle] occurs in [s]. *)
Definition occursIn (needle s : jsstring) : Prop :=
  ∃ before after, s = before ++ needle ++ after.

(** ** A file system for the examples *)

(** Three project directories and a file under the projects root. The
    session [s1] has one file; the session [s2] has a file in each project,
    and the newest of the three has no [cwd]. *)
Definition exampleFiles : FileSystem :=
  {| homedir := js "/h";
     path_join parts := join (js "/") parts;
     existsSync path :=
       bool_decide (path ∈ [ js "/h/.claude/projects";
                             js "/h/.claude/projects/p1/s1.jsonl";
                             js "/h/.claude/projects/p1/s2.jsonl";
                             js "/h/.claude/projects/p2/s2.jsonl";
                             js "/h/.claude/projects/p2/.jsonl";
                             js "/h/.claude/projects/p3/s2.jsonl" ]);
     readdirSync path :=
       if bool_decide (path = js "/h/.claude/projects")
       then Some [ mkDirent (js "p1") true false;
                   mkDirent (js "notes.txt") false true;
                   mkDirent (js "p2") true false;
                   mkDirent (js "p3") true false ]
       else if bool_decide (path = js "/h/.claude/projects/p1")
       then Some [ mkDirent (js "s2.jsonl") false true;
                   mkDirent (js "s1.jsonl") false true ]
       else if bool_decide (path = js "/h/.claude/projects/p2")
       then Some [ mkDirent (js "s2.jsonl") false true;
                   mkDirent (js ".jsonl") false true;
                   mkDirent (js "s3.txt") false true ]
       else if bool_decide (path = js "/h/.claude/projects/p3")
       then Some [ mkDirent (js "s2.jsonl") false true ]
       else None;
     statSync_mtimeMs path :=
       if bool_decide (path = js "/h/.claude/projects/p1/s1.jsonl")
       then Some 300%float
       else if bool_decide (path = js "/h/.claude/projects/p1/s2.jsonl")
       then Some 100%float
       else if bool_decide (path = js "/h/.claude/projects/p2/s2.jsonl")
       then Some 200%float
       else if bool_decide (path = js "/h/.claude/projects/p2/.jsonl")
       then Some 400%float
       else if bool_decide (path = js "/h/.claude/projects/p3/s2.jsonl")
       then Some 50%float
       else None;
     readFileSync path :=
       if bool_decide (path = js "/h/.claude/projects/p1/s1.jsonl")
       then Some (jsonText "{'cwd':' /w1 ','type':'user','message':{'role':'user','content':[{'type':'text','text':'fix  the build'}]}}")
       else if bool_decide (path = js "/h/.claude/projects/p1/s2.jsonl")
       then Some (jsonText "{'cwd':'/w2'}")
       else if bool_decide (path = js "/h/.claude/projects/p2/s2.jsonl")
       then Some (jsonText "{'type':'summary'}")
       else if bool_decide (path = js "/h/.claude/projects/p3/s2.jsonl")
       then Some (jsonText "{'cwd':'/w3'}")
       else None;
     toISOString time :=
       if (time =? 300)%float then js "1970-01-01T00:00:00.300Z"
       else if (time =? 200)%float then js "1970-01-01T00:00:00.200Z"
       else if (time =? 100)%float then js "1970-01-01T00:00:00.100Z"
       else if (time =? 50)%float then js "1970-01-01T00:00:00.050Z"
       else js "1970-01-01T00:00:00.400Z" |}.

(** The entry of the session [s1] in the index of [exampleFiles]. *)
Definition s1Entry : PersistedSessionEntry :=
  {| session_id := js "s1"; cwd := js "/w1";
     file_path := js "/h/.claude/projects/p1/s1.jsonl";
     title := Some (js "fix the build");
     updated_at := Some (js "1970-01-01T00:00:00.300Z");
     sort_ms := 300%float |}.

(** What the session [s2] resolves to in [exampleFiles], and the entry of
    its oldest file. *)
Definition s2Entry : PersistedSessionEntry :=
  {| session_id := js "s2"; cwd := js "/w2";
     file_path := js "/h/.claude/projects/p1/s2.jsonl";
     title := None; updated_at := None; sort_ms := 100%float |}.

Definition s2OldestEntry : PersistedSessionEntry :=
  {| session_id := js "s2"; cwd := js "/w3";
     file_path := js "/h/.claude/projects/p3/s2.jsonl";
     title := None; updated_at := None; sort_ms := 50%float |}.

(** ** Vocabulary of the replay invariants *)

(** What holds of an update that a replay pushes: a text chunk is not blank,
    a [tool_call_update] names a call, a [usage_update] has a field and no
    turn cost. *)
Definition Emittable {T : Type} (u : SessionUpdateOf T) : Prop :=
  match u with
  | user_message_chunk text | agent_message_chunk text => trim text ≠ []
  | tool_call _ => True
  | tool_call_update id _ => id ≠ []
  | usage_update usage =>
      turn_cost_usd usage = None
      ∧ allUndefined [input_tokens usage; output_tokens usage;
                      cache_read_tokens usage; cache_write_tokens usage;
                      total_cost_usd usage; turn_cost_usd usage;
                      context_window usage; max_output_tokens usage] = false
  end.

(** The address that a [tool_call] update holds. *)
Definition addressOf (u : SessionUpdateOf nat) : option nat :=
  match u with tool_call address => Some address | _ => None end.

(** Every update is emittable, and the [tool_call] updates hold the
    addresses of the stored calls, each once, in the order of the store. *)
Definition Consistent (st : ReplayState) : Prop :=
  Forall Emittable (updates st)
  ∧ omap addressOf (updates st) = seq 0 (length (objects st)).

(** A tool-use block and the tool-result block that answers it. *)
Definition readUseBlock : JsObject :=
  [ (js "type", JStr (js "tool_use")); (js "id", JStr (js "t1"));
    (js "name", JStr (js "Read")) ].

Definition readResultBlock : JsObject :=
  [ (js "type", JStr (js "tool_result")); (js "tool_use_id", JStr (js "t1"));
    (js "content", JStr (js "done")) ].

(** ** Vocabulary of the normalised text *)

(** The first unit, if there is one, is no white space. *)
Definition startsClean (s : jsstring) : bool :=
  match s with
  | c :: _ => negb (isWhiteSpace c)
  | [] => true
  end.

(** Every white-space unit is a space, and the unit after it is no white
    space. *)
Fixpoint singleSpaced (s : jsstring) : bool :=
  match s with
  | [] => true
  | c :: rest =>
      (negb (isWhiteSpace c) || (c =? 32) && startsClean rest)
      && singleSpaced rest
  end.

(** What a replay keeps when it goes from [st] to [st']: the updates pushed
    so far, the stored calls with their id, name and input, the ids of the
    lookup table and the message ids seen. *)
Definition Extends (st st' : ReplayState) : Prop :=
  updates st `prefix_of` updates st'
  ∧ (∀ address call,
       objects st !! address = Some call →
       ∃ call', objects st' !! address = Some call'
                ∧ tc_id call' = tc_id call ∧ tc_name call' = tc_name call
                ∧ tc_input call' = tc_input call)
  ∧ dom (toolCalls st) ⊆ dom (toolCalls st')
  ∧ emittedUsageMessageIds st ⊆ emittedUsageMessageIds st'.

(** ** The fields that the command table asks for *)

(** A place of the envelope that a validator reads: the envelope itself, a
    key of it read before the tag is known, a key of the command, the
    metadata under a key, a key of an object under a key of the command, a
    chunk, and a key of a chunk. *)
Inductive Place : Type :=
  | TheEnvelope
  | EnvelopeKey (key : jsstring)
  | CommandKey (key : jsstring)
  | MetadataKey (key : jsstring)
  | NestedKey (outer key : jsstring)
  | ChunkAt (index : nat)
  | ChunkKey (index : nat) (key : jsstring).

(** What the table asks of the value at a place. *)
Inductive Expectation : Type :=
  | AnObject | AString | ABoolean | AStringWhenProvided | AnObjectWhenProvided
  | AnArray | SelectedOrCancelled.

(** A row of the table has requirements: a place and what is asked of it. *)
Definition Requirement : Type := Place * Expectation.

(** The command tag of the envelope: the context of the paths of a
    command. *)
Definition tagOf (parsed : Json) : jsstring :=
  default []
    (asString (asRecordOrNull (Some parsed) ≫= λ raw, getField raw (js "command"))).

(** The path that names a place in an error. *)
Definition pathOf (parsed : Json) (place : Place) : jsstring :=
  match place with
  | TheEnvelope => js "command envelope"
  | EnvelopeKey key => js "command envelope" ++ js "." ++ key
  | CommandKey key => tagOf parsed ++ js "." ++ key
  | MetadataKey key => key ++ js " metadata"
  | NestedKey outer key => (tagOf parsed ++ js "." ++ outer) ++ js "." ++ key
  | ChunkAt index =>
      tagOf parsed ++ js ".chunks[" ++ stringOfNat index ++ js "]"
  | ChunkKey index key =>
      (tagOf parsed ++ js ".chunks[" ++ stringOfNat index ++ js "]")
      ++ js "." ++ key
  end.

(** The value at a place of the parsed line; [None] is [undefined]. *)
Definition valueAt (parsed : Json) (place : Place) : option Json :=
  let raw := default [] (asRecordOrNull (Some parsed)) in
  let chunkAt index :=
    asArray (getField raw (js "chunks")) ≫= λ items, items !! index in
  match place with
  | TheEnvelope => Some parsed
  | EnvelopeKey key | CommandKey key | MetadataKey key => getField raw key
  | NestedKey outer key =>
      asRecordOrNull (getField raw outer) ≫= λ inner, getField inner key
  | ChunkAt index => chunkAt index
  | ChunkKey index key =>
      asRecordOrNull (chunkAt index) ≫= λ chunk, getField chunk key
  end.

(** How an error words an expectation. The metadata of a command is
    optional, and an error about it says no more than "an object". *)
Definition expectationText (expectation : Expectation) : jsstring :=
  match expectation with
  | AnObject | AnObjectWhenProvided => js "an object"
  | AString => js "a string"
  | ABoolean => js "a boolean"
  | AStringWhenProvided => js "a string when provided"
  | AnArray => js "an array"
  | SelectedOrCancelled => js "'selected' or 'cancelled'"
  end.

(** The value is what is asked. *)
Definition meets (expectation : Expectation) (value : option Json) : bool :=
  match expectation, value with
  | AnObject, Some (JObj _) => true
  | AString, Some (JStr _) => true
  | ABoolean, Some (JBool _) => true
  | AStringWhenProvided, (None | Some JNull | Some (JStr _)) => true
  | AnObjectWhenProvided, (None | Some JNull | Some (JObj _)) => true
  | AnArray, Some (JArr _) => true
  | SelectedOrCancelled, Some (JStr s) =>
      bool_decide (s = js "selected") || bool_decide (s = js "cancelled")
  | _, _ => false
  end.

(** The requirements of the chunks [index], ..., [index + count - 1]: each
    an object with a string under [kind]. *)
Fixpoint chunkRequirements (index count : nat) : list Requirement :=
  match count with
  | O => []
  | S count' =>
      [ (ChunkAt index, AnObject); (ChunkKey index (js "kind"), AString) ]
      ++ chunkRequirements (S index) count'
  end.

(** The rows of the table of the specification, each with its requirements
    in the order in which they are checked. The chunks of a prompt and the
    option id of a selected outcome are asked for when the values before
    them are there. *)
Definition requirementsFor (tag : jsstring) (parsed : Json) : list Requirement :=
  let string key := (CommandKey (js key), AString) in
  let boolean key := (CommandKey (js key), ABoolean) in
  let optional key := (CommandKey (js key), AStringWhenProvided) in
  let metadata := (MetadataKey (js "metadata"), AnObjectWhenProvided) in
  if bool_decide (tag = js "initialize") then [string "cwd"; metadata]
  else if bool_decide (tag = js "create_session") then
    [string "cwd"; boolean "yolo"; optional "model"; optional "resume"; metadata]
  else if bool_decide (tag = js "load_session") then
    [string "session_id"; metadata]
  else if bool_decide (tag = js "new_session") then
    [string "cwd"; boolean "yolo"; optional "model"]
  else if bool_decide (tag = js "prompt") then
    [string "session_id"; (CommandKey (js "chunks"), AnArray)]
    ++ chunkRequirements 0
         (length (default []
                    (asArray (valueAt parsed (CommandKey (js "chunks"))))))
  else if bool_decide (tag = js "cancel_turn") then [string "session_id"]
  else if bool_decide (tag = js "set_model") then
    [string "session_id"; string "model"]
  else if bool_decide (tag = js "set_mode") then
    [string "session_id"; string "mode"]
  else if bool_decide (tag = js "permission_response") then
    [ (CommandKey (js "outcome"), AnObject);
      (NestedKey (js "outcome") (js "outcome"), AString);
      (NestedKey (js "outcome") (js "outcome"), SelectedOrCancelled) ]
    ++ (if isStringLiteral
             (valueAt parsed (NestedKey (js "outcome") (js "outcome")))
             (js "selected")
        then [(NestedKey (js "outcome") (js "option_id"), AString)]
        else [])
    ++ [string "session_id"; string "tool_call_id"]
  else [].

(** All that is asked of a parsed line: an object with a string tag, and
    the requirements of the row of that tag. *)
Definition requirementsOf (parsed : Json) : list Requirement :=
  [ (TheEnvelope, AnObject); (EnvelopeKey (js "command"), AString) ]
  ++ requirementsFor (tagOf parsed) parsed.

(** The parsed line has what the requirement asks. *)
Definition Met (parsed : Json) (requirement : Requirement) : Prop :=
  meets requirement.2 (valueAt parsed requirement.1) = true.

(** The error for a requirement that is not met: it names the path of the
    place and what is asked of it. *)
Definition offenceText (parsed : Json) (requirement : Requirement) : jsstring :=
  pathOf parsed requirement.1 ++ js " must be "
  ++ expectationText requirement.2.

(** The requirement is the first that the parsed line does not meet: the
    offending field. *)
Definition FirstOffence (parsed : Json) (requirement : Requirement) : Prop :=
  ∃ before after,
    requirementsOf parsed = before ++ requirement :: after
    ∧ Forall (Met parsed) before
    ∧ ¬ Met parsed requirement.

(** The first requirement of the list that is not met. *)
Fixpoint firstUnmet (parsed : Json) (requirements : list Requirement)
  : option Requirement :=
  match requirements with
  | [] => None
  | requirement :: rest =>
      if meets requirement.2 (valueAt parsed requirement.1)
      then firstUnmet parsed rest else Some requirement
  end.

(** A validation step follows the requirements: it returns when all are
    met, and throws the error of the first that is not. *)
Definition Follows {A : Type} (parsed : Json) (m : Throws A)
    (requirements : list Requirement) : Prop :=
  match m with
  | Returned _ => firstUnmet parsed requirements = None
  | Thrown e =>
      ∃ requirement,
        firstUnmet parsed requirements = Some requirement
        ∧ e = Error (offenceText parsed requirement)
  end.

(** * Properties *)

(** ** Permissions *)

Lemma scopes_of_destination (u : PermissionUpdate) :
  isSessionScoped u =
    (bool_decide (destination u ∈ SESSION_PERMISSION_DESTINATIONS)
     || negb (bool_decide (destination u ∈ PERSISTENT_PERMISSION_DESTINATIONS)))
  ∧ isPersistentScoped u =
    (negb (bool_decide (destination u ∈ SESSION_PERMISSION_DESTINATIONS))
     && bool_decide (destination u ∈ PERSISTENT_PERMISSION_DESTINATIONS)).
Proof.
  unfold isSessionScoped, isPersistentScoped,
    SESSION_PERMISSION_DESTINATIONS, PERSISTENT_PERMISSION_DESTINATIONS.
  destruct (bool_decide (destination u ∈ [js "session"; js "cliArg"])) eqn:Hs;
    simpl; [|by destruct (bool_decide _)].
  apply bool_decide_eq_true in Hs.
  rewrite !elem_of_cons, elem_of_nil in Hs.
  destruct Hs as [-> | [-> | []]]; by vm_compute.
Qed.

Lemma splitLoop_filter (s p l : list PermissionUpdate) :
  splitLoop s p l =
  {| session := s ++ List.filter isSessionScoped l;
     persistent := p ++ List.filter isPersistentScoped l |}.
Proof.
  revert s p. induction l as [|u l IH]; intros s p; simpl.
  - by rewrite !app_nil_r.
  - destruct (scopes_of_destination u) as [-> ->].
    destruct (bool_decide (destination u ∈ SESSION_PERMISSION_DESTINATIONS));
      [|destruct (bool_decide (destination u ∈ PERSISTENT_PERMISSION_DESTINATIONS))];
      simpl; rewrite IH; by rewrite <- ?app_assoc.
Qed.

Lemma split_filter (suggestions : option (list PermissionUpdate)) :
  splitPermissionSuggestionsByScope suggestions =
  {| session := List.filter isSessionScoped (default [] suggestions);
     persistent := List.filter isPersistentScoped (default [] suggestions) |}.
Proof.
  destruct suggestions as [[|u l]|]; try done.
  unfold splitPermissionSuggestionsByScope. by rewrite splitLoop_filter.
Qed.

Lemma nonempty_filter_existsb {A : Type} (f : A → bool) (l : list A) :
  bool_decide (0 < length (List.filter f l))%nat = existsb f l.
Proof.
  induction l as [|x l IH]; simpl; [done|].
  by destruct (f x).
Qed.

(** C6. Whatever the suggestions, absent ones included, the prompt has
    exactly three options: allow-once, then the broader option, then
    deny-once. The broader option is [allow_session] / "Allow for session"
    exactly when some suggestion is session-scoped and none is
    persistent-scoped, and [allow_always] / "Always allow" otherwise. Only
    the presence of each scope enters, as two booleans. *)
Theorem permission_options_by_scope_presence
    (suggestions : option (list PermissionUpdate)) :
  let given := default [] suggestions in
  let sessionOnly :=
    existsb isSessionScoped given && negb (existsb isPersistentScoped given) in
  permissionOptionsFromSuggestions suggestions =
  [ allowOnceOption;
    if sessionOnly then allowSessionOption else allowAlwaysOption;
    denyOnceOption ].
Proof.
  intros given sessionOnly. unfold permissionOptionsFromSuggestions.
  rewrite split_filter. simpl.
  rewrite !nonempty_filter_existsb. fold given. fold sessionOnly.
  by destruct sessionOnly.
Qed.

(** C7. Every outcome and option id gives an allow or a deny result for the
    prompted tool call: cancelling denies with "Permission cancelled";
    [allow_once] allows with the input as given and nothing attached; an
    option id that is none of [allow_once], [allow_session], [allow_always]
    denies with "Permission denied". *)
Theorem permission_result_defined
    (outcome : PermissionOutcome) (toolCallId : jsstring) (inputData : JsObject)
    (suggestions : option (list PermissionUpdate)) (toolName : option jsstring) :
  let resultOf o :=
    permissionResultFromOutcome o toolCallId inputData suggestions toolName in
  ((∃ attached, resultOf outcome = Allow inputData attached toolCallId)
   ∨ (∃ message, resultOf outcome = Deny message toolCallId))
  ∧ resultOf Cancelled = Deny (js "Permission cancelled") toolCallId
  ∧ resultOf (Selected (js "allow_once")) = Allow inputData None toolCallId
  ∧ (∀ id, id ∉ [js "allow_once"; js "allow_session"; js "allow_always"] →
       resultOf (Selected id) = Deny (js "Permission denied") toolCallId).
Proof.
  intros resultOf. subst resultOf. unfold permissionResultFromOutcome.
  split; [|split; [|split]].
  - destruct outcome as [id|]; [|right; eauto].
    repeat case_bool_decide; eauto.
  - done.
  - done.
  - intros id Hid. rewrite !not_elem_of_cons in Hid.
    destruct Hid as (H1 & H2 & H3 & _).
    by rewrite !bool_decide_eq_false_2.
Qed.

(** C8. Selecting [allow_session] allows and attaches the session-scoped
    suggestions when there are any; without them it attaches one made-up rule
    that allows the tool for the session when a (non-empty) tool name is
    given, and nothing otherwise. Selecting [allow_always] allows and attaches
    the persistent-scoped suggestions when there are any and nothing
    otherwise: no rule is made up. *)
Theorem permission_result_attachments
    (toolCallId : jsstring) (inputData : JsObject)
    (suggestions : option (list PermissionUpdate)) (toolName : option jsstring) :
  let given := default [] suggestions in
  let sessionScoped := List.filter isSessionScoped given in
  let persistentScoped := List.filter isPersistentScoped given in
  permissionResultFromOutcome (Selected (js "allow_session"))
    toolCallId inputData suggestions toolName =
    Allow inputData
      match sessionScoped, toolName with
      | _ :: _, _ => Some sessionScoped
      | [], Some (c :: tool) =>
          Some [RulesUpdate (js "addRules")
                  [ {| toolName := c :: tool; ruleContent := None |} ]
                  (js "allow") (js "session")]
      | [], _ => None
      end
      toolCallId
  ∧ permissionResultFromOutcome (Selected (js "allow_always"))
      toolCallId inputData suggestions toolName =
    Allow inputData
      match persistentScoped with
      | _ :: _ => Some persistentScoped
      | [] => None
      end
      toolCallId.
Proof.
  intros given sessionScoped persistentScoped.
  unfold permissionResultFromOutcome. rewrite split_filter.
  fold given. fold sessionScoped. fold persistentScoped.
  change (bool_decide (js "allow_session" = js "allow_once")) with false.
  change (bool_decide (js "allow_session" = js "allow_session")) with true.
  change (bool_decide (js "allow_always" = js "allow_once")) with false.
  change (bool_decide (js "allow_always" = js "allow_session")) with false.
  change (bool_decide (js "allow_always" = js "allow_always")) with true.
  cbn [session persistent].
  split.
  - destruct sessionScoped as [|u us]; [|done].
    destruct toolName as [[|c tool]|]; done.
  - by destruct persistentScoped.
Qed.

(** ** The command envelope parser *)

Lemma Checked_bind {A B : Type} (m : Throws A) (k : A → Throws B)
    (P : A → Prop) (Q : B → Prop) :
  Checked m P → (∀ a, P a → Checked (k a) Q) → Checked (m ≫= k) Q.
Proof. destruct m as [e|a]; simpl; auto. Qed.

Lemma Checked_ret {A : Type} (a : A) (Q : A → Prop) : Q a → Checked (mret a) Q.
Proof. done. Qed.

Lemma names_path (path expectation : jsstring) :
  path ≠ [] → expectation ∈ expectations →
  NamesFieldPath (path ++ js " must be " ++ expectation).
Proof. intros. by exists path, expectation. Qed.

Lemma dotted_nonempty (context key : jsstring) : context ++ js "." ++ key ≠ [].
Proof. by destruct context. Qed.

Lemma asRecord_checked (value : option Json) (context : jsstring) :
  context ≠ [] →
  Checked (asRecord value context) (λ record, value = Some (JObj record)).
Proof.
  intros Hc.
  assert (NamesFieldPath (context ++ js " must be an object")).
  { apply (names_path context (js "an object")); [done | by vm_compute; set_solver]. }
  destruct value as [[]|]; simpl; eauto.
Qed.

Lemma expectString_checked (record : JsObject) (key context : jsstring) :
  Checked (expectString record key context) (holdsString record key).
Proof.
  assert (NamesFieldPath (context ++ js "." ++ key ++ js " must be a string")).
  { replace (context ++ js "." ++ key ++ js " must be a string")
      with ((context ++ js "." ++ key) ++ js " must be " ++ js "a string")
      by (by rewrite <- !app_assoc).
    apply names_path; [apply dotted_nonempty | set_solver]. }
  unfold expectString, holdsString.
  destruct (getField record key) as [[]|]; simpl; eauto.
Qed.

Lemma expectBoolean_checked (record : JsObject) (key context : jsstring) :
  Checked (expectBoolean record key context) (holdsBoolean record key).
Proof.
  assert (NamesFieldPath (context ++ js "." ++ key ++ js " must be a boolean")).
  { replace (context ++ js "." ++ key ++ js " must be a boolean")
      with ((context ++ js "." ++ key) ++ js " must be " ++ js "a boolean")
      by (by rewrite <- !app_assoc).
    apply names_path; [apply dotted_nonempty | set_solver]. }
  unfold expectBoolean, holdsBoolean.
  destruct (getField record key) as [[]|]; simpl; eauto.
Qed.

Lemma optionalString_checked (record : JsObject) (key context : jsstring) :
  Checked (optionalString record key context) (holdsOptionalString record key).
Proof.
  assert (NamesFieldPath
            (context ++ js "." ++ key ++ js " must be a string when provided")).
  { replace (context ++ js "." ++ key ++ js " must be a string when provided")
      with ((context ++ js "." ++ key) ++ js " must be "
              ++ js "a string when provided")
      by (by rewrite <- !app_assoc).
    apply names_path; [apply dotted_nonempty | set_solver]. }
  unfold optionalString, holdsOptionalString, holdsString, isAbsent.
  destruct (getField record key) as [[]|]; simpl; eauto.
Qed.

Lemma optionalMetadata_checked (record : JsObject) :
  Checked (optionalMetadata record (js "metadata")) (holdsMetadata record).
Proof.
  unfold optionalMetadata, holdsMetadata, isAbsent.
  pose proof (asRecord_checked (getField record (js "metadata"))
                (js "metadata" ++ js " metadata")) as Hrec.
  destruct (getField record (js "metadata")) as [[]|]; simpl in *;
    try (by apply Hrec); eauto.
Qed.

Lemma parsePromptChunk_checked (context : jsstring) (index : nat) (chunk : Json) :
  Checked (parsePromptChunk context index chunk) (holdsChunk chunk).
Proof.
  unfold parsePromptChunk.
  eapply Checked_bind.
  { apply asRecord_checked. by destruct context. }
  intros parsed [= ->]. eapply Checked_bind; [apply expectString_checked|].
  intros kind Hkind. apply Checked_ret. by exists parsed.
Qed.

Lemma parsePromptChunksFrom_checked (context : jsstring) (index : nat)
    (rawChunks : list Json) :
  Checked (parsePromptChunksFrom context index rawChunks) (Forall2 holdsChunk rawChunks).
Proof.
  revert index. induction rawChunks as [|chunk rest IH]; intros index; simpl.
  - constructor.
  - eapply Checked_bind; [apply parsePromptChunk_checked|].
    intros parsed Hparsed. eapply Checked_bind; [apply IH|].
    intros others Hothers. apply Checked_ret. by constructor.
Qed.

Lemma parsePromptChunks_checked (record : JsObject) (context : jsstring) :
  Checked (parsePromptChunks record context) (holdsChunks record).
Proof.
  assert (NamesFieldPath (context ++ js ".chunks must be an array")).
  { replace (context ++ js ".chunks must be an array")
      with ((context ++ js "." ++ js "chunks") ++ js " must be " ++ js "an array")
      by (by rewrite <- !app_assoc).
    apply names_path; [apply dotted_nonempty | set_solver]. }
  unfold parsePromptChunks, holdsChunks.
  destruct (getField record (js "chunks")) as [[]|] eqn:Hchunks; simpl; eauto.
  pose proof (parsePromptChunksFrom_checked context 0 items) as Hitems.
  destruct (parsePromptChunksFrom context 0 items); simpl in *; eauto.
Qed.

Ltac check_step :=
  first
    [ eapply Checked_bind;
      [ first [ apply expectString_checked | apply expectBoolean_checked
              | apply optionalString_checked | apply optionalMetadata_checked
              | apply parsePromptChunks_checked
              | by apply asRecord_checked ]
      | intros ? ? ]
    | apply Checked_ret ].

(** Decide the next comparison of the tag with a literal; in the branch
    where they are equal the tag is replaced by the literal. *)
Ltac split_tag :=
  match goal with
  | |- context [bool_decide (?n = js ?t)] =>
      is_var n;
      destruct (decide (n = js t)) as [->|?];
      [ repeat match goal with
               | |- context [bool_decide (js ?a = js ?b)] =>
                   first [ rewrite (bool_decide_eq_true_2 (js a = js b)) by done
                         | rewrite (bool_decide_eq_false_2 (js a = js b)) by done ]
               end
      | rewrite (bool_decide_eq_false_2 (n = js t)) by done ]
  end.

(** The validators: a returned command is populated from the envelope, and
    an error names a path. The [default] branch is apart: it is reached with
    a tag that is none of the ten. *)
Lemma parseCommand_checked (raw : JsObject) (commandName : jsstring) :
  holdsString raw (js "command") commandName →
  if bool_decide (commandName ∈ commandTags)
  then Checked (parseCommand raw commandName) (Populated raw)
  else parseCommand raw commandName
       = Thrown (Error (js "unsupported command: " ++ commandName)).
Proof.
  intros Htag. unfold parseCommand, commandTags.
  repeat split_tag.
  11: { rewrite bool_decide_eq_false_2; [done|].
        rewrite !elem_of_cons, elem_of_nil.
        intros Hin. repeat (destruct Hin as [?|Hin]; [done|]). done. }
  all: rewrite bool_decide_eq_true_2
         by (repeat first [apply list_elem_of_here | apply list_elem_of_further]).
  all: repeat check_step; try (by simpl; eauto 10).
  (* permission_response: the outcome object first *)
  eapply (Checked_bind _ _
            (λ o, match o with
                  | Selected id =>
                      holdsString a (js "outcome") (js "selected")
                      ∧ holdsString a (js "option_id") id
                  | Cancelled => holdsString a (js "outcome") (js "cancelled")
                  end)).
  - repeat case_bool_decide; subst.
    + repeat check_step. done.
    + by apply Checked_ret.
    + eexists. split; [done|].
      exists (js "permission_response.outcome.outcome"),
             (js "'selected' or 'cancelled'").
      split; [done|]. split; [set_solver | done].
  - intros o Ho. repeat check_step. simpl. repeat split; try done.
    by exists a.
Qed.

(** *** The error is that of the offending field *)

Lemma firstUnmet_app (parsed : Json) (l1 l2 : list Requirement) :
  firstUnmet parsed (l1 ++ l2)
  = match firstUnmet parsed l1 with
    | Some requirement => Some requirement
    | None => firstUnmet parsed l2
    end.
Proof.
  induction l1 as [|r l1 IH]; [done|]. cbn [app firstUnmet].
  by destruct (meets r.2 (valueAt parsed r.1)).
Qed.

Lemma firstUnmet_offence (parsed : Json) (requirements : list Requirement)
    (requirement : Requirement) :
  firstUnmet parsed requirements = Some requirement →
  ∃ before after,
    requirements = before ++ requirement :: after
    ∧ Forall (Met parsed) before
    ∧ ¬ Met parsed requirement.
Proof.
  induction requirements as [|r rest IH]; [done|]. cbn [firstUnmet].
  destruct (meets r.2 (valueAt parsed r.1)) eqn:Hr.
  - intros (before & after & -> & Hbefore & Hnot)%IH.
    exists (r :: before), after. split; [done|]. split; [by constructor|done].
  - intros [= <-]. exists [], rest. split; [done|]. split; [done|].
    unfold Met. by rewrite Hr.
Qed.

Lemma firstUnmet_none (parsed : Json) (requirements : list Requirement) :
  firstUnmet parsed requirements = None → Forall (Met parsed) requirements.
Proof.
  induction requirements as [|r rest IH]; [done|]. cbn [firstUnmet].
  destruct (meets r.2 (valueAt parsed r.1)) eqn:Hr; [|done].
  intros Hrest. constructor; [done | by apply IH].
Qed.

Lemma Follows_bind {A B : Type} (parsed : Json) (m : Throws A)
    (k : A → Throws B) (l1 l2 : list Requirement) :
  Follows parsed m l1 →
  (∀ a, m = Returned a → Follows parsed (k a) l2) →
  Follows parsed (m ≫= k) (l1 ++ l2).
Proof.
  intros Hm Hk. destruct m as [e|a]; simpl in *.
  - destruct Hm as (r & Hr & ->). exists r. by rewrite firstUnmet_app, Hr.
  - specialize (Hk a eq_refl). unfold Follows in *.
    by rewrite firstUnmet_app, Hm.
Qed.

Lemma Follows_bind_cons {A B : Type} (parsed : Json) (m : Throws A)
    (k : A → Throws B) (requirement : Requirement)
    (rest : list Requirement) :
  Follows parsed m [requirement] →
  (∀ a, m = Returned a → Follows parsed (k a) rest) →
  Follows parsed (m ≫= k) (requirement :: rest).
Proof. apply (Follows_bind parsed m k [requirement] rest). Qed.

Lemma Follows_ret {A : Type} (parsed : Json) (a : A) :
  Follows parsed (mret a : Throws A) [].
Proof. done. Qed.

Lemma Follows_one {A : Type} (parsed : Json) (m : Throws A)
    (place : Place) (expectation : Expectation) :
  (if meets expectation (valueAt parsed place)
   then ∃ a, m = Returned a
   else m = Thrown (Error (offenceText parsed (place, expectation)))) →
  Follows parsed m [(place, expectation)].
Proof.
  intros Hm. unfold Follows. cbn [firstUnmet fst snd].
  destruct (meets expectation (valueAt parsed place)).
  - by destruct Hm as [a ->].
  - rewrite Hm. eauto.
Qed.

Lemma asRecord_follows (parsed : Json) (value : option Json)
    (context : jsstring) (place : Place) :
  pathOf parsed place = context → valueAt parsed place = value →
  Follows parsed (asRecord value context) [(place, AnObject)].
Proof.
  intros Hpath Hvalue. apply Follows_one. rewrite Hvalue.
  unfold offenceText. cbn [fst snd]. rewrite Hpath. unfold asRecord.
  destruct value as [[]|]; cbn; eauto.
Qed.

Lemma expectString_follows (parsed : Json) (record : JsObject)
    (key context : jsstring) (place : Place) :
  pathOf parsed place = context ++ js "." ++ key →
  valueAt parsed place = getField record key →
  Follows parsed (expectString record key context) [(place, AString)].
Proof.
  intros Hpath Hvalue. apply Follows_one. rewrite Hvalue.
  unfold offenceText. cbn [fst snd]. rewrite Hpath, <- !app_assoc.
  unfold expectString.
  destruct (getField record key) as [[]|]; cbn; eauto.
Qed.

Lemma expectBoolean_follows (parsed : Json) (record : JsObject)
    (key context : jsstring) (place : Place) :
  pathOf parsed place = context ++ js "." ++ key →
  valueAt parsed place = getField record key →
  Follows parsed (expectBoolean record key context) [(place, ABoolean)].
Proof.
  intros Hpath Hvalue. apply Follows_one. rewrite Hvalue.
  unfold offenceText. cbn [fst snd]. rewrite Hpath, <- !app_assoc.
  unfold expectBoolean.
  destruct (getField record key) as [[]|]; cbn; eauto.
Qed.

Lemma optionalString_follows (parsed : Json) (record : JsObject)
    (key context : jsstring) (place : Place) :
  pathOf parsed place = context ++ js "." ++ key →
  valueAt parsed place = getField record key →
  Follows parsed (optionalString record key context)
    [(place, AStringWhenProvided)].
Proof.
  intros Hpath Hvalue. apply Follows_one. rewrite Hvalue.
  unfold offenceText. cbn [fst snd]. rewrite Hpath, <- !app_assoc.
  unfold optionalString.
  destruct (getField record key) as [[]|]; cbn; eauto.
Qed.

Lemma optionalMetadata_follows (raw : JsObject) (key : jsstring) :
  Follows (JObj raw) (optionalMetadata raw key)
    [(MetadataKey key, AnObjectWhenProvided)].
Proof.
  apply Follows_one. unfold offenceText. cbn [fst snd pathOf valueAt].
  change (default [] (asRecordOrNull (Some (JObj raw)))) with raw.
  unfold optionalMetadata, asRecord.
  destruct (getField raw key) as [[]|]; cbn; eauto.
Qed.

Lemma tagOf_holds (raw : JsObject) (tag : jsstring) :
  holdsString raw (js "command") tag → tagOf (JObj raw) = tag.
Proof. unfold holdsString, tagOf. cbn. by intros ->. Qed.

Lemma parsePromptChunksFrom_follows (parsed : Json) (context : jsstring)
    (index : nat) (items : list Json) :
  tagOf parsed = context →
  (∀ j chunk, items !! j = Some chunk →
              valueAt parsed (ChunkAt (index + j)) = Some chunk) →
  Follows parsed (parsePromptChunksFrom context index items)
    (chunkRequirements index (length items)).
Proof.
  intros Htag. revert index.
  induction items as [|chunk rest IH]; intros index Hitems; [done|].
  cbn [parsePromptChunksFrom length chunkRequirements].
  assert (Hchunk : valueAt parsed (ChunkAt index) = Some chunk).
  { rewrite <- (Nat.add_0_r index). by apply Hitems. }
  apply Follows_bind.
  - unfold parsePromptChunk. cbv zeta. apply Follows_bind_cons.
    + apply asRecord_follows; [|done]. cbn [pathOf]. by rewrite Htag.
    + intros fields Hfields.
      assert (chunk = JObj fields) as ->
        by (by destruct chunk; cbn in Hfields; try done; injection Hfields as ->).
      apply Follows_bind_cons; [|intros kind _; apply Follows_ret].
      apply expectString_follows; [cbn [pathOf]; by rewrite Htag|].
      change (valueAt parsed (ChunkKey index (js "kind")))
        with (asRecordOrNull (valueAt parsed (ChunkAt index))
                ≫= λ chunk, getField chunk (js "kind")).
      by rewrite Hchunk.
  - intros parsedChunk _.
    rewrite <- (app_nil_r (chunkRequirements (S index) (length rest))).
    apply Follows_bind; [|intros others _; apply Follows_ret].
    apply IH. intros j other Hother.
    replace (S index + j)%nat with (index + S j)%nat by lia.
    by apply Hitems.
Qed.

Lemma parsePromptChunks_follows (raw : JsObject) (tag : jsstring) :
  holdsString raw (js "command") tag →
  Follows (JObj raw) (parsePromptChunks raw tag)
    ((CommandKey (js "chunks"), AnArray)
     :: chunkRequirements 0
          (length (default []
                     (asArray (valueAt (JObj raw) (CommandKey (js "chunks"))))))).
Proof.
  intros Htag. pose proof (tagOf_holds raw tag Htag) as Htag'.
  change (valueAt (JObj raw) (CommandKey (js "chunks")))
    with (getField raw (js "chunks")).
  unfold parsePromptChunks.
  destruct (asArray (getField raw (js "chunks"))) as [items|] eqn:Hitems.
  - assert (getField raw (js "chunks") = Some (JArr items)) as Hchunks
      by (by destruct (getField raw (js "chunks")) as [[]|];
            cbn in Hitems; try done; injection Hitems as ->).
    rewrite Hchunks. cbn [default].
    pose proof (parsePromptChunksFrom_follows (JObj raw) tag 0 items Htag')
      as Hfollows.
    unfold Follows in *. cbn [firstUnmet fst snd valueAt].
    change (default [] (asRecordOrNull (Some (JObj raw)))) with raw.
    rewrite Hchunks. cbn [meets]. apply Hfollows.
    intros j chunk Hchunk. cbn [valueAt Nat.add].
    change (default [] (asRecordOrNull (Some (JObj raw)))) with raw.
    by rewrite Hchunks.
  - assert (meets AnArray (getField raw (js "chunks")) = false) as Hmeets
      by (by destruct (getField raw (js "chunks")) as [[]|]).
    assert (Hthrown :
              match getField raw (js "chunks") with
              | Some (JArr rawChunks) => parsePromptChunksFrom tag 0 rawChunks
              | _ => throw (tag ++ js ".chunks must be an array")
              end = Thrown (Error (tag ++ js ".chunks must be an array")))
      by (by destruct (getField raw (js "chunks")) as [[]|]).
    rewrite Hthrown. cbn [Follows firstUnmet fst snd valueAt].
    change (default [] (asRecordOrNull (Some (JObj raw)))) with raw.
    rewrite Hmeets. eexists. split; [done|].
    unfold offenceText. cbn [fst snd pathOf]. rewrite Htag'.
    by rewrite <- !app_assoc.
Qed.

Ltac follow_step Htag :=
  cbn [app];
  first
    [ eapply Follows_bind_cons;
      [ first
          [ apply expectString_follows;
            [cbn [pathOf]; by rewrite (tagOf_holds _ _ Htag) | done]
          | apply expectBoolean_follows;
            [cbn [pathOf]; by rewrite (tagOf_holds _ _ Htag) | done]
          | apply optionalString_follows;
            [cbn [pathOf]; by rewrite (tagOf_holds _ _ Htag) | done]
          | apply optionalMetadata_follows ]
      | intros ? ? ]
    | apply Follows_ret ].

Lemma offenceText_names_path (parsed : Json) (requirement : Requirement) :
  NamesFieldPath (offenceText parsed requirement).
Proof.
  destruct requirement as [place expectation].
  exists (pathOf parsed place), (expectationText expectation).
  split; [|split; [|done]].
  - destruct place as [|key|key|key|outer key|index|index key]; cbn [pathOf];
      try done; try (by destruct (tagOf parsed)). by destruct key.
  - unfold expectations. destruct expectation; cbn [expectationText]; set_solver.
Qed.

(** The validators of a command follow the requirements of its row. *)
Lemma parseCommand_follows (raw : JsObject) (commandName : jsstring) :
  holdsString raw (js "command") commandName →
  commandName ∈ commandTags →
  Follows (JObj raw) (parseCommand raw commandName)
    (requirementsFor commandName (JObj raw)).
Proof.
  intros Htag Hknown. unfold parseCommand, requirementsFor. cbv beta zeta.
  repeat split_tag.
  11: { exfalso. unfold commandTags in Hknown.
        rewrite !elem_of_cons, elem_of_nil in Hknown.
        repeat (destruct Hknown as [?|Hknown]; [done|]). done. }
  all: repeat follow_step Htag.
  - (* prompt: the chunks *)
    rewrite <- (app_nil_r (_ :: chunkRequirements _ _)).
    apply Follows_bind; [by apply parsePromptChunks_follows|].
    intros chunks _. apply Follows_ret.
  - (* permission_response: the outcome object first *)
    eapply Follows_bind_cons.
    { apply asRecord_follows; [|done]. cbn [pathOf].
      by rewrite (tagOf_holds _ _ Htag). }
    intros outcome Houtcome.
    assert (getField raw (js "outcome") = Some (JObj outcome)) as Hfield
      by (by destruct (getField raw (js "outcome")) as [[]|];
            cbn in Houtcome; try done; injection Houtcome as ->).
    assert (Hnested : ∀ key, valueAt (JObj raw) (NestedKey (js "outcome") key)
                             = getField outcome key).
    { intros key. cbn [valueAt].
      change (default [] (asRecordOrNull (Some (JObj raw)))) with raw.
      by rewrite Hfield. }
    eapply Follows_bind_cons.
    { apply expectString_follows; [|by rewrite Hnested]. cbn [pathOf].
      by rewrite (tagOf_holds _ _ Htag). }
    intros outcomeType Htype.
    assert (getField outcome (js "outcome") = Some (JStr outcomeType)) as Hkind.
    { unfold expectString in Htype.
      by destruct (getField outcome (js "outcome")) as [[]|];
        cbn in Htype; try done; injection Htype as ->. }
    rewrite Hnested, Hkind. unfold isStringLiteral. cbn [asString].
    change ((NestedKey (js "outcome") (js "outcome"), SelectedOrCancelled)
            :: ?l) with ([(NestedKey (js "outcome") (js "outcome"),
                           SelectedOrCancelled)] ++ l).
    rewrite app_assoc. apply Follows_bind.
    + unfold Follows. rewrite firstUnmet_app. cbn [firstUnmet fst snd].
      rewrite Hnested, Hkind. cbn [meets].
      destruct (decide (outcomeType = js "selected")) as [->|Hselected].
      * rewrite !bool_decide_eq_true_2 by done. cbn [orb].
        pose proof (expectString_follows (JObj raw) outcome (js "option_id")
                      (js "permission_response.outcome")
                      (NestedKey (js "outcome") (js "option_id"))) as Hoption.
        unfold Follows in Hoption.
        destruct (expectString outcome (js "option_id")
                    (js "permission_response.outcome")) as [e|option_id];
          simpl; apply Hoption; try (by rewrite Hnested);
          cbn [pathOf]; by rewrite (tagOf_holds _ _ Htag).
      * rewrite (bool_decide_eq_false_2 (outcomeType = js "selected")) by done.
        rewrite (bool_decide_eq_false_2 (Some outcomeType = Some (js "selected")))
          by congruence.
        destruct (decide (outcomeType = js "cancelled")) as [->|Hcancelled].
        -- by rewrite !bool_decide_eq_true_2 by done.
        -- rewrite !(bool_decide_eq_false_2 (outcomeType = js "cancelled"))
             by done.
           cbn [orb]. eexists. split; [done|].
           unfold offenceText. cbn [fst snd pathOf expectationText].
           by rewrite (tagOf_holds _ _ Htag).
    + intros parsedOutcome _. repeat follow_step Htag.
Qed.

Section CommandProperties.
Context `{runtime : Runtime}.

(** What [parseCommandEnvelope] does on each line, by its three outcomes. *)
Lemma parseCommandEnvelope_outcomes (line : jsstring) :
  match parseCommandEnvelope line with
  | Returned (requestId, command) =>
      ∃ raw, JSON_parse line = Some (JObj raw)
        ∧ requestId = asString (getField raw (js "request_id"))
        ∧ Populated raw command
  | Thrown SyntaxError => JSON_parse line = None
  | Thrown (Error message) =>
      ∃ parsed, JSON_parse line = Some parsed
        ∧ (NamesFieldPath message
           ∨ (∃ raw commandName,
                parsed = JObj raw
                ∧ holdsString raw (js "command") commandName
                ∧ (commandName ∉ commandTags)
                ∧ message = (js "unsupported command: " ++ commandName)))
  end.
Proof.
  unfold parseCommandEnvelope.
  destruct (JSON_parse line) as [parsed|]; [|done].
  assert (Hraw : Checked (asRecord (Some parsed) (js "command envelope"))
                   (λ record, Some parsed = Some (JObj record)))
    by by apply asRecord_checked.
  destruct (asRecord (Some parsed) (js "command envelope")) as [e|raw]; simpl in *.
  { destruct Hraw as (m & -> & Hm). eauto. }
  injection Hraw as ->.
  pose proof (expectString_checked raw (js "command") (js "command envelope")) as Htag.
  destruct (expectString raw (js "command") (js "command envelope"))
    as [e|commandName]; simpl in *.
  { destruct Htag as (m & -> & Hm). eauto. }
  pose proof (parseCommand_checked raw commandName Htag) as Hcmd.
  case_bool_decide as Hin.
  - destruct (parseCommand raw commandName) as [e|command]; simpl in *.
    + destruct Hcmd as (m & -> & Hm). eauto.
    + eauto.
  - rewrite Hcmd. simpl. eexists. split; [done|]. right. eauto 10.
Qed.

(** The error of a line that is JSON is that of the first requirement that
    the parsed line does not meet, or that of a tag that is none of the
    ten. *)
Lemma parseCommandEnvelope_follows (line : jsstring) :
  match parseCommandEnvelope line with
  | Returned _ =>
      ∃ parsed, JSON_parse line = Some parsed
        ∧ firstUnmet parsed (requirementsOf parsed) = None
  | Thrown SyntaxError => True
  | Thrown (Error message) =>
      ∃ parsed, JSON_parse line = Some parsed
        ∧ ((∃ requirement,
              firstUnmet parsed (requirementsOf parsed) = Some requirement
              ∧ message = offenceText parsed requirement)
           ∨ (∃ raw commandName,
                parsed = JObj raw
                ∧ holdsString raw (js "command") commandName
                ∧ (commandName ∉ commandTags)
                ∧ message = (js "unsupported command: " ++ commandName)))
  end.
Proof.
  unfold parseCommandEnvelope.
  destruct (JSON_parse line) as [parsed|]; [|done].
  destruct (asRecordOrNull (Some parsed)) as [raw|] eqn:Hraw.
  2: { assert (asRecord (Some parsed) (js "command envelope")
               = Thrown (Error (js "command envelope must be an object")))
         as -> by (by destruct parsed).
       simpl. exists parsed. split; [done|]. left.
       exists (TheEnvelope, AnObject). split; [|done].
       unfold requirementsOf. cbn [app firstUnmet fst snd valueAt].
       by destruct parsed. }
  assert (parsed = JObj raw) as ->
    by (by destruct parsed; cbn in Hraw; try done; injection Hraw as ->).
  assert (Hfirst :
            firstUnmet (JObj raw) (requirementsOf (JObj raw))
            = match firstUnmet (JObj raw)
                      [(EnvelopeKey (js "command"), AString)] with
              | Some requirement => Some requirement
              | None => firstUnmet (JObj raw)
                          (requirementsFor (tagOf (JObj raw)) (JObj raw))
              end).
  { unfold requirementsOf.
    change ([(TheEnvelope, AnObject); (EnvelopeKey (js "command"), AString)]
            ++ ?l)
      with ([(TheEnvelope, AnObject)]
            ++ [(EnvelopeKey (js "command"), AString)] ++ l).
    by rewrite !firstUnmet_app. }
  pose proof (expectString_follows (JObj raw) raw (js "command")
                (js "command envelope") (EnvelopeKey (js "command"))
                eq_refl eq_refl) as Hexpect.
  pose proof (expectString_checked raw (js "command") (js "command envelope"))
    as Htag.
  unfold Follows in Hexpect. unfold Checked in Htag.
  cbn [asRecord mbind mret Throws_bind Throws_ret].
  destruct (expectString raw (js "command") (js "command envelope"))
    as [e|commandName]; cbn [mbind Throws_bind].
  { destruct Hexpect as (requirement & Hunmet & ->).
    exists (JObj raw). split; [done|]. left. exists requirement.
    by rewrite Hfirst, Hunmet. }
  rewrite Hexpect, (tagOf_holds raw commandName Htag) in Hfirst.
  destruct (decide (commandName ∈ commandTags)) as [Hknown|Hunknown].
  - pose proof (parseCommand_follows raw commandName Htag Hknown) as Hfollows.
    unfold Follows in Hfollows.
    destruct (parseCommand raw commandName) as [e|command];
      cbn [mbind mret Throws_bind Throws_ret].
    + destruct Hfollows as (requirement & Hunmet & ->).
      exists (JObj raw). split; [done|]. left. exists requirement.
      by rewrite Hfirst.
    + exists (JObj raw). by rewrite Hfirst.
  - pose proof (parseCommand_checked raw commandName Htag) as Hcommand.
    rewrite bool_decide_eq_false_2 in Hcommand by done.
    rewrite Hcommand. cbn [mbind Throws_bind].
    exists (JObj raw). split; [done|]. right.
    by exists raw, commandName.
Qed.

(** C5, amended. [parseCommandEnvelope] is all-or-nothing on every line. On a
    line that is JSON it returns a command populated from the envelope (one of
    the ten kinds, each required field there with its type, every requirement
    of its row met), or it fails with the error of the offending field: the
    first requirement, in the order of the validators, that the parsed line
    does not meet, named by its path and by what is asked of it; or, for a
    tag that is none of the ten, with "unsupported command: <name>". A prompt
    whose [chunks] is no array fails naming [prompt.chunks]. On a line that
    is no JSON it fails with the [SyntaxError] of [JSON.parse], which names
    no path. *)
Theorem parse_command_all_or_nothing (line : jsstring) :
  match parseCommandEnvelope line with
  | Returned (requestId, command) =>
      ∃ raw, JSON_parse line = Some (JObj raw)
        ∧ requestId = asString (getField raw (js "request_id"))
        ∧ Populated raw command
        ∧ Forall (Met (JObj raw)) (requirementsOf (JObj raw))
  | Thrown SyntaxError => JSON_parse line = None
  | Thrown (Error message) =>
      ∃ parsed, JSON_parse line = Some parsed
        ∧ ((NamesFieldPath message
            ∧ ∃ requirement,
                FirstOffence parsed requirement
                ∧ message = offenceText parsed requirement)
           ∨ (∃ raw commandName,
                parsed = JObj raw
                ∧ holdsString raw (js "command") commandName
                ∧ (commandName ∉ commandTags)
                ∧ message = (js "unsupported command: " ++ commandName)))
  end
  ∧ (∀ raw session_id,
       JSON_parse line = Some (JObj raw) →
       holdsString raw (js "command") (js "prompt") →
       holdsString raw (js "session_id") session_id →
       asArray (getField raw (js "chunks")) = None →
       parseCommandEnvelope line
       = Thrown (Error (js "prompt.chunks must be an array")))
  ∧ (∀ raw commandName,
       JSON_parse line = Some (JObj raw) →
       holdsString raw (js "command") commandName →
       commandName ∉ commandTags →
       parseCommandEnvelope line
       = Thrown (Error (js "unsupported command: " ++ commandName))).
Proof.
  split; [|split].
  - pose proof (parseCommandEnvelope_outcomes line) as H.
    pose proof (parseCommandEnvelope_follows line) as Hfollows.
    destruct (parseCommandEnvelope line) as [[|message]|[requestId command]];
      [done| |].
    + destruct H as (parsed & Hparsed & Houtcome).
      destruct Hfollows as (parsed' & Hparsed' & Hfirst).
      assert (parsed' = parsed) as -> by congruence.
      exists parsed. split; [done|].
      destruct Hfirst as [(requirement & Hfirst & ->) | Hunsupported];
        [|by right].
      left. split; [apply offenceText_names_path|].
      exists requirement. split; [|done].
      unfold FirstOffence. by apply firstUnmet_offence.
    + destruct H as (raw & Hparsed & Hid & Hpopulated).
      destruct Hfollows as (parsed' & Hparsed' & Hnone).
      assert (parsed' = JObj raw) as -> by congruence.
      exists raw. repeat split; try done. by apply firstUnmet_none.
  - intros raw session_id Hline Htag Hsid Hchunks.
    unfold parseCommandEnvelope, holdsString in *. rewrite Hline. simpl.
    unfold expectString at 1. rewrite Htag. simpl.
    unfold parseCommand. simpl.
    unfold expectString. rewrite Hsid. simpl.
    unfold parsePromptChunks.
    by destruct (getField raw (js "chunks")) as [[]|].
  - intros raw commandName Hline Htag Hnot.
    unfold parseCommandEnvelope. rewrite Hline. simpl.
    pose proof (parseCommand_checked raw commandName Htag) as Hcmd.
    rewrite bool_decide_eq_false_2 in Hcmd by done.
    unfold expectString, holdsString in *. rewrite Htag. simpl.
    by rewrite Hcmd.
Qed.

(** C10. A line that parses to an object whose [request_id] is there but is
    no string, and whose command validates, is not rejected for it: the call
    returns that command without a request id. *)
Theorem non_string_request_id_is_dropped
    (line : jsstring) (raw : JsObject) (value : Json)
    (commandName : jsstring) (command : BridgeCommand) :
  JSON_parse line = Some (JObj raw) →
  getField raw (js "request_id") = Some value →
  asString (Some value) = None →
  holdsString raw (js "command") commandName →
  parseCommand raw commandName = Returned command →
  parseCommandEnvelope line = Returned (None, command).
Proof.
  intros Hline Hid Hvalue Htag Hcommand.
  unfold parseCommandEnvelope, expectString, holdsString in *.
  rewrite Hline. simpl. rewrite Htag. simpl.
  rewrite Hcommand. simpl. by rewrite Hid, Hvalue.
Qed.

End CommandProperties.

(** The prompt command of the specification's round trip. *)
Example parse_prompt_round_trip :
  @parseCommandEnvelope jsonRuntime
    (jsonText "{'command':'prompt','session_id':'s1','chunks':[{'kind':'text','value':'hi'}]}")
  = Returned (None, Prompt (js "s1")
                      [ {| chunk_kind := js "text"; chunk_value := JStr (js "hi") |} ]).
Proof. by vm_compute. Qed.

(** C5 as the claim words it fails on a line that is no JSON, here a line cut
    short: the call throws the [SyntaxError] of [JSON.parse]. And a prompt
    without [chunks] that has no [session_id] either fails on the field that
    is checked first. *)
Lemma failures_outside_the_claim :
  @parseCommandEnvelope jsonRuntime (jsonText "{'command':'shutdown'")
  = Thrown SyntaxError
  ∧ ¬ @ReturnsOrNamesPath jsonRuntime (jsonText "{'command':'shutdown'")
  ∧ @parseCommandEnvelope jsonRuntime (jsonText "{'command':'prompt'}")
    = Thrown (Error (js "prompt.session_id must be a string")).
Proof.
  assert (H : @parseCommandEnvelope jsonRuntime (jsonText "{'command':'shutdown'")
              = Thrown SyntaxError) by (by vm_compute).
  split; [done|]. split; [|by vm_compute].
  unfold ReturnsOrNamesPath. rewrite H. tauto.
Qed.

(** The amended C5 at two lines: a prompt without [chunks], and a tag that is
    none of the ten. *)
Lemma parse_command_all_or_nothing_witness :
  @parseCommandEnvelope jsonRuntime
    (jsonText "{'command':'prompt','session_id':'s1'}")
  = Thrown (Error (js "prompt.chunks must be an array"))
  ∧ @parseCommandEnvelope jsonRuntime (jsonText "{'command':'restart'}")
    = Thrown (Error (js "unsupported command: restart")).
Proof.
  split.
  - eapply (proj1 (proj2 (@parse_command_all_or_nothing jsonRuntime _)));
      vm_compute; reflexivity.
  - eapply (proj2 (proj2 (@parse_command_all_or_nothing jsonRuntime _))
              _ (js "restart")); [vm_compute; reflexivity | vm_compute; reflexivity |].
    unfold commandTags. rewrite !not_elem_of_cons.
    repeat (split; [intros H; vm_compute in H; discriminate H|]).
    apply not_elem_of_nil.
Defined.

(** C10 at a line whose [request_id] is a number. *)
Lemma non_string_request_id_is_dropped_witness :
  @parseCommandEnvelope jsonRuntime
    (jsonText "{'request_id':7,'command':'shutdown'}")
  = Returned (None, Shutdown).
Proof.
  eapply (@non_string_request_id_is_dropped jsonRuntime _ _ _ (js "shutdown"));
    vm_compute; reflexivity.
Defined.

(** ** Usage accounting *)

Lemma allUndefined_with_total (a b c d e f g : option float) (total : float) :
  allUndefined [a; b; c; d; Some total; e; f; g] = false.
Proof. by destruct a, b, c, d. Qed.

(** One call on a message that carries a total, against a session. *)
Lemma usage_update_with_total (session : UsageSessionContext)
    (message : JsObject) (total : float) :
  totalCostOf message = Some total →
  ∃ update,
    buildUsageUpdateFromResultForSession (T := ToolCall) (Some session) message
    = (Some {| model := model session; lastTotalCostUsd := Some total |},
       Some update)
    ∧ turnCostOf (Some update)
      = Some match lastTotalCostUsd session with
             | None => total
             | Some lastTotal => Math_max [0%float; (total - lastTotal)%float]
             end.
Proof.
  intros Htotal. unfold buildUsageUpdateFromResultForSession.
  unfold totalCostOf in Htotal. rewrite Htotal.
  cbn [observeTotalCost]. cbv zeta.
  rewrite allUndefined_with_total. eexists. split; reflexivity.
Qed.

(** The deltas of a sequence, from any session context. *)
Lemma usage_deltas_from (session : UsageSessionContext)
    (messages : list JsObject) (totals : list float) :
  Forall2 (λ message total, totalCostOf message = Some total) messages totals →
  ∃ session' updates,
    resultsForSession (Some session) messages = (Some session', updates)
    ∧ turnCostOf <$> updates
      = Some <$> expectedDeltas (lastTotalCostUsd session) totals
    ∧ lastTotalCostUsd session'
      = from_option Some (lastTotalCostUsd session) (last totals).
Proof.
  intros Hall. revert session.
  induction Hall as [|message total messages totals Htotal _ IH]; intros session.
  - by exists session, [].
  - destruct (usage_update_with_total session message total Htotal)
      as (update & Hcall & Hturn).
    destruct (IH {| model := model session; lastTotalCostUsd := Some total |})
      as (session' & updates & Hrest & Hdeltas & Hlast).
    exists session', (Some update :: updates).
    cbn [resultsForSession]. rewrite Hcall, Hrest. split; [done|]. split.
    + cbn [expectedDeltas]. rewrite !fmap_cons. by rewrite Hturn, Hdeltas.
    + rewrite Hlast, last_cons. cbn [lastTotalCostUsd].
      by destruct (last totals).
Qed.

(** C2, amended. For result messages that carry a total cost, processed one
    after the other against one session context: when the context has seen no
    total, the first delta is the first total; every later delta is
    [Math.max(0, newTotal - lastTotal)] in double arithmetic; and after each
    message the context holds that message's total. Totals 0.02, 0.05, 0.03
    give the deltas 0.02, 0.05 - 0.02 and 0, and the double 0.05 - 0.02 is the
    one right above 0.03. *)
Theorem usage_turn_cost_deltas :
  (∀ (session : UsageSessionContext) (messages : list JsObject)
     (totals : list float),
     Forall2 (λ message total, totalCostOf message = Some total) messages totals →
     ∃ session' updates,
       resultsForSession (Some session) messages = (Some session', updates)
       ∧ turnCostOf <$> updates
         = Some <$> expectedDeltas (lastTotalCostUsd session) totals
       ∧ lastTotalCostUsd session'
         = from_option Some (lastTotalCostUsd session) (last totals))
  ∧ turnCostOf <$>
      (resultsForSession (Some newSession)
         (totalMessage <$> [0.02; 0.05; 0.03]%float)).2
    = [Some 0.02; Some (0.05 - 0.02); Some 0]%float
  ∧ (0.05 - 0.02)%float = next_up 0.03%float.
Proof.
  split; [|split].
  - apply usage_deltas_from.
  - by vm_compute.
  - by vm_compute.
Qed.

(** C2 at the totals of the specification. *)
Lemma usage_turn_cost_deltas_witness :
  ∃ session' updates,
    resultsForSession (Some newSession)
      (totalMessage <$> [0.02; 0.05; 0.03]%float)
    = (Some session', updates)
    ∧ turnCostOf <$> updates
      = Some <$> expectedDeltas None [0.02; 0.05; 0.03]%float
    ∧ lastTotalCostUsd session' = Some 0.03%float.
Proof.
  apply (proj1 usage_turn_cost_deltas newSession
           (totalMessage <$> [0.02; 0.05; 0.03]%float)
           [0.02; 0.05; 0.03]%float).
  repeat constructor.
Defined.

(** C2 as the claim words it fails in its example: the second delta is not
    the double 0.03. *)
Lemma second_delta_is_not_three_cents :
  turnCostOf <$>
    (resultsForSession (Some newSession)
       (totalMessage <$> [0.02; 0.05; 0.03]%float)).2
  ≠ [Some 0.02; Some 0.03; Some 0]%float.
Proof.
  intros H.
  apply (f_equal (λ deltas, match deltas with
                            | [_; Some second; _] => Leibniz.eqb second 0.03%float
                            | _ => false
                            end)) in H.
  vm_compute in H. discriminate H.
Qed.

(** ** Session titles *)

Lemma join_nil_cons (chunk : jsstring) (chunks : list jsstring) :
  join [] (chunk :: chunks) = chunk ++ join [] chunks.
Proof. destruct chunks; simpl; by rewrite ?app_nil_r. Qed.

Lemma arrayFromString_unfold (c : N) (rest : jsstring) :
  arrayFromString (c :: rest) =
  match rest with
  | d :: rest' =>
      if isHighSurrogate c && isLowSurrogate d
      then [c; d] :: arrayFromString rest'
      else [c] :: arrayFromString rest
  | [] => [[c]]
  end.
Proof. done. Qed.

Lemma startsLow_arrayFromString (s : jsstring) :
  startsLow (arrayFromString s) = match s with d :: _ => isLowSurrogate d | [] => false end.
Proof.
  destruct s as [|c [|d rest]]; try done.
  rewrite arrayFromString_unfold. by destruct (isHighSurrogate c && isLowSurrogate d).
Qed.

Lemma codePoints_arrayFromString (s : jsstring) :
  codePoints (arrayFromString s) = true.
Proof.
  induction s as [s IH] using (induction_ltof1 _ (@length N)).
  unfold ltof in IH.
  destruct s as [|c [|d rest]]; [done| |].
  - simpl. by rewrite andb_false_r.
  - rewrite arrayFromString_unfold.
    destruct (isHighSurrogate c && isLowSurrogate d) eqn:Hpair.
    + cbn [codePoints]. rewrite Hpair. apply IH. simpl. lia.
    + cbn [codePoints]. rewrite startsLow_arrayFromString, Hpair.
      apply IH. simpl. lia.
Qed.

Lemma arrayFromString_join (chunks : list jsstring) :
  codePoints chunks = true → arrayFromString (join [] chunks) = chunks.
Proof.
  induction chunks as [|chunk rest IH]; [done|].
  cbn [codePoints]. rewrite join_nil_cons. intros [Hchunk Hrest]%andb_true_iff.
  specialize (IH Hrest).
  destruct chunk as [|c [|d [|]]]; try done.
  - (* a single unit *)
    change ([c] ++ join [] rest) with (c :: join [] rest).
    rewrite arrayFromString_unfold.
    destruct (join [] rest) as [|d tail] eqn:Hjoin; [by rewrite <- IH|].
    assert (Hlow : startsLow rest = isLowSurrogate d).
    { rewrite <- IH, startsLow_arrayFromString. done. }
    rewrite Hlow in Hchunk. apply negb_true_iff in Hchunk.
    rewrite Hchunk. by rewrite IH.
  - (* a pair *)
    change ([c; d] ++ join [] rest) with (c :: d :: join [] rest).
    rewrite arrayFromString_unfold, Hchunk. by rewrite IH.
Qed.

Lemma startsLow_take (n : nat) (chunks : list jsstring) :
  startsLow (take n chunks) = true → startsLow chunks = true.
Proof. by destruct n, chunks. Qed.

Lemma codePoints_take (n : nat) (chunks : list jsstring) :
  codePoints chunks = true → codePoints (take n chunks) = true.
Proof.
  revert n. induction chunks as [|chunk rest IH]; intros [|n]; try done.
  cbn [take codePoints]. intros [Hchunk Hrest]%andb_true_iff.
  rewrite (IH n Hrest), andb_true_r.
  destruct chunk as [|c [|d [|]]]; try done.
  destruct (startsLow (take n rest)) eqn:Hlow; [|by rewrite andb_false_r].
  by rewrite (startsLow_take _ _ Hlow) in Hchunk.
Qed.

(** Truncation keeps the first [maxChars] code points, whole. *)
Lemma truncateTextByChars_codePoints (text : jsstring) (maxChars : nat) :
  arrayFromString (truncateTextByChars text maxChars)
  = take maxChars (arrayFromString text).
Proof.
  unfold truncateTextByChars. case_bool_decide as Hlen.
  - by rewrite take_ge.
  - apply arrayFromString_join, codePoints_take, codePoints_arrayFromString.
Qed.

Lemma titleFromContent_truncated (parts : list jsstring) (content : list Json)
    (title : jsstring) :
  titleFromContent parts content = Some title →
  ∃ combined, title = truncateTextByChars combined 180.
Proof.
  revert parts. induction content as [|item content IH]; intros parts; simpl.
  - case_bool_decide; [done|]. intros [= <-]. eauto.
  - destruct (cleanedTextOf item) as [cleaned|]; [|apply IH].
    case_bool_decide; [|apply IH]. intros [= <-]. eauto.
Qed.

Lemma titleFromContent_stops (parts : list jsstring) (content rest : list Json) :
  (length (arrayFromString (join (js " ") parts)) < 180)%nat →
  (180 ≤ length (arrayFromString
                   (join (js " ") (parts ++ omap cleanedTextOf content))))%nat →
  titleFromContent parts (content ++ rest) = titleFromContent parts content.
Proof.
  revert parts. induction content as [|item content IH]; intros parts Hbelow Hreached.
  - simpl in Hreached. rewrite app_nil_r in Hreached. lia.
  - cbn [omap list_omap app titleFromContent] in *.
    destruct (cleanedTextOf item) as [cleaned|]; [|by apply IH].
    case_bool_decide as Hnow; [done|].
    apply IH; [lia|]. by rewrite <- app_assoc.
Qed.

(** C9. A derived title has at most 180 code points; truncation keeps the
    first code points of the text whole, a surrogate pair is never cut; and
    once the cleaned blocks joined so far reach 180 code points, the blocks
    after them do not enter the title. *)
Theorem session_title_truncation :
  (∀ record title,
     firstUserMessageTitleFromRecord record = Some title →
     (length (arrayFromString title) ≤ 180)%nat)
  ∧ (∀ text maxChars,
       arrayFromString (truncateTextByChars text maxChars)
       = take maxChars (arrayFromString text))
  ∧ (∀ content rest,
       (180 ≤ length (arrayFromString
                        (join (js " ") (omap cleanedTextOf content))))%nat →
       titleFromContent [] (content ++ rest) = titleFromContent [] content).
Proof.
  split; [|split].
  - intros record title. unfold firstUserMessageTitleFromRecord.
    destruct (isStringLiteral (getField record (js "type")) (js "user")); [|done].
    destruct (asRecordOrNull (getField record (js "message"))) as [message|]; [|done].
    destruct (isStringLiteral (getField message (js "role")) (js "user")); [|done].
    destruct (asArray (getField message (js "content"))) as [content|]; [|done].
    intros (combined & ->)%titleFromContent_truncated.
    rewrite truncateTextByChars_codePoints, length_take. lia.
  - apply truncateTextByChars_codePoints.
  - intros content rest Hreached.
    apply titleFromContent_stops; [simpl; lia | done].
Qed.

(** The title of [longRecord] ends with the whole pair. *)
Lemma session_title_truncation_witness :
  firstUserMessageTitleFromRecord longRecord = Some longTitle
  ∧ (length (arrayFromString longTitle) ≤ 180)%nat.
Proof.
  split; [by vm_compute|].
  apply (proj1 session_title_truncation longRecord). by vm_compute.
Defined.

(** The three replacements of [normalizeUserPromptText] on a prompt with a
    link, runs of white space and a context tag. *)
Example normalizeUserPromptText_example :
  normalizeUserPromptText
    (js "  see [the docs](http://x)   now <Context>hidden</context> gone")
  = js "see the docs now".
Proof. by vm_compute. Qed.

(** ** Lines *)

Lemma splitLines_cons (c : N) (rest : jsstring) :
  splitLines (c :: rest) =
  if c =? 10 then [] :: splitLines rest
  else
    match rest with
    | d :: rest' =>
        if (c =? 13) && (d =? 10) then [] :: splitLines rest'
        else match splitLines rest with
             | l :: ls => (c :: l) :: ls
             | [] => [[c]]
             end
    | [] => [[c]]
    end.
Proof. done. Qed.

Lemma splitLines_before_line_feed (line rest : jsstring) :
  10 ∉ line →
  splitLines (line ++ 10 :: rest) = dropCarriageReturn line :: splitLines rest.
Proof.
  induction line as [|c line IH]; [done|].
  intros [Hc Hline]%not_elem_of_cons. specialize (IH Hline).
  assert (Hc' : (c =? 10) = false) by (apply N.eqb_neq; congruence).
  cbn [app]. rewrite splitLines_cons, Hc'.
  destruct line as [|d line].
  - cbn [app]. change (10 =? 10) with true. rewrite andb_true_r.
    simpl. by destruct (c =? 13).
  - cbn [app] in *. apply not_elem_of_cons in Hline as [Hd _].
    assert (Hd' : (d =? 10) = false) by (apply N.eqb_neq; congruence).
    rewrite Hd', andb_false_r, IH. done.
Qed.

Lemma splitLines_one_line (line : jsstring) :
  10 ∉ line → splitLines line = [line].
Proof.
  induction line as [|c line IH]; [done|].
  intros [Hc Hline]%not_elem_of_cons. specialize (IH Hline).
  assert (Hc' : (c =? 10) = false) by (apply N.eqb_neq; congruence).
  rewrite splitLines_cons, Hc'.
  destruct line as [|d line]; [done|].
  apply not_elem_of_cons in Hline as [Hd _].
  assert (Hd' : (d =? 10) = false) by (apply N.eqb_neq; congruence).
  by rewrite Hd', andb_false_r, IH.
Qed.

Lemma splitLines_no_line_feed (text : jsstring) :
  Forall (λ line, 10 ∉ line) (splitLines text).
Proof.
  induction text as [text IH] using (induction_ltof1 _ (@length N)).
  unfold ltof in IH.
  destruct text as [|c text]; [repeat constructor; set_solver|].
  rewrite splitLines_cons.
  destruct (c =? 10) eqn:Hc.
  { constructor; [set_solver | apply IH; simpl; lia]. }
  apply N.eqb_neq in Hc.
  destruct text as [|d text]; [repeat constructor; set_solver|].
  destruct ((c =? 13) && (d =? 10)).
  { constructor; [set_solver | apply IH; simpl; lia]. }
  assert (Hrest : Forall (λ line, 10 ∉ line) (splitLines (d :: text)))
    by (apply IH; simpl; lia).
  destruct (splitLines (d :: text)) as [|l ls]; [repeat constructor; set_solver|].
  inversion Hrest; subst. constructor; [set_solver | done].
Qed.

Lemma trimEnd_white_space (s : jsstring) (c : N) :
  isWhiteSpace c = true → trimEnd (s ++ [c]) = trimEnd s.
Proof.
  intros Hc. unfold trimEnd. rewrite reverse_app. simpl. by rewrite Hc.
Qed.

Lemma trim_white_space_end (s : jsstring) (c : N) :
  isWhiteSpace c = true → trim (s ++ [c]) = trim s.
Proof.
  intros Hc. unfold trim. induction s as [|a s IH]; cbn [app trimStart].
  - by rewrite Hc.
  - destruct (isWhiteSpace a); [done|].
    by apply (trimEnd_white_space (a :: s) c).
Qed.

Lemma trim_dropCarriageReturn (line : jsstring) :
  trim (dropCarriageReturn line) = trim line.
Proof.
  assert (H : dropCarriageReturn line = line
              ∨ line = dropCarriageReturn line ++ [13]).
  { induction line as [|c line IH]; [by left|]. simpl.
    destruct line as [|d line].
    - destruct (c =? 13) eqn:Hc; [|by left].
      apply N.eqb_eq in Hc as ->. by right.
    - destruct IH as [-> | IH]; [by left|]. right. by rewrite IH at 1. }
  destruct H as [-> | H]; [done|].
  rewrite H at 2. by rewrite trim_white_space_end.
Qed.

(** Joined with line feeds and split again, lines come back up to a
    carriage return at their end. *)
Lemma splitLines_join (line : jsstring) (lines : list jsstring) :
  Forall (λ line, 10 ∉ line) (line :: lines) →
  Forall2 (λ a b, trim a = trim b)
          (splitLines (join [10] (line :: lines))) (line :: lines).
Proof.
  revert line. induction lines as [|next lines IH]; intros line Hall.
  - inversion Hall; subst. simpl. rewrite splitLines_one_line by done.
    by repeat constructor.
  - inversion Hall as [|? ? Hline Hrest]; subst.
    change (join [10] (line :: next :: lines))
      with (line ++ 10 :: join [10] (next :: lines)).
    rewrite splitLines_before_line_feed by done.
    constructor; [apply trim_dropCarriageReturn | by apply IH].
Qed.

(** ** Replay *)

Section ReplayProperties.
Context `{tooling : Tooling} `{runtime : Runtime}.

Lemma replayLine_skipped (st : ReplayState) (rawLine : jsstring) :
  isRecordLine rawLine = false → replayLine st rawLine = st.
Proof.
  unfold isRecordLine, replayLine. intros Hskip.
  destruct (trim rawLine) as [|c line]; [done|].
  by destruct (JSON_parse (c :: line)) as [[]|].
Qed.

Lemma replay_filter (st : ReplayState) (lines : list jsstring) :
  foldl replayLine st lines
  = foldl replayLine st (List.filter isRecordLine lines).
Proof.
  revert st. induction lines as [|line lines IH]; intros st; [done|].
  simpl. destruct (isRecordLine line) eqn:Hline; simpl; [apply IH|].
  by rewrite replayLine_skipped.
Qed.

Lemma replay_trimmed (st : ReplayState) (lines lines' : list jsstring) :
  Forall2 (λ a b, trim a = trim b) lines lines' →
  foldl replayLine st lines = foldl replayLine st lines'.
Proof.
  intros Hall. revert st.
  induction Hall as [|a b lines lines' Hab _ IH]; intros st; [done|].
  simpl. rewrite <- IH. unfold replayLine. by rewrite Hab.
Qed.

(** C1. The replay of a log returns the updates, in order, that it returns
    for the log with every blank line and every malformed line (one that is
    no JSON or no object) removed. *)
Theorem replay_ignores_skipped_lines (text : jsstring) :
  extractSessionHistoryUpdatesFromJsonl (Some text)
  = extractSessionHistoryUpdatesFromJsonl (Some (withoutSkippedLines text)).
Proof.
  unfold extractSessionHistoryUpdatesFromJsonl, withoutSkippedLines. f_equal.
  rewrite (replay_filter _ (splitLines text)).
  assert (Hkept : Forall (λ line, 10 ∉ line)
                    (List.filter isRecordLine (splitLines text))).
  { apply Forall_forall. intros line Hin.
    apply list_elem_of_In, filter_In in Hin as [Hin _].
    apply list_elem_of_In in Hin.
    by apply (proj1 (Forall_forall _ _) (splitLines_no_line_feed text)). }
  destruct (List.filter isRecordLine (splitLines text)) as [|line lines]; [done|].
  symmetry. apply replay_trimmed. by apply splitLines_join.
Qed.

Lemma replayLine_candidates (st : ReplayState) (rawLine : jsstring) :
  replayLine st rawLine = foldl replayMessage st (candidatesOfLine rawLine).
Proof.
  unfold candidatesOfLine.
  destruct (isRecordLine rawLine) eqn:Hline; [|by apply replayLine_skipped].
  unfold replayLine, isRecordLine in *.
  destruct (trim rawLine) as [|c line]; [done|].
  by destruct (JSON_parse (c :: line)) as [[]|].
Qed.

Lemma replay_messages (st : ReplayState) (lines : list jsstring) :
  foldl replayLine st lines
  = foldl replayMessage st (mjoin (candidatesOfLine <$> lines)).
Proof.
  revert st. induction lines as [|line lines IH]; intros st; [done|].
  cbn [foldl fmap list_fmap mjoin list_join].
  by rewrite foldl_app, <- replayLine_candidates, IH.
Qed.

Lemma Quiet_refl (st : ReplayState) : Quiet st st.
Proof. exists []. by rewrite app_nil_r. Qed.

Lemma usageCount_app {T : Type} (us vs : list (SessionUpdateOf T)) :
  usageCount (us ++ vs) = (usageCount us + usageCount vs)%nat.
Proof. unfold usageCount. by rewrite List.filter_app, length_app. Qed.

Lemma Quiet_trans (st1 st2 st3 : ReplayState) :
  Quiet st1 st2 → Quiet st2 st3 → Quiet st1 st3.
Proof.
  intros (p & Hp & Hcp & Hep) (q & Hq & Hcq & Heq).
  exists (p ++ q). rewrite Hq, Hp, <- app_assoc, usageCount_app, Hcp, Hcq.
  split; [done|]. split; [done|]. congruence.
Qed.

Lemma pushResumeTextChunk_pushed (us : list (SessionUpdateOf nat))
    (role : Role) (text : jsstring) :
  ∃ pushed, pushResumeTextChunk us role text = us ++ pushed
            ∧ usageCount pushed = 0%nat.
Proof.
  unfold pushResumeTextChunk. case_bool_decide.
  - exists []. by rewrite app_nil_r.
  - destruct role; eauto.
Qed.

Lemma pushResumeToolUse_quiet (st : ReplayState) (block : JsObject) :
  Quiet st (pushResumeToolUse st block).
Proof.
  unfold pushResumeToolUse. case_bool_decide; [apply Quiet_refl|].
  by eexists [_].
Qed.

Lemma pushResumeToolResult_quiet (st : ReplayState) (block : JsObject) :
  Quiet st (pushResumeToolResult st block).
Proof.
  unfold pushResumeToolResult. case_bool_decide; [apply Quiet_refl|].
  destruct (toolCalls st !! _) as [address|]; simpl;
    [destruct (objects st !! address)|]; by eexists [_].
Qed.

Lemma replayBlock_quiet (role : Role) (st : ReplayState) (item : Json) :
  Quiet st (replayBlock role st item).
Proof.
  unfold replayBlock.
  destruct (asRecordOrNull (Some item)) as [block|]; [|apply Quiet_refl].
  case_bool_decide; [apply Quiet_refl|].
  destruct (if bool_decide _ then _ else _) as [text|].
  { destruct (pushResumeTextChunk_pushed (updates st) role text) as (p & Hp & Hc).
    by exists p. }
  destruct (isToolUseBlockType _ && _); [apply pushResumeToolUse_quiet|].
  case_bool_decide; [apply pushResumeToolResult_quiet|].
  case_bool_decide; [|apply Quiet_refl].
  destruct (pushResumeTextChunk_pushed (updates st) role (js "[image]"))
    as (p & Hp & Hc).
  by exists p.
Qed.

Lemma replayBlocks_quiet (role : Role) (st : ReplayState) (content : list Json) :
  Quiet st (foldl (replayBlock role) st content).
Proof.
  revert st. induction content as [|item content IH]; intros st.
  - apply Quiet_refl.
  - simpl. eapply Quiet_trans; [apply replayBlock_quiet | apply IH].
Qed.

Lemma built_update_is_usage {T : Type} (session : option UsageSessionContext)
    (message : JsObject) (update : SessionUpdateOf T) :
  (buildUsageUpdateFromResultForSession session message).2 = Some update →
  isUsageUpdate update = true.
Proof.
  unfold buildUsageUpdateFromResultForSession. cbv zeta.
  destruct (observeTotalCost _ _) as [session' turnCostUsd].
  destruct (allUndefined _); [done|]. by intros [= <-].
Qed.

(** What a message adds: nothing but quiet updates, or on top of them one
    [usage_update], with its identifier then seen if it is not empty and was
    not seen before. *)
Lemma replayMessage_usage (st : ReplayState) (message : JsObject) :
  Quiet st (replayMessage st message)
  ∨ (∃ pushed,
       updates (replayMessage st message) = updates st ++ pushed
       ∧ usageCount pushed = 1%nat
       ∧ (messageIdOf message = []
          ∨ messageIdOf message ∉ emittedUsageMessageIds st)
       ∧ emittedUsageMessageIds (replayMessage st message)
         = if bool_decide (messageIdOf message = [])
           then emittedUsageMessageIds st
           else {[messageIdOf message]} ∪ emittedUsageMessageIds st).
Proof.
  unfold replayMessage.
  destruct (match asString (getField message (js "role")) with
            | Some _ => _ | None => _ end) as [role|];
    [|left; apply Quiet_refl].
  set (content := default [] (asArray (getField message (js "content")))).
  destruct (replayBlocks_quiet role st content) as (pushed & Hpushed & Hcount & Hseen).
  set (st1 := foldl (replayBlock role) st content) in *.
  unfold pushResumeUsageUpdate. fold (messageIdOf message).
  match goal with
  | |- context [if ?seen then st1 else _] => destruct seen eqn:Hdup
  end.
  { left. by exists pushed. }
  destruct (buildUsageUpdateFromResult message) as [usageUpdate|] eqn:Hbuild;
    [|left; by exists pushed].
  right. exists (pushed ++ [usageUpdate]). cbn [updates emittedUsageMessageIds].
  rewrite Hpushed, <- app_assoc, usageCount_app, Hcount, Hseen.
  split; [done|]. split.
  - unfold usageCount, buildUsageUpdateFromResult in *. cbn [List.filter].
    by rewrite (built_update_is_usage _ _ _ Hbuild).
  - split; [|done].
    apply andb_false_iff in Hdup as [Hid | Hin].
    + left. apply negb_false_iff, bool_decide_eq_true in Hid. done.
    + right. rewrite <- Hseen. by apply bool_decide_eq_false in Hin.
Qed.

Lemma pushedBetween_app (st st' : ReplayState) (pushed : list (SessionUpdateOf nat)) :
  updates st' = updates st ++ pushed → pushedBetween st st' = pushed.
Proof. unfold pushedBetween. intros ->. apply drop_app_length. Qed.

(** From any state, an identifier that is not empty gets no [usage_update]
    once it is seen, and one at most before. *)
Lemma usageUpdatesFor_bound (id : jsstring) (st : ReplayState)
    (messages : list JsObject) :
  id ≠ [] →
  (usageUpdatesFor id st messages
   ≤ if bool_decide (id ∈ emittedUsageMessageIds st) then 0 else 1)%nat.
Proof.
  intros Hid. revert st.
  induction messages as [|message messages IH]; intros st.
  { simpl. case_bool_decide; lia. }
  cbn [usageUpdatesFor]. specialize (IH (replayMessage st message)).
  destruct (replayMessage_usage st message)
    as [(pushed & Hpushed & Hcount & Hseen)
       | (pushed & Hpushed & Hcount & Hnew & Hseen)];
    rewrite (pushedBetween_app _ _ _ Hpushed), Hcount; rewrite Hseen in IH.
  - destruct (bool_decide (asString _ = Some id)); lia.
  - destruct (decide (asString (getField message (js "id")) = Some id))
      as [Hthis | Hother].
    + assert (Hmid : messageIdOf message = id)
        by (unfold messageIdOf; by rewrite Hthis).
      rewrite Hmid in IH, Hnew.
      rewrite (bool_decide_eq_true_2 _ Hthis).
      rewrite (bool_decide_eq_false_2 (id = [])) in IH by done.
      rewrite bool_decide_eq_true_2 in IH by set_solver.
      destruct Hnew as [Hnil | Hnew]; [done|].
      rewrite (bool_decide_eq_false_2 (id ∈ _)) by done. lia.
    + rewrite (bool_decide_eq_false_2 _ Hother).
      destruct (bool_decide (messageIdOf message = [])); [lia|].
      destruct (decide (id ∈ emittedUsageMessageIds st)) as [Hin | Hout].
      * rewrite (bool_decide_eq_true_2 (id ∈ emittedUsageMessageIds st)) by done.
        rewrite bool_decide_eq_true_2 in IH by set_solver. lia.
      * rewrite (bool_decide_eq_false_2 (id ∈ emittedUsageMessageIds st)) by done.
        destruct (bool_decide _) in IH; lia.
Qed.

(** C3, amended. The replay of a log is the replay of its message candidates
    in order, and for every identifier that is a string and not empty, at most
    one [usage_update] is pushed at the messages with that identifier, however
    many lines repeat it. *)
Theorem usage_update_once_per_identifier (text : jsstring) :
  foldl replayLine initialReplayState (splitLines text)
  = foldl replayMessage initialReplayState (messagesOfLog text)
  ∧ ∀ id, id ≠ [] →
      (usageUpdatesFor id initialReplayState (messagesOfLog text) ≤ 1)%nat.
Proof.
  split; [apply replay_messages|].
  intros id Hid.
  by apply (usageUpdatesFor_bound id initialReplayState (messagesOfLog text)).
Qed.

Lemma replayBlock_addresses (role : Role) (st : ReplayState) (item : Json) :
  AddressesValid st → AddressesValid (replayBlock role st item).
Proof.
  intros Hvalid. unfold replayBlock.
  destruct (asRecordOrNull (Some item)) as [block|]; [|done].
  case_bool_decide; [done|].
  destruct (if bool_decide _ then _ else _) as [text|]; [done|].
  destruct (isToolUseBlockType _ && _).
  { unfold pushResumeToolUse. case_bool_decide; [done|].
    intros id address. cbn [toolCalls objects]. rewrite length_app. simpl.
    destruct (decide (default [] (asString (getField block (js "id"))) = id))
      as [<- | Hne].
    - rewrite lookup_insert_eq. intros [= <-]. lia.
    - rewrite lookup_insert_ne by done. intros Hin%Hvalid. lia. }
  case_bool_decide; [|by case_bool_decide].
  unfold pushResumeToolResult. case_bool_decide; [done|].
  destruct (toolCalls st !! _) as [address|]; simpl; [|done].
  destruct (objects st !! address); [|done].
  intros id a. cbn [toolCalls objects]. rewrite length_insert. apply Hvalid.
Qed.

Lemma reachable_addresses (st : ReplayState) :
  Reachable st → AddressesValid st.
Proof.
  induction 1 as [|role st item _ IH|st message _ IH].
  - intros id address. unfold initialReplayState. cbn [toolCalls].
    by rewrite lookup_empty.
  - by apply replayBlock_addresses.
  - unfold pushResumeUsageUpdate.
    destruct (negb _ && _); [done|].
    by destruct (buildUsageUpdateFromResult message).
Qed.

Lemma reachable_blocks (role : Role) (st : ReplayState) (content : list Json) :
  Reachable st → Reachable (foldl (replayBlock role) st content).
Proof.
  revert st. induction content as [|item content IH]; intros st Hst; [done|].
  simpl. apply IH. by constructor.
Qed.

Lemma reachable_messages (st : ReplayState) (messages : list JsObject) :
  Reachable st → Reachable (foldl replayMessage st messages).
Proof.
  revert st. induction messages as [|message messages IH]; intros st Hst; [done|].
  simpl. apply IH. unfold replayMessage.
  destruct (match asString (getField message (js "role")) with
            | Some _ => _ | None => _ end) as [role|]; [|done].
  constructor. by apply reachable_blocks.
Qed.

Lemma reachable_lines (lines : list jsstring) :
  Reachable (foldl replayLine initialReplayState lines).
Proof.
  rewrite replay_messages. apply reachable_messages. constructor.
Qed.

(** C4, amended. A tool-result block whose [tool_use_id] is a string and not
    empty always pushes one [tool_call_update] with the result fields, built
    from the block's error flag and content and from the open call of that id
    when there is one. With an open call, the status, and the raw output and
    content when the fields have them, are written to the stored call; without
    one nothing but [updates] changes. A block without such an id pushes
    nothing and changes nothing. In the loop over the blocks of a message, a
    block of a tool-result type gets there unless an earlier test takes it.
    In a state that a replay goes through, every entry of the lookup table is
    the address of a stored call: there is an open call exactly when the table
    has the id. *)
Theorem tool_result_update_emitted (st : ReplayState) (block : JsObject) :
  let st' := pushResumeToolResult st block in
  match asString (getField block (js "tool_use_id")) with
  | Some (c :: id') =>
      let id := c :: id' in
      let base := toolCalls st !! id ≫= λ address, objects st !! address in
      let fields :=
        buildToolResultFields (truthy (getField block (js "is_error")))
          (getField block (js "content")) base in
      updates st' = updates st ++ [tool_call_update id fields]
      ∧ toolCalls st' = toolCalls st
      ∧ emittedUsageMessageIds st' = emittedUsageMessageIds st
      ∧ match base with
        | Some call =>
            ∃ address,
              toolCalls st !! id = Some address
              ∧ objects st'
                = <[address :=
                      {| tc_id := tc_id call; tc_name := tc_name call;
                         tc_input := tc_input call;
                         tc_status := default (tc_status call) (f_status fields);
                         tc_raw_output :=
                           if truthy (f_raw_output fields)
                           then f_raw_output fields else tc_raw_output call;
                         tc_content :=
                           if truthy (f_content fields)
                           then f_content fields else tc_content call |}]>
                  (objects st)
        | None => objects st' = objects st
        end
  | _ => st' = st
  end
  ∧ (∀ role,
      let blockType := default [] (asString (getField block (js "type"))) in
      blockType ∈ TOOL_RESULT_TYPES →
      blockType ≠ js "thinking" →
      blockType ≠ js "text" →
      isToolUseBlockType blockType && bool_decide (role = RoleAssistant) = false →
      replayBlock role st (JObj block) = pushResumeToolResult st block)
  ∧ (Reachable st →
     ∀ id address, toolCalls st !! id = Some address →
                   is_Some (objects st !! address)).
Proof.
  split; [|split].
  - unfold pushResumeToolResult.
    destruct (asString (getField block (js "tool_use_id"))) as [[|c id']|];
      [done| |done].
    change (default [] (Some (c :: id'))) with (c :: id'). cbv zeta.
    rewrite bool_decide_eq_false_2 by done.
    destruct (toolCalls st !! (c :: id')) as [address|] eqn:Haddress;
      cbn [mbind option_bind]; [|by repeat split].
    destruct (objects st !! address) as [call|] eqn:Hcall; [|by repeat split].
    repeat split. by exists address.
  - intros role blockType Hresult Hthinking Htext Huse.
    unfold replayBlock. cbn [asRecordOrNull]. fold blockType.
    rewrite (bool_decide_eq_false_2 (blockType = js "thinking")) by done.
    rewrite (bool_decide_eq_false_2 (blockType = js "text")) by done.
    rewrite Huse. by rewrite bool_decide_eq_true_2.
  - intros Hreach id address Hin. apply lookup_lt_is_Some.
    by apply (reachable_addresses st Hreach id).
Qed.

End ReplayProperties.

(** ** The replay on concrete logs *)

(** The five lines of [exampleLog] replay as its two messages do, and the
    identifier they share gets one [usage_update]. *)
Example replay_exampleLog :
  @extractSessionHistoryUpdatesFromJsonl exampleTooling jsonRuntime (Some exampleLog)
  = [ user_message_chunk (js "hello"); usage_update oneInputToken;
      user_message_chunk (js "again") ]
  ∧ @withoutSkippedLines jsonRuntime exampleLog
    = jsonText (exampleLine "m1" "{'type':'text','text':'hello'}") ++ [10]
      ++ jsonText (exampleLine "m1" "{'type':'text','text':'again'}").
Proof. split; by vm_compute. Qed.

(** The stored call and the [tool_call] update are one object: read after
    the replay, the update shows the merged result. *)
Example replay_toolLog :
  @extractSessionHistoryUpdatesFromJsonl exampleTooling jsonRuntime (Some toolLog)
  = [ tool_call {| tc_id := js "t1"; tc_name := js "Read"; tc_input := [];
                   tc_status := js "completed";
                   tc_raw_output := Some (JStr (js "done"));
                   tc_content := None |};
      tool_call_update (js "t1")
        {| f_status := Some (js "completed");
           f_raw_output := Some (JStr (js "done")); f_content := None |} ].
Proof. by vm_compute. Qed.

(** C3 at the identifier that [exampleLog] repeats. *)
Lemma usage_update_once_per_identifier_witness :
  (@usageUpdatesFor exampleTooling (js "m1") initialReplayState
     (@messagesOfLog jsonRuntime exampleLog) ≤ 1)%nat.
Proof.
  apply (proj2 (@usage_update_once_per_identifier exampleTooling jsonRuntime
                  exampleLog)).
  discriminate.
Defined.

(** C3 as the claim words it fails at the empty string: each of the two
    messages of [emptyIdLog] gets its [usage_update]. *)
Lemma empty_identifier_not_deduplicated :
  @extractSessionHistoryUpdatesFromJsonl exampleTooling jsonRuntime (Some emptyIdLog)
  = [usage_update oneInputToken; usage_update oneInputToken]
  ∧ ¬ (@usageUpdatesFor exampleTooling [] initialReplayState
         (@messagesOfLog jsonRuntime emptyIdLog) ≤ 1)%nat.
Proof.
  split; [by vm_compute|].
  assert (H : @usageUpdatesFor exampleTooling [] initialReplayState
                (@messagesOfLog jsonRuntime emptyIdLog) = 2%nat) by (by vm_compute).
  rewrite H. lia.
Qed.

(** C4 at a result for a call that was never opened: the update is pushed,
    nothing else changes. *)
Lemma tool_result_update_emitted_witness :
  updates (@pushResumeToolResult exampleTooling initialReplayState orphanResultBlock)
  = [ tool_call_update (js "t9")
        {| f_status := Some (js "completed");
           f_raw_output := Some (JStr (js "done")); f_content := None |} ]
  ∧ objects (@pushResumeToolResult exampleTooling initialReplayState orphanResultBlock)
    = [].
Proof.
  pose proof (proj1 (@tool_result_update_emitted exampleTooling
                       initialReplayState orphanResultBlock)) as H.
  cbv zeta in H. cbn [asString getField orphanResultBlock] in H.
  split; [apply H | apply H].
Defined.

(** C4 as the claim words it fails at a tool-result block without a
    [tool_use_id]: the replay meets the block and pushes nothing. *)
Lemma unreferenced_result_not_emitted :
  @extractSessionHistoryUpdatesFromJsonl exampleTooling jsonRuntime
    (Some unreferencedResultLog)
  = [].
Proof. by vm_compute. Qed.

(** ** Permissions on concrete prompts *)

(** C7 at an option id that no branch knows, and at the specification's
    [allow_once] example. *)
Lemma permission_result_defined_witness :
  permissionResultFromOutcome (Selected (js "allow_never")) (js "t1")
    [(js "path", JStr (js "x"))] None None
  = Deny (js "Permission denied") (js "t1")
  ∧ permissionResultFromOutcome (Selected (js "allow_once")) (js "t1")
      [(js "path", JStr (js "x"))] None None
    = Allow [(js "path", JStr (js "x"))] None (js "t1").
Proof.
  pose proof (permission_result_defined Cancelled (js "t1")
                [(js "path", JStr (js "x"))] None None) as (_ & _ & Honce & Hother).
  split; [|exact Honce].
  apply Hother. rewrite !not_elem_of_cons.
  repeat (split; [intros H; vm_compute in H; discriminate H|]).
  apply not_elem_of_nil.
Defined.

(** The menus of the specification: session suggestions only, and a
    suggestion for a settings file among them. *)
Example permission_menu_examples :
  option_id <$> permissionOptionsFromSuggestions
                  (Some [ModeUpdate (js "acceptEdits") (js "session")])
  = [js "allow_once"; js "allow_session"; js "reject_once"]
  ∧ option_id <$> permissionOptionsFromSuggestions
                    (Some [ModeUpdate (js "acceptEdits") (js "session");
                           DirectoriesUpdate (js "addDirectories") [js "/tmp"]
                             (js "localSettings")])
    = [js "allow_once"; js "allow_always"; js "reject_once"]
  ∧ option_id <$> permissionOptionsFromSuggestions None
    = [js "allow_once"; js "allow_always"; js "reject_once"].
Proof. repeat split; by vm_compute. Qed.

(** The second chunk of a prompt is no object: the error names its index. *)
Example parse_prompt_chunk_index :
  @parseCommandEnvelope jsonRuntime
    (jsonText "{'command':'prompt','session_id':'s1','chunks':[{'kind':'text'},7]}")
  = Thrown (Error (js "prompt.chunks[1] must be an object")).
Proof. by vm_compute. Qed.

(** The error is that of the field that offends, not of one before it: a
    [set_model] whose [session_id] is a string and whose [model] is a number
    is reported on [model], and the requirement that is first not met is that
    one. *)
Example offending_field_is_named :
  @parseCommandEnvelope jsonRuntime
    (jsonText "{'command':'set_model','session_id':'s','model':7}")
  = Thrown (Error (js "set_model.model must be a string"))
  ∧ firstUnmet
      (JObj [ (js "command", JStr (js "set_model"));
              (js "session_id", JStr (js "s")); (js "model", JNum 7%float) ])
      (requirementsOf
         (JObj [ (js "command", JStr (js "set_model"));
                 (js "session_id", JStr (js "s")); (js "model", JNum 7%float) ]))
    = Some (CommandKey (js "model"), AString)
  ∧ @parseCommandEnvelope jsonRuntime
      (jsonText "{'command':'permission_response','outcome':{'outcome':'selected'},'session_id':7}")
    = Thrown (Error (js "permission_response.outcome.option_id must be a string")).
Proof. repeat split; by vm_compute. Qed.

(** * Further properties *)

(** ** Permission modes *)

(** X1. A string is a permission mode exactly when it is one of the five
    mode strings, and the state built for a mode agrees with the list it
    offers: the list has one entry with the current id, and its name is the
    current name; every offered id is a mode. *)
Theorem mode_state_agrees_with_options (mode : PermissionMode) (s : jsstring) :
  (toPermissionMode s = Some mode ↔ s = modeString mode)
  ∧ (∃ description,
       List.filter (λ info, bool_decide
                              (mode_id info = current_mode_id (buildModeState mode)))
                   (available_modes (buildModeState mode))
       = [mkModeInfo (modeString mode)
                     (current_mode_name (buildModeState mode)) description])
  ∧ Forall (λ info, is_Some (toPermissionMode (mode_id info)))
           (available_modes (buildModeState mode)).
Proof.
  split; [|split].
  - split.
    + unfold toPermissionMode.
      repeat (case_bool_decide; [subst s; by intros [= <-]|]). done.
    + intros ->. by destruct mode.
  - destruct mode; eexists; by vm_compute.
  - cbn [buildModeState available_modes]. unfold MODE_OPTIONS.
    repeat (constructor; [eexists; vm_compute; reflexivity|]). constructor.
Qed.

(** ** Permission suggestions *)

Lemma scopes_are_complements (u : PermissionUpdate) :
  isSessionScoped u = negb (isPersistentScoped u).
Proof.
  destruct (scopes_of_destination u) as [-> ->].
  by destruct (bool_decide (destination u ∈ SESSION_PERMISSION_DESTINATIONS)),
              (bool_decide (destination u ∈ PERSISTENT_PERMISSION_DESTINATIONS)).
Qed.

Lemma filter_complement_permutation {A : Type} (f g : A → bool) (l : list A) :
  (∀ x, f x = negb (g x)) →
  List.filter f l ++ List.filter g l ≡ₚ l.
Proof.
  intros Hfg. induction l as [|x l IH]; [done|].
  simpl. rewrite Hfg. destruct (g x); simpl.
  - rewrite <- Permutation_middle. by constructor.
  - by constructor.
Qed.

Lemma filter_sublist {A : Type} (f : A → bool) (l : list A) :
  List.filter f l `sublist_of` l.
Proof.
  induction l as [|x l IH]; [done|]. simpl.
  destruct (f x); by constructor.
Qed.

(** X2. Splitting suggestions by scope loses and repeats nothing: the two
    lists together are a rearrangement of the suggestions, each keeps the
    order of the suggestions, and no suggestion of one list has the scope of
    the other. *)
Theorem split_is_partition (suggestions : option (list PermissionUpdate)) :
  let scoped := splitPermissionSuggestionsByScope suggestions in
  session scoped ++ persistent scoped ≡ₚ default [] suggestions
  ∧ session scoped `sublist_of` default [] suggestions
  ∧ persistent scoped `sublist_of` default [] suggestions
  ∧ Forall (λ u, destination u ∉ PERSISTENT_PERMISSION_DESTINATIONS)
           (session scoped)
  ∧ Forall (λ u, destination u ∈ PERSISTENT_PERMISSION_DESTINATIONS)
           (persistent scoped).
Proof.
  intros scoped. subst scoped. rewrite split_filter. cbn [session persistent].
  split; [apply filter_complement_permutation, scopes_are_complements|].
  split; [apply filter_sublist|]. split; [apply filter_sublist|].
  split; apply Forall_forall; intros u [_ Hu]%list_elem_of_In%filter_In.
  - rewrite scopes_are_complements in Hu. apply negb_true_iff in Hu.
    unfold isPersistentScoped in Hu. by apply bool_decide_eq_false in Hu.
  - unfold isPersistentScoped in Hu. by apply bool_decide_eq_true in Hu.
Qed.

Lemma session_rule_is_session_scoped (tool : jsstring) :
  destination (sessionRuleFor tool) ∉ PERSISTENT_PERMISSION_DESTINATIONS.
Proof.
  unfold PERSISTENT_PERMISSION_DESTINATIONS. cbn [sessionRuleFor destination].
  rewrite !not_elem_of_cons.
  repeat (split; [intros H; vm_compute in H; discriminate H|]).
  apply not_elem_of_nil.
Qed.

Lemma filter_session_not_persistent (l : list PermissionUpdate) :
  Forall (λ u, destination u ∉ PERSISTENT_PERMISSION_DESTINATIONS)
         (List.filter isSessionScoped l).
Proof.
  apply Forall_forall. intros u [_ Hu]%list_elem_of_In%filter_In.
  rewrite scopes_are_complements in Hu. apply negb_true_iff in Hu.
  unfold isPersistentScoped in Hu. by apply bool_decide_eq_false in Hu.
Qed.

Lemma filter_persistent_is_persistent (l : list PermissionUpdate) :
  Forall (λ u, destination u ∈ PERSISTENT_PERMISSION_DESTINATIONS)
         (List.filter isPersistentScoped l).
Proof.
  apply Forall_forall. intros u [_ Hu]%list_elem_of_In%filter_In.
  unfold isPersistentScoped in Hu. by apply bool_decide_eq_true in Hu.
Qed.

(** X3. A permission result keeps the tool call id, an allow result keeps
    the input, and what it attaches is never an empty list. Only
    [allow_session] and [allow_always] attach: the first never an update for
    a settings file, the second only updates for settings files, all of them
    suggestions that were given. *)
Theorem attached_updates_respect_scope
    (outcome : PermissionOutcome) (toolCallId : jsstring) (inputData : JsObject)
    (suggestions : option (list PermissionUpdate)) (toolName : option jsstring) :
  match permissionResultFromOutcome outcome toolCallId inputData suggestions
          toolName with
  | Deny _ id => id = toolCallId
  | Allow input attached id =>
      input = inputData ∧ id = toolCallId
      ∧ match attached with
        | None => True
        | Some updates =>
            updates ≠ []
            ∧ ((outcome = Selected (js "allow_session")
                ∧ Forall (λ u, destination u ∉ PERSISTENT_PERMISSION_DESTINATIONS)
                         updates)
               ∨ (outcome = Selected (js "allow_always")
                  ∧ Forall (λ u, destination u ∈ PERSISTENT_PERMISSION_DESTINATIONS)
                           updates
                  ∧ updates `sublist_of` default [] suggestions))
        end
  end.
Proof.
  unfold permissionResultFromOutcome. rewrite split_filter.
  cbn [session persistent].
  destruct outcome as [id|]; [|done].
  destruct (decide (id = js "allow_once")) as [->|Honce].
  { by rewrite bool_decide_eq_true_2. }
  rewrite (bool_decide_eq_false_2 _ Honce).
  destruct (decide (id = js "allow_session")) as [->|Hsession].
  { rewrite bool_decide_eq_true_2 by done.
    repeat split.
    destruct (List.filter isSessionScoped (default [] suggestions))
      as [|u us] eqn:Hfilter; cbn [length bool_decide attachWhenNonEmpty].
    - rewrite bool_decide_eq_false_2 by (simpl; lia).
      destruct (truthy (JStr <$> toolName)); [|done]. simpl.
      split; [done|]. left. split; [done|].
      repeat constructor. apply session_rule_is_session_scoped.
    - rewrite bool_decide_eq_true_2 by (simpl; lia). simpl.
      split; [done|]. left. split; [done|].
      rewrite <- Hfilter. apply filter_session_not_persistent. }
  rewrite (bool_decide_eq_false_2 _ Hsession).
  destruct (decide (id = js "allow_always")) as [->|Halways].
  { rewrite bool_decide_eq_true_2 by done.
    repeat split.
    destruct (List.filter isPersistentScoped (default [] suggestions))
      as [|u us] eqn:Hfilter; [done|]. simpl.
    split; [done|]. right. split; [done|].
    rewrite <- Hfilter.
    split; [apply filter_persistent_is_persistent | apply filter_sublist]. }
  by rewrite (bool_decide_eq_false_2 _ Halways).
Qed.

Lemma filter_all {A : Type} (f : A → bool) (l : list A) :
  forallb f l = true → List.filter f l = l.
Proof.
  induction l as [|x l IH]; [done|]. simpl.
  destruct (f x); [|done]. simpl. intros H. by rewrite IH.
Qed.

Lemma filter_none {A : Type} (f : A → bool) (l : list A) :
  existsb f l = false → List.filter f l = [].
Proof.
  induction l as [|x l IH]; [done|]. simpl.
  destruct (f x); [done|]. simpl. apply IH.
Qed.

(** X4. Every option of the menu made from some suggestions has its branch
    when the result is made from the same suggestions. The first option
    allows and attaches nothing, the last one denies. When the menu offers
    "Allow for session", choosing it attaches all the suggestions, as given.
    When it offers "Always allow", choosing it attaches the suggestions for
    settings files, and nothing only when no suggestion was given at all. *)
Theorem offered_options_are_handled
    (toolCallId : jsstring) (inputData : JsObject)
    (suggestions : option (list PermissionUpdate)) (toolName : option jsstring) :
  let resultOf option :=
    permissionResultFromOutcome (Selected (option_id option)) toolCallId
      inputData suggestions toolName in
  let given := default [] suggestions in
  ∃ once broader deny,
    permissionOptionsFromSuggestions suggestions = [once; broader; deny]
    ∧ resultOf once = Allow inputData None toolCallId
    ∧ resultOf deny = Deny (js "Permission denied") toolCallId
    ∧ ((option_id broader = js "allow_session"
        ∧ resultOf broader = Allow inputData (Some given) toolCallId)
       ∨ (option_id broader = js "allow_always"
          ∧ ∃ attached,
              resultOf broader = Allow inputData attached toolCallId
              ∧ match attached with
                | Some updates => updates = List.filter isPersistentScoped given
                | None => given = []
                end)).
Proof.
  intros resultOf given. subst resultOf.
  unfold permissionOptionsFromSuggestions, permissionResultFromOutcome.
  rewrite split_filter. cbn [session persistent]. fold given.
  rewrite !nonempty_filter_existsb.
  do 3 eexists. split; [reflexivity|]. cbn [option_id].
  split; [done|]. split; [done|].
  destruct (existsb isPersistentScoped given) eqn:Hpersistent.
  - right. rewrite andb_false_r. split; [done|].
    change (bool_decide (js "allow_always" = js "allow_once")) with false.
    change (bool_decide (js "allow_always" = js "allow_session")) with false.
    change (bool_decide (js "allow_always" = js "allow_always")) with true.
    cbn match.
    destruct (List.filter isPersistentScoped given) as [|u us] eqn:Hfilter.
    + apply (f_equal (λ l, bool_decide (0 < length l)%nat)) in Hfilter.
      rewrite nonempty_filter_existsb, Hpersistent in Hfilter. done.
    + by eexists.
  - rewrite andb_true_r.
    destruct (existsb isSessionScoped given) eqn:Hsession.
    + left. split; [done|].
      change (bool_decide (js "allow_session" = js "allow_once")) with false.
      change (bool_decide (js "allow_session" = js "allow_session")) with true.
      cbn match.
      assert (Hall : List.filter isSessionScoped given = given).
      { apply filter_all. clear -Hpersistent.
        induction given as [|u us IH]; [done|]. simpl in *.
        rewrite scopes_are_complements.
        destruct (isPersistentScoped u); [done|]. by apply IH. }
      rewrite Hall. by destruct given.
    + right. split; [done|].
      change (bool_decide (js "allow_always" = js "allow_once")) with false.
      change (bool_decide (js "allow_always" = js "allow_session")) with false.
      change (bool_decide (js "allow_always" = js "allow_always")) with true.
      cbn match. rewrite (filter_none _ _ Hpersistent). cbn.
      exists None. split; [done|].
      destruct given as [|u us]; [done|].
      simpl in Hsession, Hpersistent. rewrite scopes_are_complements in Hsession.
      by destruct (isPersistentScoped u).
Qed.

Lemma colon_in_formatted_update (update : PermissionUpdate) :
  58 ∈ formatPermissionUpdate update.
Proof.
  destruct update; cbn [formatPermissionUpdate];
    rewrite !elem_of_app; right; left; by vm_compute; constructor.
Qed.

Lemma elem_of_join_head (sep part : jsstring) (parts : list jsstring) (c : N) :
  c ∈ part → c ∈ join sep (part :: parts).
Proof.
  intros Hc. destruct parts; simpl; [done|]. rewrite elem_of_app. by left.
Qed.

(** X5. The rendering of permission updates is the marker ["<none>"]
    exactly when there is no update to render: a rendered list always has a
    colon, the marker has none. *)
Theorem none_marker_means_no_update (updates : option (list PermissionUpdate)) :
  formatPermissionUpdates updates = js "<none>" ↔ default [] updates = [].
Proof.
  split.
  - destruct updates as [[|u us]|]; [done| |done].
    cbn [formatPermissionUpdates]. intros Hnone. exfalso.
    assert (Hcolon : 58 ∈ js "<none>").
    { rewrite <- Hnone. rewrite fmap_cons.
      apply elem_of_join_head, colon_in_formatted_update. }
    vm_compute in Hcolon. set_solver.
  - by destruct updates as [[|u us]|].
Qed.

(** ** Usage accounting, further *)

(** X6. [numberField] gives the number under the first of the keys that
    holds a finite number, and nothing when no key holds one: a key earlier in
    the list wins, and a NaN or an infinity is passed over like a missing
    key. *)
Theorem numberField_first_finite (record : JsObject) (keys : list jsstring) :
  match numberField record keys with
  | Some x =>
      is_finite x = true
      ∧ ∃ before key after,
          keys = before ++ key :: after
          ∧ getField record key = Some (JNum x)
          ∧ Forall (noNumberAt record) before
  | None => Forall (noNumberAt record) keys
  end.
Proof.
  induction keys as [|key keys IH]; [by constructor|].
  cbn [numberField].
  destruct (getField record key) as [[| |x| | |]|] eqn:Hkey;
    try (destruct (numberField record keys) as [y|];
         [ destruct IH as (Hy & before & k & after & -> & Hk & Hbefore);
           split; [done|]; exists (key :: before), k, after;
           split; [done|]; split; [done|]; constructor; [|done];
           intros z; by rewrite Hkey
         | constructor; [|done]; intros z; by rewrite Hkey ]).
  destruct (is_finite x) eqn:Hx.
  - split; [done|]. exists [], key, keys. by repeat split.
  - destruct (numberField record keys) as [y|].
    + destruct IH as (Hy & before & k & after & -> & Hk & Hbefore).
      split; [done|]. exists (key :: before), k, after.
      split; [done|]. split; [done|]. constructor; [|done].
      intros z. rewrite Hkey. by intros [= <-].
    + constructor; [|done]. intros z. rewrite Hkey. by intros [= <-].
Qed.

Lemma jsstring_ltb_cons (x y : N) (a b : jsstring) :
  jsstring_ltb (x :: a) (y :: b) = true
  ↔ x < y ∨ (x = y ∧ jsstring_ltb a b = true).
Proof.
  simpl. by rewrite orb_true_iff, andb_true_iff, N.ltb_lt, N.eqb_eq.
Qed.

Lemma jsstring_ltb_trans (a b c : jsstring) :
  jsstring_ltb a b = true → jsstring_ltb b c = true → jsstring_ltb a c = true.
Proof.
  revert b c. induction a as [|x a IH]; intros [|y b] [|z c]; try done.
  rewrite !jsstring_ltb_cons.
  intros [Hxy | [-> Hab]] [Hyz | [-> Hbc]]; try (left; lia).
  right. split; [done|]. by apply (IH b c).
Qed.

Lemma jsstring_ltb_asym (a b : jsstring) :
  jsstring_ltb a b = true → jsstring_ltb b a = false.
Proof.
  revert b. induction a as [|x a IH]; intros [|y b]; try done.
  intros Hab. apply not_true_is_false. revert Hab.
  rewrite !jsstring_ltb_cons.
  intros [Hxy | [-> Hab]] [Hyx | [Heq Hba]]; try lia.
  by rewrite (IH b Hab) in Hba.
Qed.

Lemma elem_of_insertSorted (x k : jsstring) (l : list jsstring) :
  x ∈ insertSorted k l ↔ x = k ∨ x ∈ l.
Proof.
  induction l as [|y l IH]; simpl; [set_solver|].
  destruct (jsstring_ltb k y); set_solver.
Qed.

Lemma elem_of_sortStrings (x : jsstring) (l : list jsstring) :
  x ∈ sortStrings l ↔ x ∈ l.
Proof.
  unfold sortStrings. induction l as [|y l IH]; simpl; [done|].
  rewrite elem_of_insertSorted, IH. set_solver.
Qed.

Lemma Ascending_cons (k : jsstring) (l : list jsstring) :
  Forall (λ later, jsstring_ltb later k = false) l → Ascending l →
  Ascending (k :: l).
Proof.
  intros Hk Hl [|b before] x after; cbn [app]; intros [= -> Heq]; subst.
  - done.
  - by eapply Hl.
Qed.

Lemma Ascending_tail (k : jsstring) (l : list jsstring) :
  Ascending (k :: l) →
  Forall (λ later, jsstring_ltb later k = false) l ∧ Ascending l.
Proof.
  intros H. split; [by apply (H [] k l)|].
  intros before x after ->. by apply (H (k :: before) x after).
Qed.

Lemma insertSorted_ascending (k : jsstring) (l : list jsstring) :
  Ascending l → Ascending (insertSorted k l).
Proof.
  induction l as [|y l IH]; intros Hl; simpl.
  { apply Ascending_cons; [constructor | done]. }
  destruct (Ascending_tail _ _ Hl) as [Hy Htail].
  destruct (jsstring_ltb k y) eqn:Hky.
  - apply Ascending_cons; [|done]. constructor.
    + by apply jsstring_ltb_asym.
    + eapply Forall_impl; [exact Hy|]. intros later Hlater. simpl in Hlater.
      apply not_true_is_false. intros Hlk.
      by rewrite (jsstring_ltb_trans _ _ _ Hlk Hky) in Hlater.
  - apply Ascending_cons; [|by apply IH].
    apply Forall_forall. intros later [-> | Hin]%elem_of_insertSorted; [done|].
    by apply (proj1 (Forall_forall _ _) Hy).
Qed.

Lemma sortStrings_ascending (l : list jsstring) : Ascending (sortStrings l).
Proof.
  unfold sortStrings. induction l as [|k l IH]; simpl.
  - by intros [|? ?] ? ? ?.
  - by apply insertSorted_ascending.
Qed.

Lemma getField_key (record : JsObject) (key : jsstring) (value : Json) :
  getField record key = Some value → key ∈ objectKeys record.
Proof.
  unfold objectKeys. induction record as [|[k v] record IH]; [done|].
  simpl. case_bool_decide as Hk; [subst; set_solver|].
  intros Hrest%IH. set_solver.
Qed.

Lemma key_getField (record : JsObject) (key : jsstring) :
  key ∈ objectKeys record → is_Some (getField record key).
Proof.
  unfold objectKeys. induction record as [|[k v] record IH]; [set_solver|].
  cbn [fmap list_fmap fst getField]. case_bool_decide as Hk; [by eauto|].
  intros Hin. apply IH. set_solver.
Qed.

(** What a key holds: a record of its own, or for [__proto__] what every
    object inherits. *)
Lemma recordUnder_cases (usageMap : JsObject) (key : jsstring)
    (usage : JsObject) :
  recordUnder usageMap key = Some usage →
  getField usageMap key = Some (JObj usage)
  ∨ (key = js "__proto__" ∧ getField usageMap key = None ∧ usage = []).
Proof.
  unfold recordUnder. destruct (getField usageMap key) as [[]|]; cbn;
    try done.
  - intros [= <-]. by left.
  - case_bool_decide; [|done]. intros [= <-]. by right.
Qed.

Lemma recordUnder_own (usageMap : JsObject) (key : jsstring) :
  key ∈ objectKeys usageMap →
  recordUnder usageMap key = asRecordOrNull (getField usageMap key).
Proof.
  intros [value Hvalue]%key_getField. unfold recordUnder. by rewrite Hvalue.
Qed.

(** The first key of the list that holds a record, with what it holds. *)
Lemma firstRecordAt_first (usageMap : JsObject) (keys : list jsstring) :
  match firstRecordAt usageMap keys with
  | Some usage =>
      ∃ before key after,
        keys = before ++ key :: after
        ∧ recordUnder usageMap key = Some usage
        ∧ Forall (λ k, recordUnder usageMap k = None) before
  | None => Forall (λ k, recordUnder usageMap k = None) keys
  end.
Proof.
  induction keys as [|key keys IH]; [by constructor|].
  cbn [firstRecordAt].
  destruct (recordUnder usageMap key) as [usage|] eqn:Hkey.
  - by exists [], key, keys.
  - destruct (firstRecordAt usageMap keys) as [usage|].
    + destruct IH as (before & k & after & -> & Hk & Hbefore).
      exists (key :: before), k, after. split; [done|]. split; [done|].
      by constructor.
    + by constructor.
Qed.

Lemma sortStrings_nil (keys : list jsstring) :
  sortStrings keys = [] → keys = [].
Proof.
  destruct keys as [|key keys]; [done|]. intros Hnil.
  assert (key ∈ sortStrings (key :: keys)) as Hin
    by (apply elem_of_sortStrings; by left).
  rewrite Hnil in Hin. by apply elem_of_nil in Hin.
Qed.

(** X7. The model usage record that is selected is one that the
    [modelUsage] map holds under a key; or, when the session's or the
    message's model is the string [__proto__] and the map has no such key,
    it is what every object inherits under that name, which holds no number.
    None is selected only when the map holds no record at all (or is no
    object). *)
Theorem selected_usage_record_is_held (session : option UsageSessionContext)
    (message : JsObject) :
  match selectModelUsageRecord session message with
  | Some usage =>
      ∃ usageMap key,
        getField message (js "modelUsage") = Some (JObj usageMap)
        ∧ usageMap ≠ []
        ∧ (getField usageMap key = Some (JObj usage)
           ∨ (key = js "__proto__"
              ∧ key ∈ preferredKeys session message
              ∧ getField usageMap key = None
              ∧ usage = []))
  | None =>
      ∀ usageMap key usage,
        getField message (js "modelUsage") = Some (JObj usageMap) →
        getField usageMap key ≠ Some (JObj usage)
  end.
Proof.
  unfold selectModelUsageRecord.
  destruct (getField message (js "modelUsage")) as [[| | | | |usageMap]|];
    try done.
  cbn [asRecordOrNull].
  pose proof (firstRecordAt_first usageMap (preferredKeys session message)) as Hp.
  pose proof (firstRecordAt_first usageMap (sortStrings (objectKeys usageMap))) as Hs.
  case_bool_decide as Hempty.
  { intros m key usage [= <-] Hkey. apply getField_key in Hkey.
    apply elem_of_sortStrings in Hkey. rewrite Hempty in Hkey. set_solver. }
  assert (Hmap : usageMap ≠ []) by (by intros ->).
  destruct (firstRecordAt usageMap (preferredKeys session message)) as [usage|].
  { destruct Hp as (before & key & after & Hkeys & Hkey & _).
    exists usageMap, key. split; [done|]. split; [done|].
    apply recordUnder_cases in Hkey as [Hown | (-> & Hnone & ->)];
      [by left | right].
    repeat split; try done. rewrite Hkeys. set_solver. }
  destruct (firstRecordAt usageMap (sortStrings (objectKeys usageMap))) as [usage|].
  { destruct Hs as (before & key & after & Hkeys & Hkey & _).
    exists usageMap, key. split; [done|]. split; [done|]. left.
    assert (Hin : key ∈ objectKeys usageMap).
    { apply elem_of_sortStrings. rewrite Hkeys. set_solver. }
    rewrite (recordUnder_own _ _ Hin) in Hkey.
    by destruct (getField usageMap key) as [[]|]; cbn in Hkey; try done;
      injection Hkey as ->. }
  intros m key usage [= <-] Hkey.
  pose proof (getField_key _ _ _ Hkey) as Hin.
  pose proof (recordUnder_own _ _ Hin) as Hown.
  apply elem_of_sortStrings in Hin.
  rewrite Forall_forall in Hs. specialize (Hs key Hin).
  rewrite Hown, Hkey in Hs. done.
Qed.

(** X8. Which record is selected, when [modelUsage] is an object. None when
    the object has no key. Else, with a key holding what is its own under it
    or, for [__proto__], what every object inherits: the record under the
    session's model when that is a non-empty string and holds one; else the
    one under the message's model when that holds one; else the one under
    the smallest key of the object, in the order of code units, that holds a
    record, and none when no key of the object holds one. *)
Theorem usage_record_preference (session : option UsageSessionContext)
    (message usageMap : JsObject) :
  getField message (js "modelUsage") = Some (JObj usageMap) →
  let held key := recordUnder usageMap key in
  let sessionModel :=
    match session ≫= model with
    | Some (c :: m) => Some (c :: m)
    | _ => None
    end in
  let messageModel := asString (getField message (js "model")) in
  match usageMap with
  | [] => selectModelUsageRecord session message = None
  | _ :: _ =>
      match sessionModel ≫= held, messageModel ≫= held with
      | Some usage, _ => selectModelUsageRecord session message = Some usage
      | None, Some usage => selectModelUsageRecord session message = Some usage
      | None, None =>
          match selectModelUsageRecord session message with
          | Some usage =>
              ∃ key, key ∈ objectKeys usageMap
                     ∧ getField usageMap key = Some (JObj usage)
                     ∧ ∀ other, other ∈ objectKeys usageMap →
                                is_Some (held other) →
                                jsstring_ltb other key = false
          | None => ∀ key, key ∈ objectKeys usageMap → held key = None
          end
      end
  end.
Proof.
  intros Hmap. destruct usageMap as [|entry entries].
  { intros held sessionModel messageModel.
    unfold selectModelUsageRecord. by rewrite Hmap. }
  cbv iota.
  assert (Hkeys : sortStrings (objectKeys (entry :: entries)) ≠ []).
  { intros Hnil%sortStrings_nil. unfold objectKeys in Hnil.
    by apply fmap_nil_inv in Hnil. }
  revert Hmap Hkeys. generalize (entry :: entries). clear entry entries.
  intros usageMap Hmap Hkeys held sessionModel messageModel.
  unfold selectModelUsageRecord. rewrite Hmap. cbn [asRecordOrNull].
  rewrite (bool_decide_eq_false_2 _ Hkeys).
  assert (Hpreferred :
            firstRecordAt usageMap (preferredKeys session message)
            = match sessionModel ≫= held with
              | Some usage => Some usage
              | None => messageModel ≫= held
              end).
  { unfold preferredKeys, sessionModel, messageModel, held.
    destruct (asString (getField message (js "model"))) as [mm|];
      destruct session as [[[[|c m]|] last]|]; cbn; try done.
    all: repeat match goal with
         | |- context [bool_decide (?x ∈ ?l)] =>
             destruct (decide (x ∈ l)) as [Hin|Hout];
             [ rewrite (bool_decide_eq_true_2 _ Hin)
             | rewrite (bool_decide_eq_false_2 _ Hout) ]
         end.
    all: try (apply list_elem_of_singleton in Hin as ->).
    all: try (by apply elem_of_nil in Hin).
    all: cbn [firstRecordAt].
    all: repeat match goal with
         | |- context [recordUnder ?m ?k] =>
             destruct (recordUnder m k) eqn:?
         end; done. }
  rewrite Hpreferred.
  destruct (sessionModel ≫= held) as [usage|]; [done|].
  destruct (messageModel ≫= held) as [usage|]; [done|].
  pose proof (firstRecordAt_first usageMap (sortStrings (objectKeys usageMap))) as Hs.
  destruct (firstRecordAt usageMap (sortStrings (objectKeys usageMap))) as [usage|].
  - destruct Hs as (before & key & after & Hsplit & Hkey & Hbefore).
    assert (Hown : key ∈ objectKeys usageMap).
    { apply elem_of_sortStrings. rewrite Hsplit. set_solver. }
    exists key. split; [done|]. split.
    { rewrite (recordUnder_own _ _ Hown) in Hkey.
      by destruct (getField usageMap key) as [[]|]; cbn in Hkey; try done;
        injection Hkey as ->. }
    intros other Hother Hheld.
    apply elem_of_sortStrings in Hother. rewrite Hsplit in Hother.
    apply elem_of_app in Hother as [Hin | Hin].
    + rewrite Forall_forall in Hbefore. specialize (Hbefore other Hin).
      destruct Hheld as [u Hu]. unfold held in Hu. congruence.
    + apply elem_of_cons in Hin as [-> | Hin].
      * destruct (jsstring_ltb key key) eqn:Hkk; [|done].
        by rewrite (jsstring_ltb_asym _ _ Hkk) in Hkk.
      * pose proof (sortStrings_ascending (objectKeys usageMap) before key
                      after Hsplit) as Hafter.
        by apply (proj1 (Forall_forall _ _) Hafter).
  - intros key Hkey. rewrite Forall_forall in Hs. apply Hs.
    by apply elem_of_sortStrings.
Qed.

(** X8 at a message whose model is [__proto__]: what every object inherits
    is selected, not the record of the one key. *)
Lemma usage_record_preference_witness :
  selectModelUsageRecord None inheritedModelMessage = Some [].
Proof.
  exact (usage_record_preference None inheritedModelMessage
           [(js "a", JObj [(js "contextWindow", JNum 5%float)])] eq_refl).
Defined.

(** At that message no usage is reported: what is inherited has no context
    window, and the message has nothing else. *)
Example inherited_model_reports_nothing :
  buildUsageUpdateFromResult (T := ToolCall) inheritedModelMessage = None
  ∧ selectModelUsageRecord None twoModelMessage
    = Some [(js "contextWindow", JNum 2%float)].
Proof. split; by vm_compute. Qed.

Lemma allUndefined_total (a b c d e f g h : option float) :
  allUndefined [a; b; c; d; e; f; g; h] = true → e = None.
Proof. by destruct a, b, c, d, e. Qed.

(** X9. What a usage update holds. A returned update has at least one field
    and its [total_cost_usd] is the total of the message; it has a
    [turn_cost_usd] exactly when a session was given and the message has a
    total; no update is returned only when the message has no total. The
    session context keeps its model, and it is left as it was when the message
    has no total. *)
Theorem usage_update_content (session : option UsageSessionContext)
    (message : JsObject) :
  let result :=
    buildUsageUpdateFromResultForSession (T := ToolCall) session message in
  model <$> result.1 = model <$> session
  ∧ (totalCostOf message = None → result.1 = session)
  ∧ match result.2 with
    | Some (usage_update usage) =>
        allUndefined [input_tokens usage; output_tokens usage;
                      cache_read_tokens usage; cache_write_tokens usage;
                      total_cost_usd usage; turn_cost_usd usage;
                      context_window usage; max_output_tokens usage] = false
        ∧ total_cost_usd usage = totalCostOf message
        ∧ (is_Some (turn_cost_usd usage)
           ↔ is_Some session ∧ is_Some (totalCostOf message))
    | Some _ => False
    | None => totalCostOf message = None
    end.
Proof.
  intros result. subst result.
  unfold buildUsageUpdateFromResultForSession, totalCostOf. cbv zeta.
  set (total := numberField message [js "total_cost_usd"; js "totalCostUsd"]).
  assert (Hobserve :
            model <$> (observeTotalCost session total).1 = model <$> session
            ∧ (total = None → (observeTotalCost session total).1 = session)
            ∧ (is_Some (observeTotalCost session total).2
               ↔ is_Some session ∧ is_Some total)).
  { destruct session as [s|], total as [t|]; cbn; repeat split;
      try done; try (by intros [? [? ?]]); try (by intros [? ?]); eauto. }
  destruct (observeTotalCost session total) as [session' turnCostUsd].
  cbn [fst snd] in Hobserve. destruct Hobserve as (Hmodel & Hsame & Hturn).
  destruct (allUndefined _) eqn:Hfields; cbn [fst snd].
  - split; [done|]. split; [done|]. by apply allUndefined_total in Hfields.
  - split; [done|]. split; [done|]. by repeat split; try apply Hturn.
Qed.

(** [Math.max(0, d)] by cases. *)
Lemma Math_max_zero (d : float) :
  Math_max [0%float; d]
  = if is_nan d then nan else if (0 <? d)%float then d else 0%float.
Proof.
  unfold Math_max. cbn [existsb foldl].
  replace (is_nan 0) with false by reflexivity.
  replace (neg_infinity <? 0)%float with true by reflexivity.
  replace (get_sign 0) with false by reflexivity.
  rewrite !andb_false_r, !orb_false_r. cbn [orb].
  by destruct (is_nan d).
Qed.

Lemma above_zero_not_below (d : float) :
  (0 <? d)%float = true → (d <? 0)%float = false.
Proof.
  rewrite !FloatAxioms.ltb_spec. unfold SpecFloat.SFltb, SpecFloat.SFcompare.
  change (FloatOps.Prim2SF 0) with (SpecFloat.S754_zero false).
  by destruct (FloatOps.Prim2SF d) as [[]|[]| |[] ? ?].
Qed.

(** X10. The clamp of the turn cost. Once the session holds a last total, the
    turn cost of an update is never below zero: it is the difference of the
    totals when that is above zero, NaN when the difference is NaN, and zero
    otherwise. The first total of a session is passed on as it is. *)
Theorem turn_cost_is_clamped (session : UsageSessionContext)
    (message : JsObject) (total : float) :
  totalCostOf message = Some total →
  ∃ update turn,
    (buildUsageUpdateFromResultForSession (T := ToolCall) (Some session)
       message).2 = Some update
    ∧ turnCostOf (Some update) = Some turn
    ∧ match lastTotalCostUsd session with
      | None => turn = total
      | Some lastTotal =>
          (turn <? 0)%float = false
          ∧ turn = if is_nan (total - lastTotal) then nan
                   else if (0 <? total - lastTotal)%float
                        then (total - lastTotal)%float else 0%float
      end.
Proof.
  intros Htotal.
  destruct (usage_update_with_total session message total Htotal)
    as (update & Hbuilt & Hturn).
  rewrite Hbuilt. eexists _, _. split; [done|]. split; [done|].
  destruct (lastTotalCostUsd session) as [lastTotal|]; [|done].
  rewrite Math_max_zero. split; [|done].
  destruct (is_nan _); [done|].
  destruct (0 <? _)%float eqn:Habove; [|done].
  by apply above_zero_not_below.
Qed.

(** X10 at a total that fell from five cents to two. *)
Lemma turn_cost_is_clamped_witness :
  ∃ update turn,
    (buildUsageUpdateFromResultForSession (T := ToolCall) (Some fiveCentSession)
       twoCentMessage).2 = Some update
    ∧ turnCostOf (Some update) = Some turn
    ∧ match lastTotalCostUsd fiveCentSession with
      | None => turn = 0.02%float
      | Some lastTotal =>
          (turn <? 0)%float = false
          ∧ turn = if is_nan (0.02 - lastTotal) then nan
                   else if (0 <? 0.02 - lastTotal)%float
                        then (0.02 - lastTotal)%float else 0%float
      end.
Proof.
  apply (turn_cost_is_clamped fiveCentSession twoCentMessage 0.02%float).
  reflexivity.
Defined.

(** ** The command parser, further *)

Lemma optionalString_holds (record : JsObject) (key context : jsstring)
    (value : option jsstring) :
  holdsOptionalString record key value →
  optionalString record key context = Returned value.
Proof.
  unfold holdsOptionalString, holdsString, isAbsent, optionalString.
  destruct value as [s|]; [by intros ->|]. by intros [-> | ->].
Qed.

Lemma optionalMetadata_holds (record metadata : JsObject) :
  holdsMetadata record metadata →
  optionalMetadata record (js "metadata") = Returned metadata.
Proof.
  unfold holdsMetadata, isAbsent, optionalMetadata.
  by intros [-> | [[-> | ->] ->]].
Qed.

Lemma parsePromptChunksFrom_holds (context : jsstring) (items : list Json)
    (chunks : list PromptChunk) (index : nat) :
  Forall2 holdsChunk items chunks →
  parsePromptChunksFrom context index items = Returned chunks.
Proof.
  intros Hall. revert index.
  induction Hall as [|item [kind value] items chunks Hchunk _ IH]; intros index;
    [done|].
  destruct Hchunk as (fields & -> & Hkind & Hvalue).
  cbn [parsePromptChunksFrom]. unfold parsePromptChunk.
  cbn [asRecord]. simpl. unfold expectString. unfold holdsString in Hkind.
  rewrite Hkind. simpl. rewrite IH. simpl. cbn in Hvalue. by rewrite Hvalue.
Qed.

Lemma parseCommand_populated (raw : JsObject) (command : BridgeCommand)
    (commandName : jsstring) :
  holdsString raw (js "command") commandName →
  Populated raw command →
  parseCommand raw commandName = Returned command.
Proof.
  intros Htag Hpopulated. unfold holdsString in Htag.
  destruct command; cbn [Populated] in Hpopulated;
    unfold holdsString, holdsBoolean in Hpopulated;
    repeat match goal with
           | H : _ ∧ _ |- _ => destruct H
           end;
    match goal with
    | H : getField raw (js "command") = _ |- _ =>
        rewrite H in Htag; injection Htag as <-
    end;
    unfold parseCommand; simpl;
    unfold expectString, expectBoolean, parsePromptChunks;
    repeat match goal with
           | H : getField raw _ = _ |- _ => rewrite H; simpl
           | H : holdsOptionalString raw _ _ |- _ =>
               rewrite (optionalString_holds _ _ _ _ H); clear H; simpl
           | H : holdsMetadata raw _ |- _ =>
               rewrite (optionalMetadata_holds _ _ H); clear H; simpl
           end;
    try done.
  - destruct H1 as (items & Hitems & Hall). rewrite Hitems.
    by rewrite (parsePromptChunksFrom_holds _ _ _ _ Hall).
  - destruct H2 as (fields & Hfields & Houtcome). rewrite Hfields. simpl.
    unfold expectString, holdsString in *.
    destruct outcome as [option_id|].
    + destruct Houtcome as [Hselected Hoption]. rewrite Hselected. simpl.
      by rewrite Hoption.
    + by rewrite Houtcome.
Qed.

Section CommandCompleteness.
Context `{runtime : Runtime}.

(** X11. The parser accepts every populated envelope. When the line parses
    to an object from which a command is fully populated (its tag is the
    envelope's, each required field is there with its type, each optional
    field is absent, [null] or of its type), [parseCommandEnvelope] returns
    that command, with the request id when it is a string. *)
Theorem populated_envelope_is_accepted (line : jsstring) (raw : JsObject)
    (command : BridgeCommand) :
  JSON_parse line = Some (JObj raw) →
  Populated raw command →
  parseCommandEnvelope line
  = Returned (asString (getField raw (js "request_id")), command).
Proof.
  intros Hline Hpopulated.
  assert (Htag : ∃ tag, holdsString raw (js "command") tag).
  { destruct command; cbn [Populated] in Hpopulated;
      [destruct Hpopulated as [Htag _]..|]; eauto. }
  destruct Htag as [tag Htag].
  unfold parseCommandEnvelope. rewrite Hline. simpl.
  unfold expectString. unfold holdsString in Htag. rewrite Htag. simpl.
  by rewrite (parseCommand_populated raw command tag Htag Hpopulated).
Qed.

End CommandCompleteness.

(** X11 at a [new_session] envelope whose optional [model] is [null]. *)
Lemma populated_envelope_is_accepted_witness :
  @parseCommandEnvelope jsonRuntime
    (jsonText "{'request_id':'r1','command':'new_session','cwd':'/w','yolo':false,'model':null}")
  = Returned (Some (js "r1"), NewSession (js "/w") false None).
Proof.
  apply (@populated_envelope_is_accepted jsonRuntime _
           [ (js "request_id", JStr (js "r1"));
             (js "command", JStr (js "new_session"));
             (js "cwd", JStr (js "/w")); (js "yolo", JBool false);
             (js "model", JNull) ]).
  - vm_compute. reflexivity.
  - cbn [Populated]. unfold holdsString, holdsBoolean, holdsOptionalString, isAbsent.
    repeat split; try (vm_compute; reflexivity).
    right. vm_compute. reflexivity.
Defined.

(** ** Session previews *)

Lemma arrayFromString_nil (s : jsstring) : arrayFromString s = [] → s = [].
Proof.
  destruct s as [|c [|d rest]]; try done.
  cbn [arrayFromString]. by destruct (isHighSurrogate c && isLowSurrogate d).
Qed.

Lemma truncateTextByChars_nonempty (text : jsstring) (maxChars : nat) :
  text ≠ [] → (0 < maxChars)%nat → truncateTextByChars text maxChars ≠ [].
Proof.
  intros Htext Hmax Hempty.
  pose proof (truncateTextByChars_codePoints text maxChars) as Hchars.
  rewrite Hempty in Hchars. cbn [arrayFromString] in Hchars.
  destruct (arrayFromString text) as [|chunk chunks] eqn:Htext'.
  - by apply arrayFromString_nil in Htext'.
  - destruct maxChars; [lia | done].
Qed.

Lemma join_nonempty (sep part : jsstring) (parts : list jsstring) :
  part ≠ [] → join sep (part :: parts) ≠ [].
Proof. destruct part; [done|]. by destruct parts. Qed.

Lemma cleanedTextOf_nonempty (item : Json) (cleaned : jsstring) :
  cleanedTextOf item = Some cleaned → cleaned ≠ [].
Proof.
  unfold cleanedTextOf. destruct (asRecordOrNull (Some item)) as [block|]; [|done].
  destruct (isStringLiteral _ _); [|done].
  destruct (asString _) as [text|]; [|done].
  case_bool_decide; [done|]. by intros [= <-].
Qed.

Lemma titleFromContent_nonempty (parts : list jsstring) (content : list Json)
    (title : jsstring) :
  Forall (λ part, part ≠ []) parts →
  titleFromContent parts content = Some title → title ≠ [].
Proof.
  revert parts. induction content as [|item content IH]; intros parts Hparts.
  - cbn [titleFromContent]. case_bool_decide; [done|]. intros [= <-].
    destruct Hparts as [|part parts Hpart _]; [done|].
    apply truncateTextByChars_nonempty; [by apply join_nonempty | lia].
  - cbn [titleFromContent].
    destruct (cleanedTextOf item) as [cleaned|] eqn:Hcleaned; [|by apply IH].
    apply cleanedTextOf_nonempty in Hcleaned.
    assert (Hparts' : Forall (λ part, part ≠ []) (parts ++ [cleaned])).
    { apply Forall_app. split; [done|]. by constructor. }
    cbv zeta. case_bool_decide; [|by apply IH].
    intros [= <-].
    destruct (parts ++ [cleaned]) as [|part parts'] eqn:Happ;
      [by destruct parts|].
    apply truncateTextByChars_nonempty; [|lia].
    apply join_nonempty. by inversion Hparts'.
Qed.

Lemma title_nonempty_bounded (record : JsObject) (title : jsstring) :
  firstUserMessageTitleFromRecord record = Some title →
  title ≠ [] ∧ (length (arrayFromString title) ≤ 180)%nat.
Proof.
  unfold firstUserMessageTitleFromRecord.
  destruct (isStringLiteral _ _); [|done].
  destruct (asRecordOrNull _) as [message|]; [|done].
  destruct (isStringLiteral _ _); [|done].
  destruct (asArray _) as [content|]; [|done].
  intros Htitle. split.
  - by eapply titleFromContent_nonempty.
  - apply titleFromContent_truncated in Htitle as [combined ->].
    rewrite truncateTextByChars_codePoints, length_take. lia.
Qed.

Lemma trim_nil : trim [] = [].
Proof. reflexivity. Qed.

Lemma usableCwd_not_blank (record : JsObject) (value : jsstring) :
  usableCwd record = Some value → trim value ≠ [] ∧ value ≠ [].
Proof.
  unfold usableCwd. destruct (asString _) as [v|]; [|done].
  case_bool_decide as Hblank; [done|]. intros [= <-].
  split; [done|]. by intros ->.
Qed.

Lemma head_omap_cons {A B : Type} (f : A → option B) (x : A) (l : list A) :
  head (omap f (x :: l)) = f x ∪ head (omap f l).
Proof. cbn. destruct (f x); cbn; by destruct (head (omap f l)). Qed.

Section PreviewProperties.
Context `{runtime : Runtime}.

Lemma recordOfLine_unfold (rawLine : jsstring) :
  recordOfLine rawLine
  = if bool_decide (length (trim rawLine) = 0%nat) then None
    else match JSON_parse (trim rawLine) with
         | Some (JObj record) => Some record
         | _ => None
         end.
Proof.
  unfold recordOfLine, isRecordLine.
  destruct (trim rawLine) as [|c line]; [done|].
  by destruct (JSON_parse (c :: line)) as [[]|].
Qed.

(** The loop finds the first usable [cwd] and the first title of the records
    that the lines hold, whatever it has found before. *)
Lemma previewLoop_first (cwd title : option jsstring) (lines : list jsstring) :
  cwd ≠ Some [] → title ≠ Some [] →
  previewLoop cwd title lines
  = (cwd ∪ head (omap usableCwd (omap recordOfLine lines)),
     title ∪ head (omap firstUserMessageTitleFromRecord (omap recordOfLine lines))).
Proof.
  revert cwd title. induction lines as [|rawLine lines IH]; intros cwd title Hcwd Htitle.
  { cbn. by destruct cwd, title. }
  change (omap recordOfLine (rawLine :: lines))
    with (match recordOfLine rawLine with
          | Some record => record :: omap recordOfLine lines
          | None => omap recordOfLine lines
          end).
  rewrite recordOfLine_unfold. cbn [previewLoop]. cbv zeta.
  case_bool_decide; [by apply IH|].
  destruct (JSON_parse (trim rawLine)) as [parsed|]; [|by apply IH].
  destruct parsed as [| | | | |record]; cbn [asRecordOrNull]; try by apply IH.
  set (records := omap recordOfLine lines) in *.
  assert (Hfound :
            (if truthyString cwd then cwd
             else match asString (getField record (js "cwd")) with
                  | Some value =>
                      if bool_decide (0 < length (trim value))%nat
                      then Some value else cwd
                  | None => cwd
                  end) = cwd ∪ usableCwd record).
  { destruct cwd as [[|? ?]|];
      [done | by destruct (usableCwd record) |].
    cbn [truthyString]. unfold usableCwd.
    destruct (asString _) as [value|]; [|done].
    destruct (trim value); by cbn. }
  rewrite Hfound. clear Hfound.
  assert (Htitle' :
            (if truthyString title then title
             else firstUserMessageTitleFromRecord record)
            = title ∪ firstUserMessageTitleFromRecord record).
  { destruct title as [[|? ?]|];
      [done | by destruct (firstUserMessageTitleFromRecord record) |].
    cbn [truthyString].
    by destruct (firstUserMessageTitleFromRecord record). }
  rewrite Htitle'. clear Htitle'.
  assert (Hcwd' : cwd ∪ usableCwd record ≠ Some []).
  { destruct cwd as [v|]; [by cbn; destruct (usableCwd record)|].
    destruct (usableCwd record) as [v|] eqn:Hv; [|done].
    apply usableCwd_not_blank in Hv as [_ Hv]. cbn. congruence. }
  assert (Htitle'' : title ∪ firstUserMessageTitleFromRecord record ≠ Some []).
  { destruct title as [v|];
      [by cbn; destruct (firstUserMessageTitleFromRecord record)|].
    destruct (firstUserMessageTitleFromRecord record) as [v|] eqn:Hv; [|done].
    apply title_nonempty_bounded in Hv as [Hv _]. cbn. congruence. }
  destruct (truthyString (cwd ∪ usableCwd record)
            && truthyString (title ∪ firstUserMessageTitleFromRecord record))
    eqn:Hboth.
  - apply andb_true_iff in Hboth as [Hc Ht].
    destruct (cwd ∪ usableCwd record) as [found|] eqn:Hc'; [|done].
    destruct (title ∪ firstUserMessageTitleFromRecord record) as [found'|] eqn:Ht';
      [|done].
    rewrite !head_omap_cons. f_equal.
    + destruct cwd, (usableCwd record), (head (omap usableCwd records));
        cbn in *; congruence.
    + destruct title, (firstUserMessageTitleFromRecord record),
        (head (omap firstUserMessageTitleFromRecord records));
        cbn in *; congruence.
  - rewrite IH by done. rewrite !head_omap_cons. f_equal.
    + by destruct cwd, (usableCwd record), (head (omap usableCwd records)).
    + by destruct title, (firstUserMessageTitleFromRecord record),
        (head (omap firstUserMessageTitleFromRecord records)).
Qed.

Lemma preview_first (text : jsstring) :
  extractSessionPreviewFromJsonl (Some text)
  = {| preview_cwd := head (omap usableCwd (recordsOfLog text));
       preview_title :=
         head (omap firstUserMessageTitleFromRecord (recordsOfLog text)) |}.
Proof.
  unfold extractSessionPreviewFromJsonl, recordsOfLog.
  rewrite previewLoop_first by done.
  set (records := omap recordOfLine (splitLines text)).
  f_equal.
  - destruct (head (omap usableCwd records)) as [value|] eqn:Hhead; [|done].
    apply head_Some_elem_of, list_elem_of_omap in Hhead as (record & _ & Hvalue).
    apply usableCwd_not_blank in Hvalue as [_ Hvalue]. by destruct value.
  - destruct (head (omap firstUserMessageTitleFromRecord records)) as [value|]
      eqn:Hhead; [|done].
    apply head_Some_elem_of, list_elem_of_omap in Hhead as (record & _ & Hvalue).
    apply title_nonempty_bounded in Hvalue as [Hvalue _]. by destruct value.
Qed.

(** X12. What a preview holds. The [cwd] of a preview is the first [cwd] of
    a record of the log that is a string and not blank, and its title is the
    title of the first record that has one: blank and malformed lines count
    for nothing, a later record never replaces what an earlier one gave, and
    the early end of the loop, once both are found, loses nothing. A file
    that cannot be read has neither. *)
Theorem preview_is_first_found (fileText : option jsstring) :
  extractSessionPreviewFromJsonl fileText
  = match fileText with
    | None => {| preview_cwd := None; preview_title := None |}
    | Some text =>
        {| preview_cwd := head (omap usableCwd (recordsOfLog text));
           preview_title :=
             head (omap firstUserMessageTitleFromRecord (recordsOfLog text)) |}
    end.
Proof.
  destruct fileText as [text|]; [|done]. apply preview_first.
Qed.

(** X13. What a preview is good for. A [cwd] in a preview is not blank; a
    title in a preview is not empty and has at most 180 code points. *)
Theorem preview_fields_are_usable (fileText : option jsstring) :
  let preview := extractSessionPreviewFromJsonl fileText in
  match preview_cwd preview with
  | Some value => trim value ≠ []
  | None => True
  end
  ∧ match preview_title preview with
    | Some value => value ≠ [] ∧ (length (arrayFromString value) ≤ 180)%nat
    | None => True
    end.
Proof.
  cbv zeta. destruct fileText as [text|]; [|done].
  rewrite preview_first. cbn [preview_cwd preview_title].
  split.
  - destruct (head _) as [value|] eqn:Hhead; [|done].
    apply head_Some_elem_of, list_elem_of_omap in Hhead as (record & _ & Hvalue).
    by apply usableCwd_not_blank in Hvalue as [Hvalue _].
  - destruct (head _) as [value|] eqn:Hhead; [|done].
    apply head_Some_elem_of, list_elem_of_omap in Hhead as (record & _ & Hvalue).
    by apply title_nonempty_bounded in Hvalue.
Qed.

End PreviewProperties.

(** ** The order of modification times *)

Lemma SFleb_trans (a b c : SpecFloat.spec_float) :
  SpecFloat.SFleb a b = true → SpecFloat.SFleb b c = true →
  SpecFloat.SFleb a c = true.
Proof.
  unfold SpecFloat.SFleb, SpecFloat.SFcompare.
  destruct a as [[]|[]| |[] ma ea], b as [[]|[]| |[] mb eb],
    c as [[]|[]| |[] mc ec]; try done;
    rewrite <- ?Pos.compare_cont_spec; cbn [Pos.switch_Eq];
    change (Pos.compare_cont Eq) with Pos.compare;
    destruct (Z.compare_spec ea eb), (Z.compare_spec eb ec),
      (Z.compare_spec ea ec); try done; try lia;
    destruct (Pos.compare_spec ma mb), (Pos.compare_spec mb mc),
      (Pos.compare_spec ma mc); try done; try lia.
Qed.

Lemma SFleb_total (a b : SpecFloat.spec_float) :
  a ≠ SpecFloat.S754_nan → b ≠ SpecFloat.S754_nan →
  SpecFloat.SFleb a b = false → SpecFloat.SFleb b a = true.
Proof.
  unfold SpecFloat.SFleb, SpecFloat.SFcompare.
  destruct a as [[]|[]| |[] ma ea], b as [[]|[]| |[] mb eb]; try done;
    change (Pos.compare_cont Eq) with Pos.compare;
    destruct (Z.compare_spec ea eb), (Z.compare_spec eb ea); try done; try lia;
    destruct (Pos.compare_spec ma mb), (Pos.compare_spec mb ma);
    try done; try lia.
Qed.

Lemma finite_is_no_nan (x : float) :
  is_finite x = true → FloatOps.Prim2SF x ≠ SpecFloat.S754_nan.
Proof.
  unfold is_finite, is_nan. rewrite FloatAxioms.eqb_spec.
  unfold SpecFloat.SFeqb. intros Hfinite Hnan. rewrite Hnan in Hfinite.
  by cbn in Hfinite.
Qed.

Lemma leb_trans (x y z : float) :
  (x <=? y)%float = true → (y <=? z)%float = true → (x <=? z)%float = true.
Proof. rewrite !FloatAxioms.leb_spec. apply SFleb_trans. Qed.

Lemma leb_total (x y : float) :
  is_finite x = true → is_finite y = true →
  (x <=? y)%float = false → (y <=? x)%float = true.
Proof.
  intros Hx%finite_is_no_nan Hy%finite_is_no_nan.
  rewrite !FloatAxioms.leb_spec. by apply SFleb_total.
Qed.

(** ** The session index *)

Lemma insertByTime_permutation (a : PersistedSessionEntry)
    (l : list PersistedSessionEntry) :
  insertByTime a l ≡ₚ a :: l.
Proof.
  induction l as [|b l IH]; [done|]. cbn [insertByTime].
  destruct (sort_ms b <=? sort_ms a)%float; [done|].
  rewrite IH. apply Permutation_swap.
Qed.

Lemma sortByTime_permutation (l : list PersistedSessionEntry) :
  sortByTime l ≡ₚ l.
Proof.
  induction l as [|a l IH]; [done|]. unfold sortByTime in *. cbn [foldr].
  by rewrite insertByTime_permutation, IH.
Qed.

Lemma insertByTime_sorted (a : PersistedSessionEntry)
    (l : list PersistedSessionEntry) :
  is_finite (sort_ms a) = true →
  Forall (λ c, is_finite (sort_ms c) = true) l →
  StronglySorted notNewer l →
  StronglySorted notNewer (insertByTime a l).
Proof.
  intros Ha Hl Hsorted.
  induction Hsorted as [|b l Hsorted IH Hb]; cbn [insertByTime].
  { repeat constructor. }
  apply Forall_cons in Hl as [Hbf Hl].
  destruct (sort_ms b <=? sort_ms a)%float eqn:Hba.
  - constructor; [by constructor|]. constructor; [done|].
    eapply Forall_impl; [exact Hb|]. intros c Hc. unfold notNewer in *.
    by eapply leb_trans.
  - constructor; [by apply IH|].
    rewrite insertByTime_permutation. constructor; [|done].
    unfold notNewer. by apply leb_total.
Qed.

Lemma sortByTime_sorted (l : list PersistedSessionEntry) :
  Forall (λ c, is_finite (sort_ms c) = true) l →
  StronglySorted notNewer (sortByTime l).
Proof.
  induction 1 as [|a l Ha Hl IH]; [constructor|].
  unfold sortByTime in *. cbn [foldr]. apply insertByTime_sorted; [done| |done].
  by rewrite (sortByTime_permutation l).
Qed.

Lemma sublist_StronglySorted {A : Type} (R : relation A) (l1 l2 : list A) :
  l1 `sublist_of` l2 → StronglySorted R l2 → StronglySorted R l1.
Proof.
  induction 1 as [|x l1 l2 Hsub IH|x l1 l2 Hsub IH]; intros Hsorted;
    [done| |].
  - apply StronglySorted_inv in Hsorted as [Hsorted Hx].
    constructor; [by apply IH|].
    rewrite Forall_forall in Hx |- *. intros y Hy. apply Hx.
    by eapply elem_of_sublist.
  - apply StronglySorted_inv in Hsorted as [Hsorted _]. by apply IH.
Qed.

Lemma firstOfEachId_sublist (l : list PersistedSessionEntry) :
  firstOfEachId l `sublist_of` l.
Proof.
  induction l as [|c l IH]; [done|]. cbn [firstOfEachId].
  apply sublist_skip. etrans; [apply sublist_filter|done].
Qed.

Lemma firstOfEachId_distinct (l : list PersistedSessionEntry) :
  NoDup (session_id <$> firstOfEachId l).
Proof.
  induction l as [|c l IH]; [constructor|]. cbn [firstOfEachId fmap list_fmap].
  constructor.
  - rewrite list_elem_of_fmap. intros (other & Hid & Hin).
    apply list_elem_of_filter in Hin as [Hother _]. by symmetry in Hid.
  - apply (sublist_NoDup _ (session_id <$> firstOfEachId l));
      [done | apply fmap_sublist, sublist_filter].
Qed.

Lemma atLeastOne_step (limit : Z) (n : nat) :
  ¬ (limit ≤ Z.of_nat (S n))%Z →
  atLeastOne (limit - Z.of_nat n) = S (atLeastOne (limit - Z.of_nat (S n))).
Proof. unfold atLeastOne. lia. Qed.

Lemma atLeastOne_reached (limit : Z) (n : nat) :
  (limit ≤ Z.of_nat (S n))%Z → atLeastOne (limit - Z.of_nat n) = 1%nat.
Proof. unfold atLeastOne. lia. Qed.

Section IndexProperties.
Context `{runtime : Runtime} `{fs : FileSystem}.

Lemma preview_title_truthy (fileText : option jsstring) :
  preview_title (extractSessionPreviewFromJsonl fileText) ≠ Some [].
Proof.
  destruct fileText as [text|]; [|done]. unfold extractSessionPreviewFromJsonl.
  destruct (previewLoop None None (splitLines text)) as [found [[|c t]|]]; done.
Qed.

Lemma entryOfCandidate_keeps (candidate entry : PersistedSessionEntry) :
  entryOfCandidate candidate = Some entry →
  let preview :=
    extractSessionPreviewFromJsonl (readFileSync (file_path candidate)) in
  session_id entry = session_id candidate
  ∧ file_path entry = file_path candidate
  ∧ sort_ms entry = sort_ms candidate
  ∧ cwd entry ≠ []
  ∧ trim <$> preview_cwd preview = Some (cwd entry)
  ∧ title entry = preview_title preview.
Proof.
  unfold entryOfCandidate. cbv zeta.
  pose proof (preview_title_truthy (readFileSync (file_path candidate))) as Htitle.
  destruct (trim <$> preview_cwd _) as [[|c value]|]; [done| |done].
  intros [= <-]. cbn. repeat split; try done.
  by destruct (preview_title _) as [[|? ?]|].
Qed.

(** The second loop gives, after the entries it has, the entries of the
    first candidates of each session id not yet seen, up to the limit. *)
Lemma dedupeLoop_first (limit : Z) (seen : gset jsstring)
    (deduped candidates : list PersistedSessionEntry) :
  dedupeLoop limit seen deduped candidates
  = deduped
    ++ take (atLeastOne (limit - Z.of_nat (length deduped)))
         (omap entryOfCandidate
            (filter (λ candidate, session_id candidate ∉ seen)
                    (firstOfEachId candidates))).
Proof.
  revert seen deduped.
  induction candidates as [|candidate rest IH]; intros seen deduped.
  { cbn. by rewrite take_nil, app_nil_r. }
  cbn [dedupeLoop firstOfEachId]. cbv zeta.
  rewrite filter_cons. rewrite list_filter_filter.
  case_bool_decide as Hseen.
  - rewrite decide_False by (intros Hnot; by apply Hnot).
    rewrite IH. do 3 f_equal. apply list_filter_iff. intros other.
    split; [|by intros [? ?]]. intros Hother. split; [done|]. congruence.
  - rewrite decide_True by done.
    assert (Hrest :
              filter (λ other, (session_id other ∉ seen)
                               ∧ session_id other ≠ session_id candidate)
                     (firstOfEachId rest)
              = filter (λ other,
                          session_id other ∉ ({[session_id candidate]} ∪ seen))
                       (firstOfEachId rest)).
    { apply list_filter_iff. intros other. set_solver. }
    rewrite Hrest. cbn [omap list_omap].
    destruct (entryOfCandidate candidate) as [entry|]; [|apply IH].
    rewrite length_app, Nat.add_1_r.
    case_bool_decide as Hlimit.
    + rewrite atLeastOne_reached by done. by cbn.
    + rewrite IH, length_app, Nat.add_1_r.
      rewrite (atLeastOne_step limit (length deduped)) by done.
      cbn [take]. by rewrite <- app_assoc.
Qed.

End IndexProperties.

Lemma filter_all_hold {A : Type} (P : A → Prop) `{!∀ x, Decision (P x)}
    (l : list A) :
  (∀ x, P x) → filter P l = l.
Proof.
  intros Hall. induction l as [|x l IH]; [done|].
  rewrite filter_cons, decide_True by done. by rewrite IH.
Qed.

Lemma endsWith_take (name suffix : jsstring) :
  endsWith name suffix = true →
  take (length name - length suffix) name ++ suffix = name.
Proof.
  unfold endsWith. intros [before ->]%bool_decide_eq_true.
  rewrite length_app, Nat.add_sub. by rewrite take_app_length.
Qed.

Lemma omap_ids_sublist {A : Type} (key : PersistedSessionEntry → A)
    (f : PersistedSessionEntry → option PersistedSessionEntry)
    (l : list PersistedSessionEntry) :
  (∀ c e, f c = Some e → key e = key c) →
  key <$> omap f l `sublist_of` key <$> l.
Proof.
  intros Hkey. induction l as [|c l IH]; [done|]. cbn [omap list_omap].
  destruct (f c) as [e|] eqn:He.
  - cbn. rewrite (Hkey c e He). by apply sublist_skip.
  - cbn. by apply sublist_cons.
Qed.

Lemma omap_sorted (f : PersistedSessionEntry → option PersistedSessionEntry)
    (l : list PersistedSessionEntry) :
  (∀ c e, f c = Some e → sort_ms e = sort_ms c) →
  StronglySorted notNewer l → StronglySorted notNewer (omap f l).
Proof.
  intros Hkey. induction 1 as [|c l Hsorted IH Hc]; [constructor|].
  cbn [omap list_omap]. destruct (f c) as [e|] eqn:He; [|done].
  constructor; [done|]. rewrite Forall_forall in Hc |- *.
  intros e' (c' & Hin & He')%list_elem_of_omap.
  unfold notNewer in *. rewrite (Hkey c e He), (Hkey c' e' He'). by apply Hc.
Qed.

Section IndexScan.
Context `{runtime : Runtime} `{fs : FileSystem}.

Lemma candidateOfFile_keeps (projectDir : jsstring) (file : Dirent)
    (candidate : PersistedSessionEntry) :
  candidateOfFile projectDir file = Some candidate →
  session_id candidate ≠ []
  ∧ session_id candidate
    = take (length (dirent_name file) - length (js ".jsonl")) (dirent_name file)
  ∧ file_path candidate = path_join [projectDir; dirent_name file]
  ∧ statSync_mtimeMs (file_path candidate) = Some (sort_ms candidate)
  ∧ is_finite (sort_ms candidate) = true
  ∧ (sort_ms candidate <=? 0)%float = false.
Proof.
  unfold candidateOfFile. cbv zeta. case_bool_decide as Hid; [done|].
  destruct (statSync_mtimeMs _) as [mtimeMs|] eqn:Hstat; [|done].
  destruct (is_finite mtimeMs) eqn:Hfinite; [|done].
  destruct (mtimeMs <=? 0)%float eqn:Hpositive; [done|].
  cbn [negb orb]. by intros [= <-].
Qed.

Lemma scanned_candidate (candidates : list PersistedSessionEntry)
    (candidate : PersistedSessionEntry) :
  scanCandidates = Some candidates → candidate ∈ candidates →
  session_id candidate ≠ []
  ∧ is_finite (sort_ms candidate) = true
  ∧ (sort_ms candidate <=? 0)%float = false
  ∧ IsSessionFile candidate.
Proof.
  unfold scanCandidates. cbv zeta.
  destruct (existsSync projectsRoot); [|done]. cbn [negb].
  destruct (readdirSync projectsRoot) as [dirents|] eqn:Hroot; [|done].
  intros [= <-] (found & Hin & Hfound)%list_elem_of_join.
  apply list_elem_of_fmap in Hfound as (dirent & -> & Hdirent).
  apply list_elem_of_In, filter_In in Hdirent as [Hdirent Hdirectory].
  apply list_elem_of_In in Hdirent.
  unfold candidatesOfProject in Hin. cbv zeta in Hin.
  apply list_elem_of_omap in Hin as (file & Hfile & Hcandidate).
  destruct (readdirSync (path_join [projectsRoot; dirent_name dirent]))
    as [files|] eqn:Hfiles; [|by apply elem_of_nil in Hfile].
  apply list_elem_of_In, filter_In in Hfile as [Hfile Hjsonl].
  apply list_elem_of_In in Hfile. apply andb_true_iff in Hjsonl as [HisFile Hends].
  apply candidateOfFile_keeps in Hcandidate
    as (Hid & Hname & Hpath & Hstat & Hfinite & Hpositive).
  repeat split; try done.
  exists dirents, dirent, files, file. repeat split; try done.
  rewrite Hname. symmetry. by apply endsWith_take.
Qed.

Lemma listRecent_first (limit : option Z) :
  listRecentPersistedSessions limit
  = take (atLeastOne (default 8%Z limit))
      (omap entryOfCandidate
         (firstOfEachId (sortByTime (default [] scanCandidates)))).
Proof.
  unfold listRecentPersistedSessions. cbv zeta.
  destruct scanCandidates as [candidates|]; [|by destruct (atLeastOne _)].
  rewrite dedupeLoop_first. cbn [app length default].
  rewrite Z.sub_0_r. change (id candidates) with candidates.
  by rewrite filter_all_hold by set_solver.
Qed.


(** X15. The list of the index: no two entries have one session id, there
    are at most [limit] entries (at most one for a [limit] below one), and
    they are in the order of their modification times, newest first. *)
Theorem recent_sessions_distinct_bounded_ranked (limit : option Z) :
  let result := listRecentPersistedSessions limit in
  NoDup (session_id <$> result)
  ∧ (length result ≤ atLeastOne (default 8%Z limit))%nat
  ∧ StronglySorted notNewer result.
Proof.
  cbv zeta. rewrite listRecent_first.
  set (candidates := default [] scanCandidates).
  assert (Hkeeps : ∀ c e, entryOfCandidate c = Some e →
                          session_id e = session_id c ∧ sort_ms e = sort_ms c).
  { intros c e He. apply entryOfCandidate_keeps in He. cbv zeta in He. tauto. }
  split; [|split].
  - eapply (sublist_NoDup _ (session_id <$> firstOfEachId (sortByTime candidates)));
      [apply firstOfEachId_distinct|].
    etrans; [apply fmap_sublist, sublist_take|].
    apply omap_ids_sublist. intros c e He. by apply Hkeeps.
  - rewrite length_take. lia.
  - eapply sublist_StronglySorted; [apply sublist_take|].
    apply omap_sorted; [intros c e He; by apply Hkeeps|].
    eapply sublist_StronglySorted; [apply firstOfEachId_sublist|].
    apply sortByTime_sorted. apply Forall_forall. intros c Hc.
    subst candidates. destruct scanCandidates as [candidates|] eqn:Hscan;
      [|by apply elem_of_nil in Hc].
    by destruct (scanned_candidate candidates c Hscan Hc) as (_ & ? & _).
Qed.

Lemma scan_root_exists (candidates : list PersistedSessionEntry) :
  scanCandidates = Some candidates → existsSync projectsRoot = true.
Proof.
  unfold scanCandidates. cbv zeta. by destruct (existsSync projectsRoot).
Qed.

Lemma listed_entry (limit : option Z) (entry : PersistedSessionEntry) :
  entry ∈ listRecentPersistedSessions limit →
  let preview :=
    extractSessionPreviewFromJsonl (readFileSync (file_path entry)) in
  session_id entry ≠ []
  ∧ cwd entry ≠ []
  ∧ trim <$> preview_cwd preview = Some (cwd entry)
  ∧ title entry = preview_title preview
  ∧ is_finite (sort_ms entry) = true
  ∧ (sort_ms entry <=? 0)%float = false
  ∧ IsSessionFile entry
  ∧ existsSync projectsRoot = true.
Proof.
  rewrite listRecent_first. intros Hentry.
  assert (Hin : entry ∈ omap entryOfCandidate
                  (firstOfEachId (sortByTime (default [] scanCandidates))))
    by (eapply elem_of_sublist; [exact Hentry | apply sublist_take]).
  apply list_elem_of_omap in Hin as (candidate & Hcandidate & Hbuilt).
  apply entryOfCandidate_keeps in Hbuilt. cbv zeta in Hbuilt.
  destruct Hbuilt as (Hid & Hpath & Hms & Hcwd & Hpreview & Htitle).
  assert (Hscanned : candidate ∈ default [] scanCandidates).
  { rewrite <- (sortByTime_permutation (default [] scanCandidates)).
    eapply elem_of_sublist; [exact Hcandidate | apply firstOfEachId_sublist]. }
  destruct scanCandidates as [candidates|] eqn:Hscan;
    [|by apply elem_of_nil in Hscanned].
  destruct (scanned_candidate candidates candidate Hscan Hscanned)
    as (Hid' & Hfinite & Hpositive & Hfile).
  cbv zeta. rewrite Hpath, Hid, Hms. repeat split; try done.
  - destruct Hfile as (dirents & dirent & files & file & Hfile).
    exists dirents, dirent, files, file. by rewrite Hpath, Hid, Hms.
  - by eapply scan_root_exists.
Qed.

(** X16. Where an entry of the index comes from. Each entry is of a session
    file that the scan meets: a file [<session id>.jsonl] in a directory of
    the projects root, whose modification time, finite and above zero, is the
    entry's [sort_ms]. Its [cwd] is the trimmed [cwd] of the preview of that
    file and is not empty, its title is the title of that preview, and its
    session id is not empty. *)
Theorem recent_sessions_provenance (limit : option Z) :
  Forall (λ entry,
            let preview :=
              extractSessionPreviewFromJsonl (readFileSync (file_path entry)) in
            session_id entry ≠ []
            ∧ cwd entry ≠ []
            ∧ trim <$> preview_cwd preview = Some (cwd entry)
            ∧ title entry = preview_title preview
            ∧ is_finite (sort_ms entry) = true
            ∧ (sort_ms entry <=? 0)%float = false
            ∧ IsSessionFile entry)
         (listRecentPersistedSessions limit).
Proof.
  apply Forall_forall. intros entry Hentry.
  apply listed_entry in Hentry. cbv zeta in Hentry |- *. tauto.
Qed.

End IndexScan.

(** The index of [exampleFiles]: the session [s1], with the trimmed [cwd] and
    the title of its file. The session [s2] is left out, its newer file has
    no [cwd] and the older one is not tried; the file without a session id
    and the file that is no log are passed over. *)
Example index_of_exampleFiles :
  @listRecentPersistedSessions jsonRuntime exampleFiles None = [s1Entry].
Proof. by vm_compute. Qed.

(** ** Resolving a session id *)

Lemma includes_occurs (s needle : jsstring) :
  includes s needle = true ↔ occursIn needle s.
Proof.
  unfold occursIn. induction s as [|c s IH]; cbn [includes].
  - rewrite bool_decide_eq_true. split.
    + intros ->. by exists [], [].
    + intros (before & after & Heq). symmetry in Heq.
      apply app_eq_nil in Heq as [_ Heq]. by apply app_eq_nil in Heq as [? _].
  - rewrite orb_true_iff, bool_decide_eq_true, IH. split.
    + intros [[after ->] | (before & after & ->)].
      * by exists [], after.
      * by exists (c :: before), after.
    + intros ([|c' before] & after & Heq).
      * left. by exists after.
      * right. injection Heq as -> ->. by exists before, after.
Qed.

Section ResolveProperties.
Context `{runtime : Runtime} `{fs : FileSystem}.

Lemma resolveLoop_fold (sessionId : jsstring)
    (best : option PersistedSessionEntry) (projectDirs : list Dirent) :
  resolveLoop projectsRoot sessionId best projectDirs
  = foldl laterOf best (omap (resolvedIn sessionId) projectDirs).
Proof.
  revert best. induction projectDirs as [|dirent rest IH]; intros best; [done|].
  cbn [resolveLoop omap list_omap]. unfold resolvedIn at 1. cbv zeta.
  destruct (existsSync _); cbn [negb]; [|apply IH].
  destruct (trim <$> preview_cwd _) as [[|c value]|]; [apply IH| |apply IH].
  rewrite IH. cbn [foldl]. f_equal. by destruct best.
Qed.

Lemma resolvedIn_fields (sessionId : jsstring) (dirent : Dirent)
    (entry : PersistedSessionEntry) :
  resolvedIn sessionId dirent = Some entry →
  let filePath :=
    path_join [projectsRoot; dirent_name dirent; sessionId ++ js ".jsonl"] in
  session_id entry = sessionId
  ∧ file_path entry = filePath
  ∧ existsSync filePath = true
  ∧ cwd entry ≠ []
  ∧ trim <$> preview_cwd
               (extractSessionPreviewFromJsonl (readFileSync filePath))
    = Some (cwd entry)
  ∧ sort_ms entry = default 0%float (statSync_mtimeMs filePath)
  ∧ title entry = None ∧ updated_at entry = None.
Proof.
  unfold resolvedIn. cbv zeta. destruct (existsSync _); [|done].
  destruct (trim <$> preview_cwd _) as [[|c value]|]; [done| |done].
  by intros [= <-].
Qed.

Lemma foldl_laterOf_found (best : option PersistedSessionEntry)
    (found : list PersistedSessionEntry) :
  match foldl laterOf best found with
  | Some entry => best = Some entry ∨ entry ∈ found
  | None => best = None ∧ found = []
  end.
Proof.
  revert best. induction found as [|e found IH]; intros best.
  { by destruct best; [left|]. }
  cbn [foldl]. specialize (IH (laterOf best e)).
  destruct (foldl laterOf (laterOf best e) found) as [entry|].
  - rewrite elem_of_cons.
    destruct IH as [Hbest | Hin]; [|by right; right].
    unfold laterOf in Hbest. destruct best as [b|].
    + destruct (sort_ms b <=? sort_ms e)%float;
        [right; left; congruence | by left].
    + right. left. congruence.
  - destruct IH as [Hbest _]. unfold laterOf in Hbest.
    destruct best as [b|]; [|done]. by destruct (sort_ms b <=? sort_ms e)%float.
Qed.

Lemma foldl_laterOf_latest (best : option PersistedSessionEntry)
    (found : list PersistedSessionEntry) (entry : PersistedSessionEntry) :
  Forall (λ e, is_finite (sort_ms e) = true) found →
  from_option (λ b, is_finite (sort_ms b) = true) True best →
  foldl laterOf best found = Some entry →
  Forall (λ e, notNewer entry e) found
  ∧ from_option (notNewer entry) True best.
Proof.
  intros Hfound. revert best.
  induction Hfound as [|e found He Hfound IH]; intros best Hbest; cbn [foldl].
  { intros ->. split; [done|]. cbn. unfold notNewer.
    destruct (sort_ms entry <=? sort_ms entry)%float eqn:Hrefl; [done|].
    cbn in Hbest. pose proof (leb_total _ _ Hbest Hbest Hrefl). congruence. }
  intros Hresult.
  assert (Hnext : from_option (λ b, is_finite (sort_ms b) = true) True
                    (laterOf best e)).
  { unfold laterOf. destruct best as [b|]; [|done].
    by destruct (sort_ms b <=? sort_ms e)%float. }
  destruct (IH _ Hnext Hresult) as [Hall Hlater]. unfold laterOf in Hlater.
  destruct best as [b|]; cbn in Hbest |- *.
  - destruct (sort_ms b <=? sort_ms e)%float eqn:Hbe; cbn in Hlater.
    + split; [by constructor|]. unfold notNewer in *. by eapply leb_trans.
    + split; [|done]. constructor; [|done]. unfold notNewer in *.
      eapply leb_trans; [|exact Hlater]. by apply leb_total.
  - split; [|done]. by constructor.
Qed.

Lemma resolve_unfold (sessionId : jsstring) :
  resolvePersistedSessionEntry sessionId
  = if bool_decide (trim sessionId = [])
       || includes sessionId (js "/") || includes sessionId [92]
       || includes sessionId (js "..")
    then None
    else if existsSync projectsRoot
    then dirents ← readdirSync projectsRoot;
         foldl laterOf None
               (omap (resolvedIn sessionId) (List.filter isDirectory dirents))
    else None.
Proof.
  unfold resolvePersistedSessionEntry. cbv zeta.
  replace (bool_decide (length (trim sessionId) = 0%nat))
    with (bool_decide (trim sessionId = []))
    by (by destruct (trim sessionId)).
  destruct (_ || _); [done|].
  destruct (existsSync projectsRoot); [|done]. cbn [negb].
  destruct (readdirSync projectsRoot) as [dirents|]; [|done].
  cbn. apply resolveLoop_fold.
Qed.

(** X17. What resolving a session id gives. An entry is returned only for
    an id that is not blank and in which no slash, no backslash and no pair
    of dots occurs; the entry has that id, and it is of the file
    [<id>.jsonl] in a directory of the projects root, a file that is there
    and whose preview has a usable [cwd], trimmed in the entry. Nothing is
    returned for another id, without a readable projects root, or when no
    directory of the root holds such a file. *)
Theorem resolved_entry_is_safe (sessionId : jsstring) :
  match resolvePersistedSessionEntry sessionId with
  | Some entry =>
      trim sessionId ≠ []
      ∧ ¬ occursIn (js "/") sessionId
      ∧ ¬ occursIn [92] sessionId
      ∧ ¬ occursIn (js "..") sessionId
      ∧ existsSync projectsRoot = true
      ∧ ∃ dirents dirent,
          readdirSync projectsRoot = Some dirents
          ∧ dirent ∈ dirents ∧ isDirectory dirent = true
          ∧ let filePath :=
              path_join [projectsRoot; dirent_name dirent;
                         sessionId ++ js ".jsonl"] in
            session_id entry = sessionId
            ∧ file_path entry = filePath
            ∧ existsSync filePath = true
            ∧ cwd entry ≠ []
            ∧ trim <$> preview_cwd
                         (extractSessionPreviewFromJsonl (readFileSync filePath))
              = Some (cwd entry)
            ∧ sort_ms entry = default 0%float (statSync_mtimeMs filePath)
            ∧ title entry = None ∧ updated_at entry = None
  | None =>
      trim sessionId = []
      ∨ occursIn (js "/") sessionId
      ∨ occursIn [92] sessionId
      ∨ occursIn (js "..") sessionId
      ∨ existsSync projectsRoot = false
      ∨ readdirSync projectsRoot = None
      ∨ ∃ dirents,
          readdirSync projectsRoot = Some dirents
          ∧ ∀ dirent, dirent ∈ dirents → isDirectory dirent = true →
                      resolvedIn sessionId dirent = None
  end.
Proof.
  rewrite resolve_unfold.
  destruct (bool_decide (trim sessionId = [])) eqn:Hblank.
  { apply bool_decide_eq_true in Hblank. by left. }
  apply bool_decide_eq_false in Hblank.
  destruct (includes sessionId (js "/")) eqn:Hslash.
  { apply includes_occurs in Hslash. right. by left. }
  destruct (includes sessionId [92]) eqn:Hbackslash.
  { apply includes_occurs in Hbackslash. right. right. by left. }
  destruct (includes sessionId (js "..")) eqn:Hdots.
  { apply includes_occurs in Hdots. right. right. right. by left. }
  cbn [orb].
  assert (Hno : ∀ needle, includes sessionId needle = false →
                          ¬ occursIn needle sessionId).
  { intros needle Hfalse Hoccurs%includes_occurs. congruence. }
  destruct (existsSync projectsRoot) eqn:Hroot; [|by do 4 right; left].
  destruct (readdirSync projectsRoot) as [dirents|] eqn:Hdirents;
    [|by do 5 right; left].
  cbn.
  pose proof (foldl_laterOf_found None
                (omap (resolvedIn sessionId) (List.filter isDirectory dirents)))
    as Hfound.
  destruct (foldl laterOf None _) as [entry|].
  - destruct Hfound as [|Hin]; [done|].
    apply list_elem_of_omap in Hin as (dirent & Hdirent & Hentry).
    apply list_elem_of_In, filter_In in Hdirent as [Hdirent Hdirectory].
    apply list_elem_of_In in Hdirent.
    repeat (split; [by auto|]).
    exists dirents, dirent. repeat (split; [done|]).
    by apply resolvedIn_fields.
  - destruct Hfound as [_ Hnone]. do 6 right. exists dirents. split; [done|].
    intros dirent Hdirent Hdirectory.
    destruct (resolvedIn sessionId dirent) as [entry|] eqn:Hentry; [|done].
    assert (Hin : entry ∈ omap (resolvedIn sessionId)
                    (List.filter isDirectory dirents)).
    { apply list_elem_of_omap. exists dirent. split; [|done].
      apply list_elem_of_In, filter_In. by rewrite <- list_elem_of_In. }
    rewrite Hnone in Hin. by apply elem_of_nil in Hin.
Qed.

(** X18. Which file is resolved. When the modification times of the file
    system are finite, the entry returned for a session id is of the newest
    of the usable files of that id: no directory of the projects root holds
    a usable file of the id with a later modification time. *)
Theorem resolved_entry_is_latest (sessionId : jsstring)
    (entry : PersistedSessionEntry) (dirents : list Dirent) :
  (∀ path time, statSync_mtimeMs path = Some time → is_finite time = true) →
  resolvePersistedSessionEntry sessionId = Some entry →
  readdirSync projectsRoot = Some dirents →
  ∀ dirent other,
    dirent ∈ dirents → isDirectory dirent = true →
    resolvedIn sessionId dirent = Some other →
    (sort_ms other <=? sort_ms entry)%float = true.
Proof.
  intros Hfinite Hresolved Hdirents dirent other Hdirent Hdirectory Hother.
  rewrite resolve_unfold in Hresolved.
  destruct (_ || _); [done|].
  destruct (existsSync projectsRoot); [|done].
  rewrite Hdirents in Hresolved. cbn in Hresolved.
  apply foldl_laterOf_latest in Hresolved as [Hall _]; [|idtac|done].
  - rewrite Forall_forall in Hall. apply Hall.
    apply list_elem_of_omap. exists dirent. split; [|done].
    apply list_elem_of_In, filter_In. by rewrite <- list_elem_of_In.
  - apply Forall_forall. intros e (d & _ & He)%list_elem_of_omap.
    apply resolvedIn_fields in He. cbv zeta in He.
    destruct He as (_ & _ & _ & _ & _ & -> & _).
    destruct (statSync_mtimeMs _) as [time|] eqn:Htime; [by eapply Hfinite|done].
Qed.

End ResolveProperties.

(** X18 at the session [s2] of [exampleFiles]: the file of 100 ms is
    resolved, the usable file of 50 ms is not later. *)
Lemma resolved_entry_is_latest_witness :
  @resolvePersistedSessionEntry jsonRuntime exampleFiles (js "s2") = Some s2Entry
  ∧ (sort_ms s2OldestEntry <=? sort_ms s2Entry)%float = true.
Proof.
  split; [by vm_compute|].
  apply (@resolved_entry_is_latest jsonRuntime exampleFiles (js "s2") s2Entry
           [ mkDirent (js "p1") true false; mkDirent (js "notes.txt") false true;
             mkDirent (js "p2") true false; mkDirent (js "p3") true false ])
    with (dirent := mkDirent (js "p3") true false).
  - intros path time. cbn [statSync_mtimeMs exampleFiles].
    repeat case_bool_decide; by intros [= <-].
  - by vm_compute.
  - by vm_compute.
  - set_solver.
  - reflexivity.
  - by vm_compute.
Defined.

(** ** Invariants of the replay *)

Lemma omap_addressOf_app (us vs : list (SessionUpdateOf nat)) :
  omap addressOf (us ++ vs) = omap addressOf us ++ omap addressOf vs.
Proof. apply omap_app. Qed.

Lemma pushResumeTextChunk_consistent (us : list (SessionUpdateOf nat))
    (role : Role) (text : jsstring) :
  Forall Emittable us →
  Forall Emittable (pushResumeTextChunk us role text)
  ∧ omap addressOf (pushResumeTextChunk us role text) = omap addressOf us.
Proof.
  intros Hus. unfold pushResumeTextChunk. case_bool_decide as Hblank; [done|].
  destruct role; rewrite Forall_app, omap_addressOf_app; cbn;
    rewrite app_nil_r; by repeat constructor.
Qed.

Section ReplayInvariants.
Context `{tooling : Tooling} `{runtime : Runtime}.

Lemma pushResumeToolUse_consistent (st : ReplayState) (block : JsObject) :
  Consistent st → Consistent (pushResumeToolUse st block).
Proof.
  intros [Hupdates Haddresses]. unfold pushResumeToolUse. cbv zeta.
  case_bool_decide; [done|]. split; cbn [updates objects].
  - apply Forall_app. by repeat constructor.
  - rewrite omap_addressOf_app, Haddresses, length_app, Nat.add_1_r, seq_S.
    done.
Qed.

Lemma pushResumeToolResult_consistent (st : ReplayState) (block : JsObject) :
  Consistent st → Consistent (pushResumeToolResult st block).
Proof.
  intros [Hupdates Haddresses]. unfold pushResumeToolResult. cbv zeta.
  case_bool_decide as Hid; [done|].
  destruct (toolCalls st !! _) as [address|]; cbn [mbind option_bind].
  - destruct (objects st !! address) as [base|]; split; cbn [updates objects];
      rewrite ?Forall_app, ?omap_addressOf_app, ?length_insert, ?Haddresses;
      cbn; rewrite ?app_nil_r; by repeat constructor.
  - split; cbn [updates objects];
      rewrite ?Forall_app, ?omap_addressOf_app, ?Haddresses;
      cbn; rewrite ?app_nil_r; by repeat constructor.
Qed.

Lemma replayBlock_consistent (role : Role) (st : ReplayState) (item : Json) :
  Consistent st → Consistent (replayBlock role st item).
Proof.
  intros Hst. unfold replayBlock.
  destruct (asRecordOrNull (Some item)) as [block|]; [|done].
  case_bool_decide; [done|].
  destruct (if bool_decide _ then _ else _) as [text|].
  { destruct Hst as [Hupdates Haddresses].
    destruct (pushResumeTextChunk_consistent (updates st) role text Hupdates)
      as [Hpushed Hsame].
    split; cbn [updates objects]; [done | by rewrite Hsame]. }
  destruct (isToolUseBlockType _ && _); [by apply pushResumeToolUse_consistent|].
  case_bool_decide; [by apply pushResumeToolResult_consistent|].
  case_bool_decide; [|done].
  destruct Hst as [Hupdates Haddresses].
  destruct (pushResumeTextChunk_consistent (updates st) role (js "[image]")
              Hupdates) as [Hpushed Hsame].
  split; cbn [updates objects]; [done | by rewrite Hsame].
Qed.

Lemma pushResumeUsageUpdate_consistent (st : ReplayState) (message : JsObject) :
  Consistent st → Consistent (pushResumeUsageUpdate st message).
Proof.
  intros [Hupdates Haddresses]. unfold pushResumeUsageUpdate. cbv zeta.
  destruct (negb _ && _); [done|].
  destruct (buildUsageUpdateFromResult message) as [update|] eqn:Hbuilt;
    [|done].
  assert (Hupdate : Emittable update ∧ addressOf update = None).
  { unfold buildUsageUpdateFromResult, buildUsageUpdateFromResultForSession
      in Hbuilt.
    cbv zeta in Hbuilt.
    replace (observeTotalCost None _) with (@None UsageSessionContext, @None float)
      in Hbuilt by (by destruct (numberField message _)).
    destruct (allUndefined _) eqn:Hfields; [done|].
    cbn [fst snd] in Hbuilt. injection Hbuilt as <-. by cbn. }
  destruct Hupdate as [Hemittable Haddress].
  split; cbn [updates objects].
  - apply Forall_app. by repeat constructor.
  - rewrite omap_addressOf_app. cbn. rewrite Haddress, Haddresses.
    by rewrite app_nil_r.
Qed.

Lemma reachable_consistent (st : ReplayState) : Reachable st → Consistent st.
Proof.
  induction 1 as [|role st item _ IH|st message _ IH].
  - by split.
  - by apply replayBlock_consistent.
  - by apply pushResumeUsageUpdate_consistent.
Qed.

Lemma readUpdate_emittable (objs : list ToolCall) (u : SessionUpdateOf nat) :
  Emittable u → Emittable (readUpdate objs u).
Proof. by destruct u. Qed.

(** X19. What a replay returns. Every text chunk of the returned updates has
    text that is not blank, every [tool_call_update] names its call with a
    string that is not empty, and every [usage_update] has at least one field
    and never a turn cost. In the replay's own array the [tool_call] updates
    hold the stored calls, each once, in the order in which they were
    stored. *)
Theorem replayed_updates_are_emittable (text : jsstring) :
  Forall Emittable (extractSessionHistoryUpdatesFromJsonl (Some text))
  ∧ Consistent (foldl replayLine initialReplayState (splitLines text)).
Proof.
  pose proof (reachable_consistent _ (reachable_lines (splitLines text)))
    as Hconsistent.
  split; [|done]. destruct Hconsistent as [Hupdates _].
  unfold extractSessionHistoryUpdatesFromJsonl, readUpdates.
  apply Forall_fmap. eapply Forall_impl; [exact Hupdates|].
  intros u Hu. by apply readUpdate_emittable.
Qed.

Lemma read_unchanged (us : list (SessionUpdateOf nat))
    (objs objs' : list ToolCall) :
  (∀ address, address ∈ omap addressOf us →
              objs' !!! address = objs !!! address) →
  readUpdate objs' <$> us = readUpdate objs <$> us.
Proof.
  intros Hsame. induction us as [|u us IH]; [done|]. cbn [fmap list_fmap].
  f_equal.
  - destruct u as [| |address| |]; try done. cbn. f_equal. apply Hsame.
    cbn. by left.
  - apply IH. intros address Hin. apply Hsame.
    destruct u; cbn; try done. by right.
Qed.

(** X20. A tool call and its result, as the caller reads them. From a state
    that a replay goes through, a tool-use block with an id that is not empty
    pushes a [tool_call] that shows the created call in progress; the
    tool-result block of that id then pushes its [tool_call_update], and the
    [tool_call] pushed before shows the call with the result merged in: the
    update and the lookup table share one object. The updates pushed earlier
    read as they did. *)
Theorem tool_result_rewrites_its_call (st : ReplayState)
    (use result : JsObject) (id : jsstring) :
  Reachable st →
  id ≠ [] →
  asString (getField use (js "id")) = Some id →
  asString (getField result (js "tool_use_id")) = Some id →
  let created :=
    createToolCall id
      (default (js "Tool") (asString (getField use (js "name"))))
      (default [] (asRecordOrNull (getField use (js "input")))) in
  let call :=
    {| tc_id := tc_id created; tc_name := tc_name created;
       tc_input := tc_input created; tc_status := js "in_progress";
       tc_raw_output := tc_raw_output created;
       tc_content := tc_content created |} in
  let fields :=
    buildToolResultFields (truthy (getField result (js "is_error")))
      (getField result (js "content")) (Some call) in
  let st1 := pushResumeToolUse st use in
  let st2 := pushResumeToolResult st1 result in
  readUpdates st1 = readUpdates st ++ [tool_call call]
  ∧ readUpdates st2
    = readUpdates st
      ++ [tool_call (mergeToolResult call fields); tool_call_update id fields].
Proof.
  intros Hreach Hid Huse Hresult. cbv zeta.
  apply reachable_consistent in Hreach as [_ Haddresses].
  assert (Hbelow : ∀ address, address ∈ omap addressOf (updates st) →
                              (address < length (objects st))%nat).
  { intros address. rewrite Haddresses, elem_of_seq. lia. }
  unfold pushResumeToolResult, pushResumeToolUse. cbv zeta.
  rewrite Huse, Hresult. cbn [default].
  rewrite !(bool_decide_eq_false_2 (id = [])) by done.
  cbn [toolCalls objects updates].
  rewrite lookup_insert_eq. cbn [mbind option_bind].
  rewrite list_lookup_middle by done.
  unfold readUpdates. cbn [updates objects].
  split.
  - rewrite fmap_app. cbn [fmap list_fmap readUpdate].
    rewrite list_lookup_total_middle by done. f_equal.
    apply read_unchanged. intros address Hin.
    by rewrite lookup_total_app_l by by apply Hbelow.
  - rewrite !fmap_app. cbn [fmap list_fmap readUpdate].
    rewrite <- app_assoc. cbn [app].
    rewrite insert_app_r_alt, Nat.sub_diag by done. cbn [insert list_insert].
    rewrite list_lookup_total_middle by done. f_equal.
    apply read_unchanged. intros address Hin.
    by rewrite lookup_total_app_l by by apply Hbelow.
Qed.

End ReplayInvariants.

(** X20 at the first blocks of a replay. *)
Lemma tool_result_rewrites_its_call_witness :
  @readUpdates
     (@pushResumeToolResult exampleTooling
        (@pushResumeToolUse exampleTooling initialReplayState readUseBlock)
        readResultBlock)
  = [ tool_call {| tc_id := js "t1"; tc_name := js "Read"; tc_input := [];
                   tc_status := js "completed";
                   tc_raw_output := Some (JStr (js "done"));
                   tc_content := None |};
      tool_call_update (js "t1")
        {| f_status := Some (js "completed");
           f_raw_output := Some (JStr (js "done")); f_content := None |} ].
Proof.
  refine (proj2 (@tool_result_rewrites_its_call exampleTooling
                   initialReplayState readUseBlock readResultBlock (js "t1")
                   reach_initial _ eq_refl eq_refl)).
  discriminate.
Defined.

(** ** The text of a title *)

Lemma collapseWhiteSpace_single (s : jsstring) :
  singleSpaced (collapseWhiteSpace true s) = true
  ∧ startsClean (collapseWhiteSpace true s) = true
  ∧ singleSpaced (collapseWhiteSpace false s) = true.
Proof.
  induction s as [|c s (IHrun & IHclean & IHfresh)]; [done|].
  cbn [collapseWhiteSpace]. destruct (isWhiteSpace c) eqn:Hc.
  - cbn [app]. repeat split; try done.
    change (js " " ++ collapseWhiteSpace true s)
      with (32 :: collapseWhiteSpace true s).
    cbn [singleSpaced]. rewrite IHclean, IHrun. by rewrite orb_true_r.
  - cbn [singleSpaced startsClean]. by rewrite Hc, IHfresh.
Qed.

Lemma singleSpaced_app (s t : jsstring) :
  singleSpaced (s ++ t) = true → singleSpaced s = true ∧ singleSpaced t = true.
Proof.
  induction s as [|c s IH]; [done|]. cbn [app singleSpaced].
  intros [Hc Hrest]%andb_true_iff. destruct (IH Hrest) as [Hs Ht].
  split; [|done]. rewrite Hs, andb_true_r.
  destruct s as [|d s]; [|done]. cbn [startsClean].
  by destruct (negb (isWhiteSpace c)), (c =? 32).
Qed.

Lemma trimStart_suffix (s : jsstring) :
  ∃ before, s = before ++ trimStart s.
Proof.
  induction s as [|c s [before IH]]; [by exists []|]. cbn [trimStart].
  destruct (isWhiteSpace c); [|by exists []].
  exists (c :: before). cbn [app]. by f_equal.
Qed.

Lemma trimStart_clean (s : jsstring) : startsClean (trimStart s) = true.
Proof.
  induction s as [|c s IH]; [done|]. cbn [trimStart].
  destruct (isWhiteSpace c) eqn:Hc; [done|]. cbn [startsClean]. by rewrite Hc.
Qed.

Lemma trimEnd_prefix (s : jsstring) : ∃ after, s = trimEnd s ++ after.
Proof.
  unfold trimEnd. destruct (trimStart_suffix (reverse s)) as [before Heq].
  exists (reverse before).
  rewrite <- reverse_app, <- Heq. by rewrite reverse_involutive.
Qed.

Lemma trim_ends_clean (s : jsstring) (c : N) :
  last (trim s) = Some c → isWhiteSpace c = false.
Proof.
  unfold trim, trimEnd. rewrite last_reverse.
  pose proof (trimStart_clean (reverse (trimStart s))) as Hclean.
  destruct (trimStart (reverse (trimStart s))) as [|d rest]; [done|].
  cbn in Hclean |- *. intros [= <-]. by destruct (isWhiteSpace d).
Qed.

Lemma trim_starts_clean (s : jsstring) : startsClean (trim s) = true.
Proof.
  unfold trim. pose proof (trimStart_clean s) as Hclean.
  destruct (trimEnd_prefix (trimStart s)) as [after Heq].
  destruct (trimEnd (trimStart s)) as [|c rest]; [done|].
  rewrite Heq in Hclean. by cbn in Hclean |- *.
Qed.

Lemma trim_single_spaced (s : jsstring) :
  singleSpaced s = true → singleSpaced (trim s) = true.
Proof.
  intros Hs. unfold trim.
  destruct (trimStart_suffix s) as [before Hbefore].
  destruct (trimEnd_prefix (trimStart s)) as [after Hafter].
  rewrite Hbefore in Hs. apply singleSpaced_app in Hs as [_ Hs].
  rewrite Hafter in Hs. by apply singleSpaced_app in Hs as [Hs _].
Qed.

(** X21. The text that titles are made of. Whatever the raw text, the
    normalised text has no white space at its start or at its end, and inside
    it every white-space unit is a space that is followed by a unit that is
    no white space: runs of white space, line breaks and tabs are single
    spaces. *)
Theorem normalized_text_is_single_spaced (raw : jsstring) :
  let cleaned := normalizeUserPromptText raw in
  singleSpaced cleaned = true
  ∧ startsClean cleaned = true
  ∧ ∀ c, last cleaned = Some c → isWhiteSpace c = false.
Proof.
  cbv zeta. unfold normalizeUserPromptText. cbv zeta.
  set (text := replaceLinks 0 (replaceContextTag raw)).
  split; [|split].
  - apply trim_single_spaced.
    by destruct (collapseWhiteSpace_single text) as (_ & _ & Hfresh).
  - apply trim_starts_clean.
  - apply trim_ends_clean.
Qed.

(** ** What a replay keeps *)

Lemma Extends_refl (st : ReplayState) : Extends st st.
Proof. repeat split; try done. intros address call Hcall. by exists call. Qed.

Lemma Extends_trans (st1 st2 st3 : ReplayState) :
  Extends st1 st2 → Extends st2 st3 → Extends st1 st3.
Proof.
  intros (Hu & Ho & Ht & He) (Hu' & Ho' & Ht' & He').
  split; [by etrans|]. split; [|split; by etrans].
  intros address call Hcall.
  destruct (Ho address call Hcall) as (call' & Hcall' & Hid & Hname & Hinput).
  destruct (Ho' address call' Hcall')
    as (call'' & Hcall'' & Hid' & Hname' & Hinput').
  exists call''. repeat split; [done|congruence..].
Qed.

Lemma Extends_updates (st : ReplayState) (pushed : list (SessionUpdateOf nat)) :
  Extends st {| updates := updates st ++ pushed; objects := objects st;
                toolCalls := toolCalls st;
                emittedUsageMessageIds := emittedUsageMessageIds st |}.
Proof.
  repeat split; try done; cbn.
  - by apply prefix_app_r.
  - intros address call Hcall. by exists call.
Qed.

Lemma pushResumeTextChunk_prefix {T : Type} (us : list (SessionUpdateOf T))
    (role : Role) (text : jsstring) :
  ∃ pushed, pushResumeTextChunk us role text = us ++ pushed.
Proof.
  unfold pushResumeTextChunk. case_bool_decide; [exists []; by rewrite app_nil_r|].
  destruct role; eauto.
Qed.

Section ReplayKeeps.
Context `{tooling : Tooling} `{runtime : Runtime}.

Lemma pushResumeToolUse_extends (st : ReplayState) (block : JsObject) :
  Extends st (pushResumeToolUse st block).
Proof.
  unfold pushResumeToolUse. cbv zeta. case_bool_decide; [apply Extends_refl|].
  repeat split; cbn [updates objects toolCalls emittedUsageMessageIds]; try done.
  - by apply prefix_app_r.
  - intros address call Hcall. exists call. split; [|done].
    by apply lookup_app_l_Some.
  - rewrite dom_insert. set_solver.
Qed.

Lemma pushResumeToolResult_extends (st : ReplayState) (block : JsObject) :
  Extends st (pushResumeToolResult st block).
Proof.
  unfold pushResumeToolResult. cbv zeta. case_bool_decide; [apply Extends_refl|].
  destruct (toolCalls st !! _) as [address|]; cbn [mbind option_bind];
    [|apply Extends_updates].
  destruct (objects st !! address) as [base|] eqn:Hbase; [|apply Extends_updates].
  repeat split; cbn [updates objects toolCalls emittedUsageMessageIds]; try done.
  - by apply prefix_app_r.
  - intros other call Hcall. destruct (decide (other = address)) as [->|Hne].
    + rewrite Hbase in Hcall. injection Hcall as <-.
      eexists.
      split; [apply list_lookup_insert_eq; by eapply lookup_lt_Some | done].
    + exists call. by rewrite list_lookup_insert_ne.
Qed.

Lemma replayBlock_extends (role : Role) (st : ReplayState) (item : Json) :
  Extends st (replayBlock role st item).
Proof.
  unfold replayBlock.
  destruct (asRecordOrNull (Some item)) as [block|]; [|apply Extends_refl].
  case_bool_decide; [apply Extends_refl|].
  destruct (if bool_decide _ then _ else _) as [text|].
  { destruct (pushResumeTextChunk_prefix (updates st) role text) as [pushed ->].
    apply Extends_updates. }
  destruct (isToolUseBlockType _ && _); [apply pushResumeToolUse_extends|].
  case_bool_decide; [apply pushResumeToolResult_extends|].
  case_bool_decide; [|apply Extends_refl].
  destruct (pushResumeTextChunk_prefix (updates st) role (js "[image]"))
    as [pushed ->].
  apply Extends_updates.
Qed.

Lemma pushResumeUsageUpdate_extends (st : ReplayState) (message : JsObject) :
  Extends st (pushResumeUsageUpdate st message).
Proof.
  unfold pushResumeUsageUpdate. cbv zeta.
  destruct (negb _ && _); [apply Extends_refl|].
  destruct (buildUsageUpdateFromResult message) as [update|];
    [|apply Extends_refl].
  repeat split; cbn [updates objects toolCalls emittedUsageMessageIds]; try done.
  - by apply prefix_app_r.
  - intros address call Hcall. by exists call.
  - case_bool_decide; set_solver.
Qed.

Lemma foldl_extends {A : Type} (step : ReplayState → A → ReplayState)
    (st : ReplayState) (l : list A) :
  (∀ st x, Extends st (step st x)) → Extends st (foldl step st l).
Proof.
  intros Hstep. revert st. induction l as [|x l IH]; intros st;
    [apply Extends_refl|].
  cbn [foldl]. eapply Extends_trans; [apply Hstep | apply IH].
Qed.

Lemma replayMessage_extends (st : ReplayState) (message : JsObject) :
  Extends st (replayMessage st message).
Proof.
  unfold replayMessage. cbv zeta.
  destruct (match asString _ with Some _ => _ | None => _ end) as [role|];
    [|apply Extends_refl].
  eapply Extends_trans; [|apply pushResumeUsageUpdate_extends].
  apply foldl_extends. intros st' item. apply replayBlock_extends.
Qed.

Lemma replayLine_extends (st : ReplayState) (rawLine : jsstring) :
  Extends st (replayLine st rawLine).
Proof.
  rewrite replayLine_candidates. apply foldl_extends, replayMessage_extends.
Qed.

(** X22. What a replay keeps. Replaying further lines from any state only
    adds: the updates pushed so far stay, in their order, at the start of the
    array; a stored call stays at its address with its id, name and input
    (only its status, raw output and content are written to); an id of the
    lookup table stays in it; a message id once seen stays seen. *)
Theorem replay_only_appends (st : ReplayState) (lines : list jsstring) :
  Extends st (foldl replayLine st lines).
Proof. apply foldl_extends, replayLine_extends. Qed.

End ReplayKeeps.

(** ** The index and the resolver together *)

Section IndexAndResolver.
Context `{runtime : Runtime} `{fs : FileSystem}.

Lemma resolvedIn_at (sessionId : jsstring) (dirent : Dirent)
    (entry : PersistedSessionEntry) :
  file_path entry
  = path_join [projectsRoot; dirent_name dirent; sessionId ++ js ".jsonl"] →
  existsSync (file_path entry) = true →
  trim <$> preview_cwd
             (extractSessionPreviewFromJsonl (readFileSync (file_path entry)))
  = Some (cwd entry) →
  cwd entry ≠ [] →
  statSync_mtimeMs (file_path entry) = Some (sort_ms entry) →
  resolvedIn sessionId dirent
  = Some {| session_id := sessionId; cwd := cwd entry;
            file_path := file_path entry; title := None;
            updated_at := None; sort_ms := sort_ms entry |}.
Proof.
  intros Hpath Hthere Hpreview Hcwd Hstat. unfold resolvedIn. cbv zeta.
  destruct Hpath. rewrite Hthere, Hpreview, Hstat. by destruct (cwd entry).
Qed.

(** X23. A listed session can be resolved. On a file system where joining
    a directory name to the projects root and then a file name to the result
    is joining the three at once, and where a file that has a modification
    time is there, every session that the index lists is resolved by its id,
    provided the id gets past the resolver's guard: it is not blank and holds
    no slash, no backslash and no pair of dots. The guard is the resolver's
    alone: the index lists a file whatever its name. *)
Theorem listed_session_is_resolvable (limit : option Z)
    (entry : PersistedSessionEntry) :
  (∀ directory file,
     path_join [path_join [projectsRoot; directory]; file]
     = path_join [projectsRoot; directory; file]) →
  (∀ path time, statSync_mtimeMs path = Some time → existsSync path = true) →
  entry ∈ listRecentPersistedSessions limit →
  trim (session_id entry) ≠ [] →
  ¬ occursIn (js "/") (session_id entry) →
  ¬ occursIn [92] (session_id entry) →
  ¬ occursIn (js "..") (session_id entry) →
  ∃ resolved,
    resolvePersistedSessionEntry (session_id entry) = Some resolved
    ∧ session_id resolved = session_id entry.
Proof.
  intros Hjoin Hthere Hentry Hblank Hslash Hbackslash Hdots.
  apply listed_entry in Hentry. cbv zeta in Hentry.
  destruct Hentry as (_ & Hcwd & Hpreview & _ & _ & _ & Hfile & Hroot).
  destruct Hfile as (dirents & dirent & files & file & Hdirents & Hdirent
                     & Hdirectory & _ & _ & _ & Hname & Hpath & Hstat).
  rewrite Hjoin, Hname in Hpath.
  assert (Hfound : resolvedIn (session_id entry) dirent
                   = Some {| session_id := session_id entry; cwd := cwd entry;
                             file_path := file_path entry; title := None;
                             updated_at := None; sort_ms := sort_ms entry |}).
  { apply resolvedIn_at; [done | by eapply Hthere | done | done | done]. }
  rewrite resolve_unfold.
  rewrite (bool_decide_eq_false_2 _ Hblank).
  assert (Hno : ∀ needle, ¬ occursIn needle (session_id entry) →
                          includes (session_id entry) needle = false).
  { intros needle Hnot. destruct (includes _ needle) eqn:Hin; [|done].
    by apply includes_occurs in Hin. }
  rewrite !Hno by done. cbn [orb]. rewrite Hroot, Hdirents. cbn.
  pose proof (foldl_laterOf_found None
                (omap (resolvedIn (session_id entry))
                      (List.filter isDirectory dirents))) as Hresolved.
  destruct (foldl laterOf None _) as [resolved|].
  - exists resolved. split; [done|].
    destruct Hresolved as [|Hin]; [done|].
    apply list_elem_of_omap in Hin as (d & _ & Hd).
    apply resolvedIn_fields in Hd. cbv zeta in Hd. tauto.
  - destruct Hresolved as [_ Hnone].
    assert (Hin : {| session_id := session_id entry; cwd := cwd entry;
                     file_path := file_path entry; title := None;
                     updated_at := None; sort_ms := sort_ms entry |}
                  ∈ omap (resolvedIn (session_id entry))
                      (List.filter isDirectory dirents)).
    { apply list_elem_of_omap. exists dirent. split; [|done].
      apply list_elem_of_In, filter_In. by rewrite <- list_elem_of_In. }
    rewrite Hnone in Hin. by apply elem_of_nil in Hin.
Qed.

End IndexAndResolver.

(** X23 at the session [s1] of [exampleFiles]. *)
Lemma listed_session_is_resolvable_witness :
  ∃ resolved,
    @resolvePersistedSessionEntry jsonRuntime exampleFiles (session_id s1Entry)
    = Some resolved
    ∧ session_id resolved = session_id s1Entry.
Proof.
  apply (@listed_session_is_resolvable jsonRuntime exampleFiles None s1Entry).
  - intros directory file. cbn [path_join exampleFiles join].
    by rewrite <- !app_assoc.
  - intros path time Htime. apply bool_decide_eq_true.
    cbn [statSync_mtimeMs exampleFiles] in Htime.
    repeat case_bool_decide; try done; subst path; set_solver.
  - replace (@listRecentPersistedSessions jsonRuntime exampleFiles None)
      with [s1Entry] by (by vm_compute).
    set_solver.
  - by vm_compute.
  - intros Hin%includes_occurs. by vm_compute in Hin.
  - intros Hin%includes_occurs. by vm_compute in Hin.
  - intros Hin%includes_occurs. by vm_compute in Hin.
Defined.
